(** * Sudoku solver: shallow embedding and verification

    The development embeds [sudokuSolver.ts]: the class [SudokuSolver]
    (constraint sets, [getValidNumbers], [findBestCell], [backtrack],
    [solve], [isValidBoard]), the helpers [boardWithSourceToSimple] and
    [applySolutionToBoard], and the propagator [autoSolveCells].

    Boards are arrays of arrays, modelled as lists of lists read with
    stdpp's lookup.  JavaScript [Set<string>] values are [gset string]
    (only membership, size and the single member of a one-element set are
    ever observed), and the candidate [Map<string, Set<string>>] is a
    [gmap string (gset string)] under the same string keys as the source. *)

From stdpp Require Import gmap strings list fin_maps pretty sorting.

Set Warnings "-clear-no-such-hyp".

Open Scope string_scope.
Open Scope list_scope.
Open Scope nat_scope.

(** ** Data model *)

(** [type SudokuBoard = (string | null)[][]]: [None] is [null]. *)
Abbreviation SudokuBoard := (list (list (option string))).

(** [source: 'user' | 'system' | null]. *)
Inductive Source := user | system.

#[global] Instance Source_eq_dec : EqDecision Source.
Proof. solve_decision. Defined.

Record SudokuCell := mkCell { value : option string; source : option Source }.

#[global] Instance SudokuCell_eq_dec : EqDecision SudokuCell.
Proof. solve_decision. Defined.

Abbreviation SudokuBoardWithSource := (list (list SudokuCell)).

(** The nine symbols, in the order of the array literal of the source. *)
Definition digits : list string :=
  ["1"; "2"; "3"; "4"; "5"; "6"; "7"; "8"; "9"].

(** The index pairs visited by [for i in 0..8] / [for j in 0..8], in visiting
    order. *)
Definition rowMajor : list (nat * nat) :=
  i ← seq 0 9; j ← seq 0 9; [(i, j)].

(** [board[i][j]]; every board of the development is 9 by 9 ([wf_board]),
    so the lookups below never leave the array. *)
Definition getCell (b : SudokuBoard) (i j : nat) : option string :=
  match b !! i with
  | Some r => match r !! j with Some c => c | None => None end
  | None => None
  end.

(** [board[i][j] = v]. *)
Definition setCell (b : SudokuBoard) (i j : nat) (v : option string) : SudokuBoard :=
  alter (λ r, <[j := v]> r) i b.

(** Nine rows of nine cells. *)
Definition wf_board (b : SudokuBoard) : Prop :=
  length b = 9 ∧ Forall (λ r, length r = 9) b.

(** [sets[i]] for one of the three arrays of nine sets. *)
Definition setAt (l : list (gset string)) (i : nat) : gset string :=
  default ∅ (l !! i).

(** [sets[i].add(num)] and [sets[i].delete(num)]. *)
Definition setAdd (l : list (gset string)) (i : nat) (num : string) :=
  alter (λ X, X ∪ {[num]}) i l.
Definition setDelete (l : list (gset string)) (i : nat) (num : string) :=
  alter (λ X, X ∖ {[num]}) i l.

(** ** class SudokuSolver *)

Record SudokuSolver := mkSolver {
  board : SudokuBoard;
  _rows : list (gset string);
  _cols : list (gset string);
  _squares : list (gset string)
}.

(** [Math.floor(row / 3) * 3 + Math.floor(col / 3)]. *)
Definition getSquareIndex (row col : nat) : nat := row / 3 * 3 + col / 3.

(** The three [add] calls shared by [initializeConstraints], [backtrack]
    and [updateCell]. *)
Definition addConstraints (this : SudokuSolver) (i j : nat) (num : string) : SudokuSolver :=
  {| board := board this;
     _rows := setAdd (_rows this) i num;
     _cols := setAdd (_cols this) j num;
     _squares := setAdd (_squares this) (getSquareIndex i j) num |}.

(** The three [delete] calls of the undo step of [backtrack]. *)
Definition deleteConstraints (this : SudokuSolver) (i j : nat) (num : string) : SudokuSolver :=
  {| board := board this;
     _rows := setDelete (_rows this) i num;
     _cols := setDelete (_cols this) j num;
     _squares := setDelete (_squares this) (getSquareIndex i j) num |}.

Definition initializeConstraints (this : SudokuSolver) : SudokuSolver :=
  foldl (λ this '(i, j),
           match getCell (board this) i j with
           | Some num => addConstraints this i j num
           | None => this
           end) this rowMajor.

(** [constructor(board)]: the board is copied, the sets start empty. *)
Definition newSolver (b : SudokuBoard) : SudokuSolver :=
  initializeConstraints
    {| board := b; _rows := replicate 9 ∅; _cols := replicate 9 ∅;
       _squares := replicate 9 ∅ |}.

Definition usedAt (this : SudokuSolver) (row col : nat) : gset string :=
  setAt (_rows this) row ∪ setAt (_cols this) col
  ∪ setAt (_squares this) (getSquareIndex row col).

Definition getValidNumbers (this : SudokuSolver) (row col : nat) : list string :=
  filter (λ num, num ∉ usedAt this row col) digits.

Record BestCell := mkBest { row : nat; col : nat; options : list string }.

(** The double loop of [findBestCell] over the cells still to visit, with
    the two loop variables [bestCell] and [minOptions]. *)
Fixpoint findBestCellFrom (this : SudokuSolver) (cells : list (nat * nat))
    (bestCell : option BestCell) (minOptions : nat) : option BestCell :=
  match cells with
  | [] => bestCell
  | (i, j) :: rest =>
      match getCell (board this) i j with
      | None =>
          let opts := getValidNumbers this i j in
          if length opts <? minOptions then
            if length opts =? 1 then Some (mkBest i j opts)
            else findBestCellFrom this rest (Some (mkBest i j opts)) (length opts)
          else findBestCellFrom this rest bestCell minOptions
      | Some _ => findBestCellFrom this rest bestCell minOptions
      end
  end.

Definition findBestCell (this : SudokuSolver) : option BestCell :=
  findBestCellFrom this rowMajor None 10.

(** The placement and its undo inside the [for (const num of options)] loop. *)
Definition place (this : SudokuSolver) (r c : nat) (num : string) : SudokuSolver :=
  addConstraints
    {| board := setCell (board this) r c (Some num); _rows := _rows this;
       _cols := _cols this; _squares := _squares this |} r c num.

Definition unplace (this : SudokuSolver) (r c : nat) (num : string) : SudokuSolver :=
  deleteConstraints
    {| board := setCell (board this) r c None; _rows := _rows this;
       _cols := _cols this; _squares := _squares this |} r c num.

(** The body of [for (const num of options)]; [rec] is the recursive call
    [this.backtrack()].  The result pairs the returned boolean with the
    solver state it leaves behind; [None] means the recursion budget ran
    out. *)
Fixpoint tryOptions (rec : SudokuSolver → option (bool * SudokuSolver))
    (r c : nat) (opts : list string) (this : SudokuSolver)
    : option (bool * SudokuSolver) :=
  match opts with
  | [] => Some (false, this)
  | num :: rest =>
      match rec (place this r c num) with
      | None => None
      | Some (true, this') => Some (true, this')
      | Some (false, this') => tryOptions rec r c rest (unplace this' r c num)
      end
  end.

Fixpoint backtrack (fuel : nat) (this : SudokuSolver) : option (bool * SudokuSolver) :=
  match fuel with
  | 0 => None
  | S fuel' =>
      match findBestCell this with
      | None => Some (true, this)
      | Some target =>
          tryOptions (backtrack fuel') (row target) (col target) (options target) this
      end
  end.

(** Result of [solve]: [Some b] is the returned board, [None] is [null]. *)
Definition solveWith (fuel : nat) (b : SudokuBoard) : option (option SudokuBoard) :=
  match backtrack fuel (newSolver b) with
  | None => None
  | Some (true, this) => Some (Some (board this))
  | Some (false, _) => Some None
  end.

(** Every call of [backtrack] fills one more of the 81 cells, so 82 nested
    calls always suffice ([solve_total] below). *)
Definition solve (b : SudokuBoard) : option (option SudokuBoard) := solveWith 82 b.

(** The early-return double loop of [isValidBoard]. *)
Fixpoint isValidBoardFrom (b : SudokuBoard) (cells : list (nat * nat))
    (rows cols squares : list (gset string)) : bool :=
  match cells with
  | [] => true
  | (i, j) :: rest =>
      match getCell b i j with
      | Some num =>
          let squareIndex := i / 3 * 3 + j / 3 in
          if bool_decide (num ∈ setAt rows i) || bool_decide (num ∈ setAt cols j)
             || bool_decide (num ∈ setAt squares squareIndex)
          then false
          else isValidBoardFrom b rest (setAdd rows i num) (setAdd cols j num)
                 (setAdd squares squareIndex num)
      | None => isValidBoardFrom b rest rows cols squares
      end
  end.

Definition isValidBoard (b : SudokuBoard) : bool :=
  isValidBoardFrom b rowMajor (replicate 9 ∅) (replicate 9 ∅) (replicate 9 ∅).

(** ** Free functions *)

Definition boardWithSourceToSimple (b : SudokuBoardWithSource) : SudokuBoard :=
  (λ r : list SudokuCell, value <$> r) <$> b.

Definition applySolutionToBoard (originalBoard : SudokuBoardWithSource)
    (solution : SudokuBoard) : SudokuBoardWithSource :=
  imap (λ i r,
          imap (λ j cell,
                  match value cell, getCell solution i j with
                  | None, Some v => mkCell (Some v) (Some system)
                  | _, _ => cell
                  end) r) originalBoard.

(** ** autoSolveCells *)

(** The template literal [`${i}-${j}`] used as key of the candidate map. *)
Definition key (i j : nat) : string := pretty i +:+ "-" +:+ pretty j.

(** [newBoard[i][j].value]. *)
Definition getValue (b : SudokuBoardWithSource) (i j : nat) : option string :=
  match b !! i with
  | Some r => match r !! j with Some c => value c | None => None end
  | None => None
  end.

(** [newBoard[row][col] = cell]. *)
Definition setSourceCell (b : SudokuBoardWithSource) (i j : nat) (cell : SudokuCell)
    : SudokuBoardWithSource :=
  alter (λ r, <[j := cell]> r) i b.

(** [PublicSudokuSolver.setBoardCell]: the guard of the source lets the
    write through exactly when [board[row][col]] exists, which is when the
    list update below changes anything. *)
Definition setBoardCell (this : SudokuSolver) (r c : nat) (v : option string) : SudokuSolver :=
  {| board := setCell (board this) r c v; _rows := _rows this;
     _cols := _cols this; _squares := _squares this |}.

(** The mutable variables the closures of [autoSolveCells] share. *)
Record AutoState := mkAuto {
  solver : SudokuSolver;
  newBoard : SudokuBoardWithSource;
  candidates : gmap string (gset string);
  hasChanges : bool;
  iterationChanges : bool
}.

(** The state with another candidate map. *)
Definition withCandidates (s : AutoState) (m : gmap string (gset string)) : AutoState :=
  {| solver := solver s; newBoard := newBoard s; candidates := m;
     hasChanges := hasChanges s; iterationChanges := iterationChanges s |}.

(** [iterationChanges = true; hasChanges = true]. *)
Definition markChanged (s : AutoState) : AutoState :=
  {| solver := solver s; newBoard := newBoard s; candidates := candidates s;
     hasChanges := true; iterationChanges := true |}.

(** [initializeCandidates]: the map starts empty and receives the valid
    numbers of every empty cell. *)
Definition initializeCandidates (this : SudokuSolver) (b : SudokuBoardWithSource)
    : gmap string (gset string) :=
  foldl (λ m '(i, j),
           match getValue b i j with
           | None => <[key i j := list_to_set (getValidNumbers this i j)]> m
           | Some _ => m
           end) ∅ rowMajor.

(** [removeCandidate]: the returned boolean and the state afterwards. *)
Definition removeCandidate (r c : nat) (num : string) (s : AutoState) : bool * AutoState :=
  match candidates s !! key r c with
  | Some cellCandidates =>
      if bool_decide (num ∈ cellCandidates)
      then (true, withCandidates s (<[key r c := cellCandidates ∖ {[num]}]> (candidates s)))
      else (false, s)
  | None => (false, s)
  end.

(** The cells [r = startRow..startRow+2], [c = startCol..startCol+2]. *)
Definition squareCells (startRow startCol : nat) : list (nat * nat) :=
  r ← seq startRow 3; c ← seq startCol 3; [(r, c)].

(** [updateCell]: the writes to the board, the flags, the solver and the
    map, then the two removal loops. *)
Definition updateCell (r c : nat) (v : string) (s : AutoState) : AutoState :=
  let s1 :=
    {| solver := addConstraints (setBoardCell (solver s) r c (Some v)) r c v;
       newBoard := setSourceCell (newBoard s) r c (mkCell (Some v) (Some system));
       candidates := delete (key r c) (candidates s);
       hasChanges := true; iterationChanges := true |} in
  let squareIndex := getSquareIndex r c in
  let startRow := squareIndex / 3 * 3 in
  let startCol := squareIndex `mod` 3 * 3 in
  let s2 :=
    foldl (λ s i, (removeCandidate i c v (removeCandidate r i v s).2).2) s1 (seq 0 9) in
  foldl (λ s '(r', c'), (removeCandidate r' c' v s).2) s2 (squareCells startRow startCol).

(** Technique 1: naked singles. *)
Definition nakedSingles (s : AutoState) : AutoState :=
  foldl (λ s '(i, j),
           match getValue (newBoard s) i j with
           | None =>
               match candidates s !! key i j with
               | Some cellCandidates =>
                   if bool_decide (size cellCandidates = 1) then
                     match elements cellCandidates !! 0 with
                     | Some v => updateCell i j v s
                     | None => s
                     end
                   else s
               | None => s
               end
           | Some _ => s
           end) s rowMajor.

(** The test [value === null && cellCandidates && cellCandidates.has(num)]
    that guards every [push] and [add] of techniques 2 and 3. *)
Definition hasCandidate (s : AutoState) (num : string) (rc : nat * nat) : bool :=
  match getValue (newBoard s) rc.1 rc.2 with
  | None =>
      match candidates s !! key rc.1 rc.2 with
      | Some cellCandidates => bool_decide (num ∈ cellCandidates)
      | None => false
      end
  | Some _ => false
  end.

(** Technique 2: hidden singles, by rows, by columns and by squares. *)
Definition hiddenRows (s : AutoState) : AutoState :=
  foldl (λ s r,
    foldl (λ s num,
      if bool_decide (num ∈ setAt (_rows (solver s)) r) then s
      else
        let possibleCols := filter (λ c, hasCandidate s num (r, c)) (seq 0 9) in
        if (length possibleCols =? 1) then
          match possibleCols !! 0 with
          | Some c => updateCell r c num s
          | None => s
          end
        else s) s digits) s (seq 0 9).

Definition hiddenCols (s : AutoState) : AutoState :=
  foldl (λ s c,
    foldl (λ s num,
      if bool_decide (num ∈ setAt (_cols (solver s)) c) then s
      else
        let possibleRows := filter (λ r, hasCandidate s num (r, c)) (seq 0 9) in
        if (length possibleRows =? 1) then
          match possibleRows !! 0 with
          | Some r => updateCell r c num s
          | None => s
          end
        else s) s digits) s (seq 0 9).

Definition hiddenSquares (s : AutoState) : AutoState :=
  foldl (λ s squareIndex,
    let startRow := squareIndex / 3 * 3 in
    let startCol := squareIndex `mod` 3 * 3 in
    foldl (λ s num,
      if bool_decide (num ∈ setAt (_squares (solver s)) squareIndex) then s
      else
        let possibleCells := filter (hasCandidate s num) (squareCells startRow startCol) in
        if (length possibleCells =? 1) then
          match possibleCells !! 0 with
          | Some (r, c) => updateCell r c num s
          | None => s
          end
        else s) s digits) s (seq 0 9).

(** The pruning step of technique 3: [removeCandidate] and, when it
    succeeds, the two flags. *)
Definition pruneCandidate (r c : nat) (num : string) (s : AutoState) : AutoState :=
  match getValue (newBoard s) r c with
  | None =>
      let '(removed, s') := removeCandidate r c num s in
      if removed then markChanged s' else s'
  | Some _ => s
  end.

(** Technique 3, first half: when the candidates for [num] in the square lie
    in one row, prune [num] from that row outside the square. *)
Definition reduceRow (squareIndex : nat) (num : string) (s : AutoState) : AutoState :=
  let startRow := squareIndex / 3 * 3 in
  let startCol := squareIndex `mod` 3 * 3 in
  let rowsWithPossibility : gset nat :=
    list_to_set (fst <$> filter (hasCandidate s num) (squareCells startRow startCol)) in
  if bool_decide (size rowsWithPossibility = 1) then
    match elements rowsWithPossibility !! 0 with
    | Some targetRow =>
        foldl (λ s c,
                 if bool_decide (startCol ≤ c) && bool_decide (c < startCol + 3)
                 then s else pruneCandidate targetRow c num s) s (seq 0 9)
    | None => s
    end
  else s.

(** Technique 3, second half: the same for a single column. *)
Definition reduceCol (squareIndex : nat) (num : string) (s : AutoState) : AutoState :=
  let startRow := squareIndex / 3 * 3 in
  let startCol := squareIndex `mod` 3 * 3 in
  let colsWithPossibility : gset nat :=
    list_to_set (snd <$> filter (hasCandidate s num) (squareCells startRow startCol)) in
  if bool_decide (size colsWithPossibility = 1) then
    match elements colsWithPossibility !! 0 with
    | Some targetCol =>
        foldl (λ s r,
                 if bool_decide (startRow ≤ r) && bool_decide (r < startRow + 3)
                 then s else pruneCandidate r targetCol num s) s (seq 0 9)
    | None => s
    end
  else s.

(** Technique 3: box/line reduction. *)
Definition boxLineReduction (s : AutoState) : AutoState :=
  foldl (λ s squareIndex,
    foldl (λ s num,
      if bool_decide (num ∈ setAt (_squares (solver s)) squareIndex) then s
      else reduceCol squareIndex num (reduceRow squareIndex num s)) s digits) s (seq 0 9).

(** The passes of the body of the [while] loop, in order. *)
Definition round (s : AutoState) : AutoState :=
  boxLineReduction (hiddenSquares (hiddenCols (hiddenRows (nakedSingles s)))).

(** One iteration of the [while] loop: [iterationChanges = false] at its
    head, then the passes. *)
Definition iteration (s : AutoState) : AutoState :=
  round {| solver := solver s; newBoard := newBoard s; candidates := candidates s;
           hasChanges := hasChanges s; iterationChanges := false |}.

(** [while (iterationChanges && maxIterations > 0)], with [maxIterations--]
    at the head of the body: the result carries the final value of
    [maxIterations]. *)
Fixpoint mainLoop (maxIterations : nat) (s : AutoState) : nat * AutoState :=
  match maxIterations with
  | 0 => (0, s)
  | S maxIterations' =>
      if iterationChanges s then mainLoop maxIterations' (iteration s)
      else (maxIterations, s)
  end.

(** [let maxIterations = 10]. *)
Definition maxIterations0 : nat := 10.

(** The state on entry of the [while] loop. *)
Definition initialState (b : SudokuBoardWithSource) : AutoState :=
  let this := newSolver (boardWithSourceToSimple b) in
  {| solver := this; newBoard := b; candidates := initializeCandidates this b;
     hasChanges := false; iterationChanges := true |}.

Definition autoSolveCells (b : SudokuBoardWithSource) : SudokuBoardWithSource :=
  if negb (isValidBoard (boardWithSourceToSimple b)) then b
  else
    let s := (mainLoop maxIterations0 (initialState b)).2 in
    if hasChanges s then newBoard s else b.

(** [board[i][j]] on a board with provenance tags. *)
Definition getSourceCell (b : SudokuBoardWithSource) (i j : nat) : option SudokuCell :=
  match b !! i with Some r => r !! j | None => None end.

(** ** SudokuBoard.tsx: the pure parts of the component *)

(** [initializeBoard]: nine rows of nine cells [{ value: null, source: null }]. *)
Definition initializeBoard : SudokuBoardWithSource :=
  replicate 9 (replicate 9 (mkCell None None)).

(** [calculateCandidates]: the map handed to [setCellCandidates]. *)
Definition calculateCandidates (b : SudokuBoardWithSource) : gmap string (list string) :=
  let simpleBoard := boardWithSourceToSimple b in
  if negb (isValidBoard simpleBoard) then ∅
  else
    let this := newSolver simpleBoard in
    foldl (λ m '(i, j),
             match getValue b i j with
             | None => <[key i j := getValidNumbers this i j]> m
             | Some _ => m
             end) ∅ rowMajor.

Section HostModel.

(** [parseInt] is a built-in of the language: it is a parameter of the
    model, [None] standing for [NaN]. *)
Variable parseInt : string → option Z.

(** [isValidMove]: the three scanning loops return [false] at the first
    conflicting cell, which is the conjunction of the tests below. *)
Definition isValidMove (b : SudokuBoardWithSource) (r c : nat) (v : string) : bool :=
  if decide (v = "") then true
  else
    match parseInt v with
    | None => false
    | Some num =>
        if bool_decide (num < 1)%Z || bool_decide (num > 9)%Z then false
        else
          forallb (λ c', negb (bool_decide (c' ≠ c) && bool_decide (getValue b r c' = Some v)))
            (seq 0 9)
          && forallb (λ r', negb (bool_decide (r' ≠ r) && bool_decide (getValue b r' c = Some v)))
               (seq 0 9)
          && forallb (λ '(r', c'),
                        negb (bool_decide (r' ≠ r ∨ c' ≠ c)
                              && bool_decide (getValue b r' c' = Some v)))
               (squareCells (r / 3 * 3) (c / 3 * 3))
    end.

End HostModel.

(** The function [handleCellChange] passes to [setBoard]: the board it
    returns.  An input that is neither empty nor one character from 1 to 9
    (the test [/^[1-9]$/]) never reaches [setBoard]; the board then stays as
    it is.  The rendered grid only sends rows and columns below 9; outside,
    the source raises on [newBoard[row][col].source] and no board is set,
    which the last branch stands for. *)
Definition handleCellChange (r c : nat) (v : string) (prev : SudokuBoardWithSource)
    : SudokuBoardWithSource :=
  if bool_decide (v = "") || bool_decide (v ∈ digits) then
    match getSourceCell prev r c with
    | Some cell =>
        if decide (source cell = Some system) then prev
        else
          setSourceCell prev r c
            (if decide (v = "") then mkCell None None else mkCell (Some v) (Some user))
    | None => prev
    end
  else prev.

(** [handleKeyDown]: the cell that receives the focus, [None] for a key
    that is not an arrow. *)
Definition handleKeyDown (k : string) (r c : nat) : option (nat * nat) :=
  if decide (k = "ArrowUp") then Some (if 0 <? r then r - 1 else 8, c)
  else if decide (k = "ArrowDown") then Some (if r <? 8 then r + 1 else 0, c)
  else if decide (k = "ArrowLeft") then Some (r, if 0 <? c then c - 1 else 8)
  else if decide (k = "ArrowRight") then Some (r, if c <? 8 then c + 1 else 0)
  else None.

(** What changes the board of the component: an edit of a cell, the
    debounced [autoSolveStep], and [clearBoard]. *)
Inductive HostEvent :=
  | CellChange (r c : nat) (v : string)
  | AutoSolveStep
  | ClearBoard.

Definition hostStep (b : SudokuBoardWithSource) (e : HostEvent) : SudokuBoardWithSource :=
  match e with
  | CellChange r c v => handleCellChange r c v b
  | AutoSolveStep => autoSolveCells b
  | ClearBoard => initializeBoard
  end.

(** * Specification vocabulary *)

(** Two distinct filled cells of one row (column, block) hold the same
    symbol. *)
Definition rowDuplicate (b : SudokuBoard) : Prop :=
  ∃ i j j' s, i < 9 ∧ j < 9 ∧ j' < 9 ∧ j ≠ j'
    ∧ getCell b i j = Some s ∧ getCell b i j' = Some s.

Definition colDuplicate (b : SudokuBoard) : Prop :=
  ∃ i i' j s, i < 9 ∧ i' < 9 ∧ j < 9 ∧ i ≠ i'
    ∧ getCell b i j = Some s ∧ getCell b i' j = Some s.

Definition blockDuplicate (b : SudokuBoard) : Prop :=
  ∃ i j i' j' s, i < 9 ∧ j < 9 ∧ i' < 9 ∧ j' < 9 ∧ (i, j) ≠ (i', j')
    ∧ getSquareIndex i j = getSquareIndex i' j'
    ∧ getCell b i j = Some s ∧ getCell b i' j' = Some s.

Definition hasDuplicate (b : SudokuBoard) : Prop :=
  rowDuplicate b ∨ colDuplicate b ∨ blockDuplicate b.

(** The uniqueness invariant of the specification. *)
Definition unique (b : SudokuBoard) : Prop := ¬ hasDuplicate b.

(** No cell of the board is empty. *)
Definition full (b : SudokuBoard) : Prop :=
  ∀ i j, i < 9 → j < 9 → getCell b i j ≠ None.

(** Every filled cell of [b] holds the same symbol in [b']. *)
Definition extends (b b' : SudokuBoard) : Prop :=
  ∀ i j s, i < 9 → j < 9 → getCell b i j = Some s → getCell b' i j = Some s.

(** Two cells share a row, a column or a block. *)
Definition peers (p q : nat * nat) : Prop :=
  p.1 = q.1 ∨ p.2 = q.2 ∨ getSquareIndex p.1 p.2 = getSquareIndex q.1 q.2.

(** A duplicate among the cells of the list [L]. *)
Definition dupIn (b : SudokuBoard) (L : list (nat * nat)) : Prop :=
  ∃ p q s, p ∈ L ∧ q ∈ L ∧ p ≠ q ∧ peers p q
    ∧ getCell b p.1 p.2 = Some s ∧ getCell b q.1 q.2 = Some s.

(** [Array(9)]: nine sets. *)
Definition wf_sets (l : list (gset string)) : Prop := length l = 9.

(** The shape every solver built by the constructor has. *)
Definition wf_solver (this : SudokuSolver) : Prop :=
  wf_board (board this) ∧ wf_sets (_rows this) ∧ wf_sets (_cols this)
  ∧ wf_sets (_squares this).

(** The constraint sets contain every symbol placed in their row, column
    and block. *)
Definition covers (this : SudokuSolver) (b : SudokuBoard) : Prop :=
  ∀ i j s, i < 9 → j < 9 → getCell b i j = Some s →
    s ∈ setAt (_rows this) i ∧ s ∈ setAt (_cols this) j
    ∧ s ∈ setAt (_squares this) (getSquareIndex i j).

(** What the three local arrays of [isValidBoard] hold after the cells of
    [pre] were scanned: exactly the symbols met so far. *)
Definition seenExactly (b : SudokuBoard) (pre : list (nat * nat))
    (R C S : list (gset string)) : Prop :=
  (∀ i s, s ∈ setAt R i ↔ ∃ j, (i, j) ∈ pre ∧ getCell b i j = Some s)
  ∧ (∀ j s, s ∈ setAt C j ↔ ∃ i, (i, j) ∈ pre ∧ getCell b i j = Some s)
  ∧ (∀ k s, s ∈ setAt S k ↔
        ∃ i j, (i, j) ∈ pre ∧ getSquareIndex i j = k ∧ getCell b i j = Some s).

(** [this.board[i][j] === null] at the cell [p]. *)
Definition emptyAt (this : SudokuSolver) (p : nat * nat) : Prop :=
  getCell (board this) p.1 p.2 = None.

(** [getValidNumbers(i, j).length] at the cell [p]. *)
Definition nOptions (this : SudokuSolver) (p : nat * nat) : nat :=
  length (getValidNumbers this p.1 p.2).

(** What [findBestCell] guarantees about the cell [t] it returns after a
    scan of the cells [L]: [l1] are the cells visited before [t], [l2] the
    cells after it. *)
Definition selected (this : SudokuSolver) (L : list (nat * nat)) (t : BestCell) : Prop :=
  ∃ l1 l2, L = l1 ++ (row t, col t) :: l2
    ∧ emptyAt this (row t, col t)
    ∧ options t = getValidNumbers this (row t) (col t)
    ∧ (∀ p, p ∈ l1 → emptyAt this p → length (options t) < nOptions this p)
    ∧ (length (options t) = 1
       ∨ ((∀ p, p ∈ l1 → emptyAt this p → 2 ≤ nOptions this p)
          ∧ (∀ p, p ∈ l2 → emptyAt this p → length (options t) ≤ nOptions this p))).

(** Loop invariant of [findBestCell] once the cells [pre] were visited. *)
Definition bestSoFar (this : SudokuSolver) (pre : list (nat * nat))
    (bestCell : option BestCell) (minOptions : nat) : Prop :=
  match bestCell with
  | None => minOptions = 10 ∧ ∀ p, p ∈ pre → ¬ emptyAt this p
  | Some t =>
      minOptions = length (options t) ∧ minOptions ≠ 1
      ∧ ∃ l1 l2, pre = l1 ++ (row t, col t) :: l2
        ∧ emptyAt this (row t, col t)
        ∧ options t = getValidNumbers this (row t) (col t)
        ∧ (∀ p, p ∈ l1 → emptyAt this p →
             minOptions < nOptions this p ∧ 2 ≤ nOptions this p)
        ∧ (∀ p, p ∈ l2 → emptyAt this p → minOptions ≤ nOptions this p)
  end.

(** The invariant of the search: a 9 by 9 board without duplicate whose
    symbols are all recorded in the constraint sets. *)
Definition consistent (this : SudokuSolver) : Prop :=
  wf_solver this ∧ unique (board this) ∧ covers this (board this).

(** The empty cells of a board, and their number: the measure that
    decreases along the recursion of [backtrack]. *)
Definition emptyCells (b : SudokuBoard) : list (nat * nat) :=
  filter (λ p, getCell b p.1 p.2 = None) rowMajor.

Definition countEmpty (b : SudokuBoard) : nat := length (emptyCells b).

(** Nine rows of nine tagged cells. *)
Definition wf_sboard (b : SudokuBoardWithSource) : Prop :=
  length b = 9 ∧ Forall (λ r, length r = 9) b.

(** [s'] is [s] after some candidates were removed: same board, same
    solver, no new candidate. *)
Definition pruned (s s' : AutoState) : Prop :=
  newBoard s' = newBoard s ∧ solver s' = solver s
  ∧ ∀ k C', candidates s' !! k = Some C' →
      ∃ C, candidates s !! k = Some C ∧ C' ⊆ C.

(** [removeCandidate] applied to each cell of a list in turn. *)
Definition removeList (v : string) (L : list (nat * nat)) (s : AutoState) : AutoState :=
  foldl (λ s '(r', c'), (removeCandidate r' c' v s).2) s L.

(** The cells whose candidates [updateCell r c] goes through: the row, the
    column, then the square. *)
Definition peerCells (r c : nat) : list (nat * nat) :=
  (i ← seq 0 9; [(r, i); (i, c)])
  ++ squareCells (getSquareIndex r c / 3 * 3) (getSquareIndex r c `mod` 3 * 3).

(** No candidate of a cell is already used in its row, column or block. *)
Definition candidatesSound (s : AutoState) : Prop :=
  ∀ i j C x, i < 9 → j < 9 → candidates s !! key i j = Some C → x ∈ C →
    x ∉ usedAt (solver s) i j.

(** Every cell of [nb] is the cell of [g], or was empty in [g] and now
    holds a symbol tagged [system]. *)
Definition fills (g nb : SudokuBoardWithSource) : Prop :=
  ∀ i j, i < 9 → j < 9 →
    getSourceCell nb i j = getSourceCell g i j
    ∨ (getValue g i j = None
       ∧ ∃ v, getSourceCell nb i j = Some (mkCell (Some v) (Some system))).

(** The invariant of the loop of [autoSolveCells] started on the board
    [g]. *)
Record propInv (g : SudokuBoardWithSource) (s : AutoState) : Prop := mkInv {
  inv_wf : wf_sboard (newBoard s);
  inv_rows : wf_sets (_rows (solver s));
  inv_cols : wf_sets (_cols (solver s));
  inv_squares : wf_sets (_squares (solver s));
  inv_unique : unique (boardWithSourceToSimple (newBoard s));
  inv_covers : covers (solver s) (boardWithSourceToSimple (newBoard s));
  inv_cands : candidatesSound s;
  inv_fills : fills g (newBoard s)
}.

(** [p] is visited before [q] by the double loop: lower row, or same row
    and lower column. *)
Definition before (p q : nat * nat) : Prop :=
  p.1 < q.1 ∨ (p.1 = q.1 ∧ p.2 < q.2).

#[local] Instance before_dec p q : Decision (before p q).
Proof. unfold before. apply _. Defined.

(** Builds a board from rows of digit strings; ["."] is an empty cell. *)
Definition cellOf (x : string) : option string :=
  if decide (x = ".") then None else Some x.

Definition boardOf (rows : list (list string)) : SudokuBoard :=
  (λ r : list string, cellOf <$> r) <$> rows.

(** The cells a host starts from: filled cells are tagged [user]. *)
Definition fromUser (b : SudokuBoard) : SudokuBoardWithSource :=
  (λ r : list (option string),
     (λ v : option string,
        mkCell v (match v with Some _ => Some user | None => None end)) <$> r) <$> b.

(** The grid without any symbol. *)
Definition emptyBoard : SudokuBoard := replicate 9 (replicate 9 None).

(** A complete valid grid. *)
Definition solvedBoard : SudokuBoard := boardOf
  [ ["1"; "2"; "3"; "4"; "5"; "6"; "7"; "8"; "9"];
    ["4"; "5"; "6"; "7"; "8"; "9"; "1"; "2"; "3"];
    ["7"; "8"; "9"; "1"; "2"; "3"; "4"; "5"; "6"];
    ["2"; "3"; "1"; "6"; "7"; "4"; "8"; "9"; "5"];
    ["8"; "7"; "5"; "9"; "1"; "2"; "3"; "6"; "4"];
    ["6"; "9"; "4"; "5"; "3"; "8"; "2"; "1"; "7"];
    ["3"; "1"; "7"; "2"; "6"; "5"; "9"; "4"; "8"];
    ["5"; "4"; "2"; "8"; "9"; "7"; "6"; "3"; "1"];
    ["9"; "6"; "8"; "3"; "4"; "1"; "5"; "7"; "2"] ].

(** [solvedBoard] with six cells cleared. *)
Definition puzzleBoard : SudokuBoard := boardOf
  [ ["."; "2"; "3"; "4"; "5"; "6"; "7"; "8"; "9"];
    ["4"; "."; "6"; "7"; "8"; "9"; "1"; "2"; "3"];
    ["7"; "8"; "9"; "1"; "2"; "3"; "4"; "5"; "6"];
    ["2"; "3"; "1"; "6"; "."; "4"; "8"; "9"; "5"];
    ["8"; "7"; "5"; "9"; "."; "2"; "3"; "6"; "4"];
    ["6"; "9"; "4"; "5"; "3"; "8"; "2"; "1"; "7"];
    ["3"; "1"; "7"; "2"; "6"; "5"; "9"; "4"; "8"];
    ["5"; "4"; "2"; "8"; "9"; "7"; "6"; "3"; "."];
    ["9"; "6"; "8"; "3"; "4"; "1"; "5"; "7"; "."] ].

(** [solvedBoard] with a second ["2"] written over the first cell of row 0
    and the last cell cleared. *)
Definition duplicateBoard : SudokuBoard := boardOf
  [ ["2"; "2"; "3"; "4"; "5"; "6"; "7"; "8"; "9"];
    ["4"; "5"; "6"; "7"; "8"; "9"; "1"; "2"; "3"];
    ["7"; "8"; "9"; "1"; "2"; "3"; "4"; "5"; "6"];
    ["2"; "3"; "1"; "6"; "7"; "4"; "8"; "9"; "5"];
    ["8"; "7"; "5"; "9"; "1"; "2"; "3"; "6"; "4"];
    ["6"; "9"; "4"; "5"; "3"; "8"; "2"; "1"; "7"];
    ["3"; "1"; "7"; "2"; "6"; "5"; "9"; "4"; "8"];
    ["5"; "4"; "2"; "8"; "9"; "7"; "6"; "3"; "1"];
    ["9"; "6"; "8"; "3"; "4"; "1"; "5"; "7"; "."] ].

(** What [solve] returns on [duplicateBoard]. *)
Definition duplicateSolved : SudokuBoard := boardOf
  [ ["2"; "2"; "3"; "4"; "5"; "6"; "7"; "8"; "9"];
    ["4"; "5"; "6"; "7"; "8"; "9"; "1"; "2"; "3"];
    ["7"; "8"; "9"; "1"; "2"; "3"; "4"; "5"; "6"];
    ["2"; "3"; "1"; "6"; "7"; "4"; "8"; "9"; "5"];
    ["8"; "7"; "5"; "9"; "1"; "2"; "3"; "6"; "4"];
    ["6"; "9"; "4"; "5"; "3"; "8"; "2"; "1"; "7"];
    ["3"; "1"; "7"; "2"; "6"; "5"; "9"; "4"; "8"];
    ["5"; "4"; "2"; "8"; "9"; "7"; "6"; "3"; "1"];
    ["9"; "6"; "8"; "3"; "4"; "1"; "5"; "7"; "2"] ].

(** A duplicate-free board on which cell (0,0) has the single candidate
    ["9"] and cell (4,4) has no candidate at all. *)
Definition singleThenDeadBoard : SudokuBoard := boardOf
  [ ["."; "1"; "2"; "3"; "4"; "5"; "6"; "7"; "8"];
    ["."; "."; "."; "."; "6"; "."; "."; "."; "."];
    ["."; "."; "."; "."; "7"; "."; "."; "."; "."];
    ["."; "."; "."; "."; "5"; "."; "."; "."; "."];
    ["1"; "2"; "3"; "9"; "."; "."; "."; "."; "."];
    ["."; "."; "."; "."; "8"; "."; "."; "."; "."];
    ["."; "."; "."; "."; "."; "."; "."; "."; "."];
    ["."; "."; "."; "."; "."; "."; "."; "."; "."];
    ["."; "."; "."; "."; "."; "."; "."; "."; "."] ].

(** A duplicate-free board with nine clues that has no completion: block 4
    needs 2, 4, 6 and 8 in the three cells of its left column. *)
Definition stallBoard : SudokuBoard := boardOf
  [ ["."; "."; "."; "."; "."; "."; "."; "."; "5"];
    ["."; "."; "7"; "."; "."; "8"; "."; "."; "."];
    ["."; "."; "."; "."; "."; "."; "."; "."; "."];
    ["."; "."; "."; "."; "3"; "."; "."; "."; "."];
    ["."; "."; "."; "."; "5"; "."; "."; "."; "."];
    ["."; "."; "."; "."; "1"; "."; "."; "."; "."];
    ["."; "."; "."; "."; "."; "4"; "."; "."; "."];
    ["."; "."; "."; "."; "."; "6"; "."; "."; "."];
    ["."; "."; "."; "."; "."; "2"; "."; "."; "."] ].

(** Every member of a constraint set is a symbol placed in its row, column
    or block of the board [b]. *)
Definition recorded (this : SudokuSolver) (b : SudokuBoard) : Prop :=
  (∀ i s, s ∈ setAt (_rows this) i → ∃ j, i < 9 ∧ j < 9 ∧ getCell b i j = Some s)
  ∧ (∀ j s, s ∈ setAt (_cols this) j → ∃ i, i < 9 ∧ j < 9 ∧ getCell b i j = Some s)
  ∧ (∀ k s, s ∈ setAt (_squares this) k →
       ∃ i j, i < 9 ∧ j < 9 ∧ getSquareIndex i j = k ∧ getCell b i j = Some s).

(** [sol] completes [b]: a full 9 by 9 board without duplicate that keeps
    the symbols of [b] and has one of the nine digits wherever [b] is
    empty. *)
Definition solutionOf (b sol : SudokuBoard) : Prop :=
  wf_board sol ∧ full sol ∧ unique sol ∧ extends b sol
  ∧ ∀ i j s, i < 9 → j < 9 → getCell b i j = None → getCell sol i j = Some s →
      s ∈ digits.

(** [s'] comes from [s] by steps that raise [iterationChanges] whenever
    they change anything. *)
Definition quiet (s s' : AutoState) : Prop :=
  (iterationChanges s = true → iterationChanges s' = true)
  ∧ (iterationChanges s' = false → s' = s).

(** The keys of the cells of a list. *)
Definition keysOf (L : list (nat * nat)) : list string := (λ p, key p.1 p.2) <$> L.

(** Every candidate is one of the nine digits, and so is every symbol of
    the new board that the board [g] does not have. *)
Definition digitsInv (g : SudokuBoardWithSource) (s : AutoState) : Prop :=
  (∀ k C x, candidates s !! k = Some C → x ∈ C → x ∈ digits)
  ∧ (∀ i j v, getValue (newBoard s) i j = Some v →
       getValue g i j = Some v ∨ v ∈ digits).

(** All symbols of a board are digits. *)
Definition digitsOnly (b : SudokuBoard) : Prop :=
  ∀ i j s, i < 9 → j < 9 → getCell b i j = Some s → s ∈ digits.

(** The state is compatible with the completed board [sol]: the filled
    cells are those of [sol], and the candidates of every empty cell still
    contain its symbol in [sol]. *)
Definition agrees (sol : SudokuBoard) (s : AutoState) : Prop :=
  extends (boardWithSourceToSimple (newBoard s)) sol
  ∧ ∀ i j, i < 9 → j < 9 → getValue (newBoard s) i j = None →
      ∃ C x, candidates s !! key i j = Some C ∧ getCell sol i j = Some x ∧ x ∈ C.

(** The cells of row [r] and of column [c], in visiting order. *)
Definition rowCells (r : nat) : list (nat * nat) := (λ c, (r, c)) <$> seq 0 9.
Definition colCells (c : nat) : list (nat * nat) := (λ r, (r, c)) <$> seq 0 9.

(** The invariant of the loop started on [g] together with compatibility
    with the completed board [sol]. *)
Definition compatible (g : SudokuBoardWithSource) (sol : SudokuBoard) (s : AutoState) : Prop :=
  propInv g s ∧ agrees sol s.

(** A cell as the component produces them: empty without tag, or a digit
    with a tag. *)
Definition cellOK (cell : SudokuCell) : Prop :=
  match value cell, source cell with
  | None, None => True
  | Some v, Some _ => v ∈ digits
  | _, _ => False
  end.

(** A 9 by 9 board of such cells. *)
Definition boardOK (b : SudokuBoardWithSource) : Prop :=
  wf_sboard b
  ∧ ∀ i j cell, i < 9 → j < 9 → getSourceCell b i j = Some cell → cellOK cell.

(** The board of the component after a sequence of events. *)
Definition hostRun (b : SudokuBoardWithSource) (es : list HostEvent) : SudokuBoardWithSource :=
  foldl hostStep b es.

(** Deciding [peers], for statements by cases. *)
#[local] Instance peers_dec p q : Decision (peers p q).
Proof. unfold peers. apply _. Defined.

(** A [parseInt] restricted to one-character inputs: the value of a digit
    from 1 to 9, [None] (for [NaN]) on anything else. *)
Definition parseDigit (v : string) : option Z :=
  (λ p, Z.of_nat (S p.1)) <$> list_find (λ d, d = v) digits.

(** The events the rendered grid can send: an edit addresses a cell of the
    grid. *)
Definition inGrid (e : HostEvent) : Prop :=
  match e with
  | CellChange r c _ => r < 9 ∧ c < 9
  | _ => True
  end.

(** [hasChanges], once raised, is still raised in [s']. *)
Definition sticky (s s' : AutoState) : Prop :=
  hasChanges s = true → hasChanges s' = true.

(** The cell (i, j) of the new board is [cell]. *)
Definition holds (i j : nat) (cell : SudokuCell) (s : AutoState) : Prop :=
  getSourceCell (newBoard s) i j = Some cell.

(** The body of the double loop of technique 1. *)
Definition nakedStep (s : AutoState) (p : nat * nat) : AutoState :=
  let '(i, j) := p in
  match getValue (newBoard s) i j with
  | None =>
      match candidates s !! key i j with
      | Some cellCandidates =>
          if bool_decide (size cellCandidates = 1) then
            match elements cellCandidates !! 0 with
            | Some v => updateCell i j v s
            | None => s
            end
          else s
      | None => s
      end
  | Some _ => s
  end.

(** The bodies of the loops of techniques 2 and 3. *)
Definition hiddenRowStep (r : nat) (s : AutoState) (num : string) : AutoState :=
  if bool_decide (num ∈ setAt (_rows (solver s)) r) then s
  else
    let possibleCols := filter (λ c, hasCandidate s num (r, c)) (seq 0 9) in
    if (length possibleCols =? 1) then
      match possibleCols !! 0 with
      | Some c => updateCell r c num s
      | None => s
      end
    else s.

Definition hiddenColStep (c : nat) (s : AutoState) (num : string) : AutoState :=
  if bool_decide (num ∈ setAt (_cols (solver s)) c) then s
  else
    let possibleRows := filter (λ r, hasCandidate s num (r, c)) (seq 0 9) in
    if (length possibleRows =? 1) then
      match possibleRows !! 0 with
      | Some r => updateCell r c num s
      | None => s
      end
    else s.

Definition hiddenSquareStep (squareIndex : nat) (s : AutoState) (num : string) : AutoState :=
  let startRow := squareIndex / 3 * 3 in
  let startCol := squareIndex `mod` 3 * 3 in
  if bool_decide (num ∈ setAt (_squares (solver s)) squareIndex) then s
  else
    let possibleCells := filter (hasCandidate s num) (squareCells startRow startCol) in
    if (length possibleCells =? 1) then
      match possibleCells !! 0 with
      | Some (r, c) => updateCell r c num s
      | None => s
      end
    else s.

Definition boxStep (squareIndex : nat) (s : AutoState) (num : string) : AutoState :=
  if bool_decide (num ∈ setAt (_squares (solver s)) squareIndex) then s
  else reduceCol squareIndex num (reduceRow squareIndex num s).

(** The rows, and the columns, of the cells of square [k] that still have
    [num] as a candidate. *)
Definition rowsWith (k : nat) (num : string) (s : AutoState) : gset nat :=
  list_to_set (fst <$> filter (hasCandidate s num)
                         (squareCells (k / 3 * 3) (k `mod` 3 * 3))).
Definition colsWith (k : nat) (num : string) (s : AutoState) : gset nat :=
  list_to_set (snd <$> filter (hasCandidate s num)
                         (squareCells (k / 3 * 3) (k `mod` 3 * 3))).

(** The state [t] of a run started on the board of [s] is above [s]: same
    board, the solver of a fresh start on that board, and every candidate
    that an empty cell has in [s] is a candidate of the cell in [t]. *)
Definition above (s t : AutoState) : Prop :=
  newBoard t = newBoard s
  ∧ solver t = newSolver (boardWithSourceToSimple (newBoard s))
  ∧ ∀ i j C, i < 9 → j < 9 → getValue (newBoard s) i j = None →
      candidates s !! key i j = Some C →
      ∃ C', candidates t !! key i j = Some C' ∧ C ⊆ C'.

(** A board with 28 clues that has the completion [partialSolved]: the
    propagation fills 18 of its cells in three rounds and stops with 35
    cells empty. *)
Definition partialBoard : SudokuBoard := boardOf
  [ ["."; "."; "3"; "."; "."; "."; "."; "."; "."];
    ["5"; "."; "4"; "."; "."; "6"; "."; "9"; "."];
    ["."; "."; "9"; "."; "."; "2"; "."; "."; "."];
    ["4"; "1"; "."; "."; "8"; "."; "9"; "2"; "."];
    ["."; "."; "8"; "."; "."; "5"; "4"; "."; "1"];
    ["."; "5"; "."; "4"; "6"; "."; "3"; "."; "."];
    ["."; "4"; "1"; "."; "."; "3"; "."; "5"; "."];
    ["."; "."; "."; "."; "."; "4"; "."; "."; "3"];
    ["6"; "."; "."; "."; "."; "."; "."; "1"; "."] ].

Definition partialSolved : SudokuBoard := boardOf
  [ ["1"; "6"; "3"; "7"; "9"; "8"; "5"; "4"; "2"];
    ["5"; "2"; "4"; "1"; "3"; "6"; "7"; "9"; "8"];
    ["7"; "8"; "9"; "5"; "4"; "2"; "1"; "3"; "6"];
    ["4"; "1"; "6"; "3"; "8"; "7"; "9"; "2"; "5"];
    ["3"; "7"; "8"; "9"; "2"; "5"; "4"; "6"; "1"];
    ["9"; "5"; "2"; "4"; "6"; "1"; "3"; "8"; "7"];
    ["2"; "4"; "1"; "6"; "7"; "3"; "8"; "5"; "9"];
    ["8"; "9"; "5"; "2"; "1"; "4"; "6"; "7"; "3"];
    ["6"; "3"; "7"; "8"; "5"; "9"; "2"; "1"; "4"] ].

(** A board that has the completion [capSolved] and on which the
    propagation is still making changes in its tenth round. *)
Definition capBoard : SudokuBoard := boardOf
  [ ["."; "."; "."; "."; "."; "."; "."; "1"; "."];
    ["2"; "1"; "6"; "."; "9"; "."; "."; "7"; "8"];
    ["."; "7"; "3"; "2"; "."; "."; "."; "4"; "."];
    ["."; "."; "4"; "."; "7"; "."; "."; "."; "."];
    ["6"; "8"; "."; "."; "."; "2"; "."; "."; "3"];
    ["."; "."; "."; "."; "."; "."; "."; "2"; "9"];
    ["."; "."; "."; "."; "."; "."; "."; "."; "."];
    ["."; "9"; "."; "."; "8"; "3"; "2"; "6"; "4"];
    ["4"; "6"; "."; "."; "."; "9"; "."; "3"; "1"] ].

Definition capSolved : SudokuBoard := boardOf
  [ ["5"; "4"; "9"; "8"; "3"; "7"; "6"; "1"; "2"];
    ["2"; "1"; "6"; "5"; "9"; "4"; "3"; "7"; "8"];
    ["8"; "7"; "3"; "2"; "6"; "1"; "9"; "4"; "5"];
    ["9"; "2"; "4"; "3"; "7"; "5"; "1"; "8"; "6"];
    ["6"; "8"; "1"; "9"; "4"; "2"; "7"; "5"; "3"];
    ["3"; "5"; "7"; "6"; "1"; "8"; "4"; "2"; "9"];
    ["1"; "3"; "2"; "4"; "5"; "6"; "8"; "9"; "7"];
    ["7"; "9"; "5"; "1"; "8"; "3"; "2"; "6"; "4"];
    ["4"; "6"; "8"; "7"; "2"; "9"; "5"; "3"; "1"] ].

(** * Basic facts *)

Section Basics.

Lemma elem_of_rowMajor i j : (i, j) ∈ rowMajor ↔ i < 9 ∧ j < 9.
Proof.
  unfold rowMajor. rewrite list_elem_of_bind. split.
  - intros (x & Hx & Hi). apply list_elem_of_bind in Hx as (y & Hy & Hj).
    apply list_elem_of_singleton in Hy. inversion Hy; subst.
    apply elem_of_seq in Hi, Hj. lia.
  - intros [Hi Hj]. exists i. split; [|apply elem_of_seq; lia].
    apply list_elem_of_bind. exists j. split; [|apply elem_of_seq; lia].
    by apply list_elem_of_singleton.
Qed.

Lemma NoDup_rowMajor : NoDup rowMajor.
Proof. apply (bool_decide_unpack _). by vm_compute. Qed.

Lemma getSquareIndex_lt i j : i < 9 → j < 9 → getSquareIndex i j < 9.
Proof.
  intros Hi Hj. unfold getSquareIndex.
  assert (i / 3 ≤ 2) by (apply Nat.lt_succ_r, Nat.Div0.div_lt_upper_bound; lia).
  assert (j / 3 ≤ 2) by (apply Nat.lt_succ_r, Nat.Div0.div_lt_upper_bound; lia).
  lia.
Qed.

Lemma getCell_setCell_eq (b : SudokuBoard) i j v :
  wf_board b → i < 9 → j < 9 → getCell (setCell b i j v) i j = v.
Proof.
  intros [Hl Hr] Hi Hj. unfold getCell, setCell.
  destruct (lookup_lt_is_Some_2 b i) as [r Hri]; [lia|].
  rewrite list_lookup_alter_eq, Hri. simpl.
  rewrite Forall_forall in Hr.
  assert (length r = 9) by (apply Hr; by eapply list_elem_of_lookup_2).
  rewrite list_lookup_insert_eq by lia. done.
Qed.

Lemma getCell_setCell_ne (b : SudokuBoard) i j v i' j' :
  (i, j) ≠ (i', j') → getCell (setCell b i j v) i' j' = getCell b i' j'.
Proof.
  intros Hne. unfold getCell, setCell.
  destruct (decide (i = i')) as [->|Hi].
  - rewrite list_lookup_alter_eq. destruct (b !! i') as [r|]; simpl; [|done].
    rewrite list_lookup_insert_ne by congruence. done.
  - by rewrite list_lookup_alter_ne.
Qed.

Lemma wf_setCell (b : SudokuBoard) i j v : wf_board b → wf_board (setCell b i j v).
Proof.
  intros [Hl Hr]. unfold setCell. split; [by rewrite length_alter|].
  apply Forall_alter; [done|]. intros r _ Hlen. by rewrite length_insert.
Qed.

Lemma setCell_undo (b : SudokuBoard) i j v :
  wf_board b → i < 9 → j < 9 → getCell b i j = None →
  setCell (setCell b i j v) i j None = b.
Proof.
  intros [Hl Hr] Hi Hj Hc. unfold setCell. rewrite list_alter_alter_eq.
  destruct (lookup_lt_is_Some_2 b i) as [r Hri]; [lia|].
  unfold getCell in Hc. rewrite Hri in Hc.
  rewrite Forall_forall in Hr.
  assert (length r = 9) by (apply Hr; by eapply list_elem_of_lookup_2).
  destruct (lookup_lt_is_Some_2 r j) as [c Hcj]; [lia|].
  rewrite Hcj in Hc. subst c.
  rewrite <- (list_alter_id id b i) at 2 by done.
  apply list_alter_ext; [|done]. intros r' Hr'. simpl.
  assert (r' = r) by congruence. subst r'.
  rewrite list_insert_insert_eq. by apply list_insert_id.
Qed.

Lemma setAt_setAdd (l : list (gset string)) i n i' x :
  x ∈ setAt (setAdd l i n) i' ↔ x ∈ setAt l i' ∨ (i = i' ∧ i < length l ∧ x = n).
Proof.
  unfold setAt, setAdd. destruct (decide (i = i')) as [->|Hne].
  - rewrite list_lookup_alter_eq. destruct (l !! i') as [X|] eqn:HX; simpl.
    + apply lookup_lt_Some in HX. set_solver.
    + apply lookup_ge_None in HX. split; [set_solver|]. intros [?|(_ & ? & _)]; [done|lia].
  - rewrite list_lookup_alter_ne by done. naive_solver.
Qed.

Lemma setAt_replicate n i : setAt (replicate n ∅) i = ∅.
Proof.
  unfold setAt. destruct (replicate n ∅ !! i) as [X|] eqn:HX; [|done].
  apply lookup_replicate in HX as [-> _]. done.
Qed.

Lemma wf_sets_setAdd l i n : wf_sets l → wf_sets (setAdd l i n).
Proof. unfold wf_sets, setAdd. by rewrite length_alter. Qed.

Lemma wf_sets_setDelete l i n : wf_sets l → wf_sets (setDelete l i n).
Proof. unfold wf_sets, setDelete. by rewrite length_alter. Qed.

Lemma wf_sets_replicate : wf_sets (replicate 9 ∅).
Proof. unfold wf_sets. by rewrite length_replicate. Qed.

Lemma setDelete_setAdd (l : list (gset string)) i n :
  n ∉ setAt l i → setDelete (setAdd l i n) i n = l.
Proof.
  intros Hn. unfold setDelete, setAdd. rewrite list_alter_alter_eq.
  rewrite <- (list_alter_id id l i) at 2 by done.
  apply list_alter_ext; [|done]. intros X HX. simpl.
  unfold setAt in Hn. rewrite HX in Hn. simpl in Hn.
  apply leibniz_equiv. set_solver.
Qed.

End Basics.

(** * The validity check *)

Section Validity.

Variable b : SudokuBoard.

Lemma seenExactly_nil : seenExactly b [] (replicate 9 ∅) (replicate 9 ∅) (replicate 9 ∅).
Proof.
  repeat split; rewrite ?setAt_replicate; try set_solver;
    intros H; destruct_and?; repeat destruct H as [? H]; set_solver.
Qed.

Lemma seenExactly_skip pre i j R C S :
  getCell b i j = None → seenExactly b pre R C S → seenExactly b (pre ++ [(i, j)]) R C S.
Proof.
  intros Hc (HR & HC & HS). repeat split.
  - intros H. apply HR in H as (j' & ? & ?). exists j'. set_solver.
  - intros (j' & [?|Hin]%elem_of_app & ?); [apply HR; eauto|].
    apply list_elem_of_singleton in Hin. congruence.
  - intros H. apply HC in H as (i' & ? & ?). exists i'. set_solver.
  - intros (i' & [?|Hin]%elem_of_app & ?); [apply HC; eauto|].
    apply list_elem_of_singleton in Hin. congruence.
  - intros H. apply HS in H as (i' & j' & ? & ? & ?). exists i', j'. set_solver.
  - intros (i' & j' & [?|Hin]%elem_of_app & ? & ?); [apply HS; eauto|].
    apply list_elem_of_singleton in Hin. congruence.
Qed.

Lemma seenExactly_add pre i j num R C S :
  i < 9 → j < 9 → wf_sets R → wf_sets C → wf_sets S →
  getCell b i j = Some num → seenExactly b pre R C S →
  seenExactly b (pre ++ [(i, j)]) (setAdd R i num) (setAdd C j num)
    (setAdd S (getSquareIndex i j) num).
Proof.
  intros Hi Hj HlR HlC HlS Hc (HR & HC & HS).
  pose proof (getSquareIndex_lt i j Hi Hj) as Hk.
  unfold wf_sets in *. repeat split.
  - rewrite setAt_setAdd. intros [H|(-> & _ & ->)].
    + apply HR in H as (j' & ? & ?). exists j'. set_solver.
    + exists j. set_solver.
  - intros (j' & [?|Hin]%elem_of_app & Hs); rewrite setAt_setAdd.
    + left. apply HR. eauto.
    + apply list_elem_of_singleton in Hin. inversion Hin; subst.
      right. repeat split; [lia|congruence].
  - rewrite setAt_setAdd. intros [H|(-> & _ & ->)].
    + apply HC in H as (i' & ? & ?). exists i'. set_solver.
    + exists i. set_solver.
  - intros (i' & [?|Hin]%elem_of_app & Hs); rewrite setAt_setAdd.
    + left. apply HC. eauto.
    + apply list_elem_of_singleton in Hin. inversion Hin; subst.
      right. repeat split; [lia|congruence].
  - rewrite setAt_setAdd. intros [H|(<- & _ & ->)].
    + apply HS in H as (i' & j' & ? & ? & ?). exists i', j'. set_solver.
    + exists i, j. set_solver.
  - intros (i' & j' & [?|Hin]%elem_of_app & Hk' & Hs); rewrite setAt_setAdd.
    + left. apply HS. eauto.
    + apply list_elem_of_singleton in Hin. inversion Hin; subst.
      right. repeat split; [lia|congruence].
Qed.

Lemma dupIn_snoc_inv pre p :
  dupIn b (pre ++ [p]) →
  dupIn b pre ∨ ∃ q s, q ∈ pre ∧ q ≠ p ∧ peers q p
    ∧ getCell b q.1 q.2 = Some s ∧ getCell b p.1 p.2 = Some s.
Proof.
  intros (x & y & s & Hx & Hy & Hne & Hp & Hcx & Hcy).
  apply elem_of_app in Hx as [Hx|Hx]; apply elem_of_app in Hy as [Hy|Hy];
    rewrite ?list_elem_of_singleton in *; subst.
  - left. exists x, y, s. done.
  - right. exists x, s. done.
  - right. exists y, s. repeat split; try done.
    unfold peers in *. naive_solver.
  - done.
Qed.

Lemma dupIn_mono L L' : L ⊆ L' → dupIn b L → dupIn b L'.
Proof.
  intros Hsub (x & y & s & Hx & Hy & H). exists x, y, s. split; [auto|split; [auto|done]].
Qed.

Lemma isValidBoardFrom_spec cells : ∀ pre R C S,
  (∀ p, p ∈ cells → p.1 < 9 ∧ p.2 < 9) →
  NoDup (pre ++ cells) →
  wf_sets R → wf_sets C → wf_sets S →
  seenExactly b pre R C S → ¬ dupIn b pre →
  isValidBoardFrom b cells R C S = false ↔ dupIn b (pre ++ cells).
Proof.
  induction cells as [|[i j] rest IH]; intros pre R C S Hrng Hnd HlR HlC HlS Hseen Hno.
  - simpl. rewrite app_nil_r. split; [done|]. intros H. by destruct Hno.
  - assert (Hij : i < 9 ∧ j < 9) by (apply (Hrng (i, j)); set_solver).
    destruct Hij as [Hi Hj].
    assert (Hfresh : (i, j) ∉ pre).
    { apply NoDup_app in Hnd as (_ & Hd & _). intros Hin. apply (Hd _ Hin). set_solver. }
    replace (pre ++ (i, j) :: rest) with ((pre ++ [(i, j)]) ++ rest) in *
      by (by rewrite <- app_assoc).
    assert (Hrng' : ∀ p, p ∈ rest → p.1 < 9 ∧ p.2 < 9) by (intros; apply Hrng; set_solver).
    cbn [isValidBoardFrom]. change (i / 3 * 3 + j / 3) with (getSquareIndex i j).
    destruct (getCell b i j) as [num|] eqn:Hc.
    + destruct Hseen as (HR & HC & HS).
      destruct (bool_decide (num ∈ setAt R i)) eqn:HbR; cbn [orb].
      { apply bool_decide_eq_true in HbR. apply HR in HbR as (j' & Hin & Hs).
        split; [intros _|done]. exists (i, j'), (i, j), num. cbn [fst snd].
        repeat split; try done; [set_solver|set_solver|congruence|by left]. }
      destruct (bool_decide (num ∈ setAt C j)) eqn:HbC; cbn [orb].
      { apply bool_decide_eq_true in HbC. apply HC in HbC as (i' & Hin & Hs).
        split; [intros _|done]. exists (i', j), (i, j), num. cbn [fst snd].
        repeat split; try done; [set_solver|set_solver|congruence|by right; left]. }
      destruct (bool_decide (num ∈ setAt S (getSquareIndex i j))) eqn:HbS; cbn [orb].
      { apply bool_decide_eq_true in HbS. apply HS in HbS as (i' & j' & Hin & Hk & Hs).
        split; [intros _|done]. exists (i', j'), (i, j), num. cbn [fst snd].
        repeat split; try done; [set_solver|set_solver|congruence|by right; right]. }
      apply bool_decide_eq_false in HbR, HbC, HbS.
      apply IH; try done; try by apply wf_sets_setAdd.
      * by apply (seenExactly_add pre i j num R C S).
      * intros [Hd|(q & s & Hq & Hne & Hp & Hcq & Hcp)]%dupIn_snoc_inv; [done|].
        cbn [fst snd] in Hcp. assert (s = num) by congruence. subst s.
        destruct q as [i' j']. cbn [fst snd] in *.
        destruct Hp as [Hp|[Hp|Hp]]; cbn [fst snd] in Hp; subst.
        -- apply HbR, HR. eauto.
        -- apply HbC, HC. eauto.
        -- apply HbS, HS. exists i', j'. done.
    + apply IH; try done.
      * by apply seenExactly_skip.
      * intros [Hd|(q & s & Hq & Hne & Hp & Hcq & Hcp)]%dupIn_snoc_inv; [done|].
        cbn [fst snd] in Hcp. congruence.
Qed.

Lemma dupIn_rowMajor : dupIn b rowMajor ↔ hasDuplicate b.
Proof.
  split.
  - intros ([i j] & [i' j'] & s & Hp & Hq & Hne & Hpe & Hcp & Hcq).
    apply elem_of_rowMajor in Hp as [? ?], Hq as [? ?]. simpl in *.
    destruct Hpe as [Hpe|[Hpe|Hpe]]; simpl in Hpe.
    + subst i'. left. exists i, j, j', s. repeat split; try done. congruence.
    + subst j'. right; left. exists i, i', j, s. repeat split; try done. congruence.
    + right; right. exists i, j, i', j', s. done.
  - intros [(i & j & j' & s & ? & ? & ? & ? & ? & ?)
           |[(i & i' & j & s & ? & ? & ? & ? & ? & ?)
            |(i & j & i' & j' & s & ? & ? & ? & ? & ? & ? & ? & ?)]].
    + exists (i, j), (i, j'), s. rewrite !elem_of_rowMajor. simpl.
      repeat split; try done; [congruence|by left].
    + exists (i, j), (i', j), s. rewrite !elem_of_rowMajor. simpl.
      repeat split; try done; [congruence|by right; left].
    + exists (i, j), (i', j'), s. rewrite !elem_of_rowMajor. simpl.
      repeat split; try done. by right; right.
Qed.

Lemma isValidBoard_false : isValidBoard b = false ↔ hasDuplicate b.
Proof.
  rewrite <- dupIn_rowMajor. unfold isValidBoard.
  apply (isValidBoardFrom_spec rowMajor []); try apply wf_sets_replicate.
  - intros [i j] Hin. by apply elem_of_rowMajor in Hin.
  - apply NoDup_rowMajor.
  - apply seenExactly_nil.
  - intros (p & _ & _ & Hp & _). by apply elem_of_nil in Hp.
Qed.

Lemma isValidBoard_true : isValidBoard b = true ↔ unique b.
Proof.
  unfold unique. rewrite <- isValidBoard_false. by destruct (isValidBoard b).
Qed.

End Validity.

(** * The constraint tracker *)

Section Tracker.

Lemma wf_addConstraints this i j num :
  wf_solver this → wf_solver (addConstraints this i j num).
Proof.
  intros (? & ? & ? & ?). split; [done|]. simpl. auto using wf_sets_setAdd.
Qed.

Lemma usedAt_addConstraints_mono this i j num r c x :
  x ∈ usedAt this r c → x ∈ usedAt (addConstraints this i j num) r c.
Proof.
  unfold usedAt. simpl. rewrite !elem_of_union, !setAt_setAdd. tauto.
Qed.

(** State of the loop of [initializeConstraints] after the cells [cells]. *)
Lemma initializeConstraints_fold cells : ∀ this,
  let this' :=
    foldl (λ this '(i, j),
             match getCell (board this) i j with
             | Some num => addConstraints this i j num
             | None => this
             end) this cells in
  wf_solver this →
  board this' = board this ∧ wf_solver this'
  ∧ (∀ i s, s ∈ setAt (_rows this) i → s ∈ setAt (_rows this') i)
  ∧ (∀ i s, s ∈ setAt (_cols this) i → s ∈ setAt (_cols this') i)
  ∧ (∀ i s, s ∈ setAt (_squares this) i → s ∈ setAt (_squares this') i)
  ∧ (∀ i j s, (i, j) ∈ cells → i < 9 → j < 9 → getCell (board this) i j = Some s →
       s ∈ setAt (_rows this') i ∧ s ∈ setAt (_cols this') j
       ∧ s ∈ setAt (_squares this') (getSquareIndex i j)).
Proof.
  induction cells as [|[i j] rest IH]; intros this this' Hwf.
  - subst this'. simpl. do 5 (split; [done|]).
    intros ? ? ? Hin. by apply elem_of_nil in Hin.
  - subst this'. cbn [foldl].
    set (this1 := match getCell (board this) i j with
                  | Some num => addConstraints this i j num
                  | None => this
                  end).
    assert (Hb1 : board this1 = board this) by (subst this1; by destruct (getCell _ _ _)).
    assert (Hwf1 : wf_solver this1).
    { subst this1. destruct (getCell _ _ _); [by apply wf_addConstraints|done]. }
    assert (HmR : ∀ k s, s ∈ setAt (_rows this) k → s ∈ setAt (_rows this1) k).
    { subst this1. destruct (getCell _ _ _); [|done]. simpl. intros. rewrite setAt_setAdd. auto. }
    assert (HmC : ∀ k s, s ∈ setAt (_cols this) k → s ∈ setAt (_cols this1) k).
    { subst this1. destruct (getCell _ _ _); [|done]. simpl. intros. rewrite setAt_setAdd. auto. }
    assert (HmS : ∀ k s, s ∈ setAt (_squares this) k → s ∈ setAt (_squares this1) k).
    { subst this1. destruct (getCell _ _ _); [|done]. simpl. intros. rewrite setAt_setAdd. auto. }
    destruct (IH this1 Hwf1) as (Hb & Hwf' & HR & HC & HS & Hcov).
    split; [congruence|]. split; [done|].
    split; [auto|]. split; [auto|]. split; [auto|].
    intros i' j' s Hin Hi' Hj' Hc. apply elem_of_cons in Hin as [Heq|Hin].
    + inversion Heq; subst i' j'. subst this1. rewrite Hc in *.
      destruct Hwf as (_ & HlR & HlC & HlS). unfold wf_sets in *.
      pose proof (getSquareIndex_lt i j Hi' Hj').
      repeat split; [apply HR|apply HC|apply HS]; simpl; rewrite setAt_setAdd;
        right; repeat split; lia.
    + apply Hcov; try done. by rewrite Hb1.
Qed.

Lemma wf_emptySolver b :
  wf_board b → wf_solver (mkSolver b (replicate 9 ∅) (replicate 9 ∅) (replicate 9 ∅)).
Proof. intros. split; [done|]. simpl. auto using wf_sets_replicate. Qed.

Lemma board_newSolver b : wf_board b → board (newSolver b) = b.
Proof.
  intros Hwf. unfold newSolver, initializeConstraints.
  by destruct (initializeConstraints_fold rowMajor _ (wf_emptySolver b Hwf)) as (? & _).
Qed.

Lemma wf_newSolver b : wf_board b → wf_solver (newSolver b).
Proof.
  intros Hwf. unfold newSolver, initializeConstraints.
  by destruct (initializeConstraints_fold rowMajor _ (wf_emptySolver b Hwf)) as (_ & ? & _).
Qed.

Lemma covers_newSolver b : wf_board b → covers (newSolver b) b.
Proof.
  intros Hwf. unfold newSolver, initializeConstraints.
  destruct (initializeConstraints_fold rowMajor _ (wf_emptySolver b Hwf))
    as (_ & _ & _ & _ & _ & Hcov).
  intros i j s Hi Hj Hc. apply Hcov; try done. by apply elem_of_rowMajor.
Qed.

(** Membership in the result of [getValidNumbers]. *)
Lemma elem_of_getValidNumbers this r c num :
  num ∈ getValidNumbers this r c ↔ num ∈ digits ∧ num ∉ usedAt this r c.
Proof. unfold getValidNumbers. rewrite list_elem_of_filter. tauto. Qed.

Lemma length_getValidNumbers this r c : length (getValidNumbers this r c) ≤ 9.
Proof. unfold getValidNumbers. apply (length_filter _ digits). Qed.

(** ** Cell selection *)

Lemma bestSoFar_all this pre t m p :
  bestSoFar this pre (Some t) m → p ∈ pre → emptyAt this p → m ≤ nOptions this p.
Proof.
  intros (Hm & Hne & l1 & l2 & -> & He & Ho & H1 & H2) Hin Hp.
  apply elem_of_app in Hin as [Hin|Hin]; [apply H1 in Hin; [lia|done]|].
  apply elem_of_cons in Hin as [->|Hin]; [|by apply H2].
  unfold nOptions. simpl. rewrite <- Ho. lia.
Qed.

Lemma findBestCellFrom_spec this cells : ∀ pre bestCell minOptions,
  bestSoFar this pre bestCell minOptions →
  match findBestCellFrom this cells bestCell minOptions with
  | None => ∀ p, p ∈ pre ++ cells → ¬ emptyAt this p
  | Some t => selected this (pre ++ cells) t
  end.
Proof.
  induction cells as [|[i j] rest IH]; intros pre best m Hinv.
  - cbn [findBestCellFrom]. rewrite app_nil_r. destruct best as [t|]; [|by destruct Hinv].
    destruct Hinv as (Hm & Hne & l1 & l2 & -> & He & Ho & H1 & H2).
    exists l1, l2. split_and!; try done.
    + intros p Hp Hep. destruct (H1 p Hp Hep). lia.
    + right. split; [intros p Hp Hep; by destruct (H1 p Hp Hep)|].
      intros p Hp Hep. specialize (H2 p Hp Hep). lia.
  - cbn [findBestCellFrom].
    replace (pre ++ (i, j) :: rest) with ((pre ++ [(i, j)]) ++ rest)
      by (by rewrite <- app_assoc).
    destruct (getCell (board this) i j) as [v|] eqn:Hc.
    + apply IH. destruct best as [t|].
      * destruct Hinv as (Hm & Hne & l1 & l2 & -> & He & Ho & H1 & H2).
        split; [done|]. split; [done|]. exists l1, (l2 ++ [(i, j)]).
        rewrite <- app_assoc. split_and!; try done.
        intros p [Hp|Hp]%elem_of_app Hep; [by apply H2|].
        apply list_elem_of_singleton in Hp. subst p. unfold emptyAt in Hep. simpl in Hep.
        congruence.
      * destruct Hinv as [Hm Hall]. split; [done|].
        intros p [Hp|Hp]%elem_of_app Hep; [by apply (Hall p)|].
        apply list_elem_of_singleton in Hp. subst p. unfold emptyAt in Hep. simpl in Hep.
        congruence.
    + cbv zeta. set (opts := getValidNumbers this i j).
      assert (Hle : length opts ≤ 9) by apply length_getValidNumbers.
      destruct (length opts <? m) eqn:Hlt.
      * apply Nat.ltb_lt in Hlt.
        assert (Hpre : ∀ p, p ∈ pre → emptyAt this p →
                   length opts < nOptions this p ∧ (m ≠ 1 → m ≤ nOptions this p)).
        { intros p Hp Hep. destruct best as [t|].
          - pose proof (bestSoFar_all _ _ _ _ _ Hinv Hp Hep). lia.
          - destruct Hinv as [_ Hall]. by destruct (Hall p Hp). }
        assert (Hm1 : m ≠ 1).
        { destruct best; [by destruct Hinv as (_ & ? & _)|destruct Hinv; lia]. }
        destruct (length opts =? 1) eqn:H1.
        -- apply Nat.eqb_eq in H1. exists pre, rest. simpl.
           rewrite <- app_assoc. split_and!; try done; [|by left].
           intros p Hp Hep. by destruct (Hpre p Hp Hep).
        -- apply Nat.eqb_neq in H1. apply IH. simpl.
           split; [done|]. split; [done|]. exists pre, []. simpl.
           split_and!; try done.
           ++ intros p Hp Hep. destruct (Hpre p Hp Hep) as [? Hm]. specialize (Hm Hm1).
              lia.
           ++ intros p Hp. by apply elem_of_nil in Hp.
      * apply Nat.ltb_ge in Hlt. apply IH. destruct best as [t|].
        -- destruct Hinv as (Hm & Hne & l1 & l2 & -> & He & Ho & H1 & H2).
           split; [done|]. split; [done|]. exists l1, (l2 ++ [(i, j)]).
           rewrite <- app_assoc. split_and!; try done.
           intros p [Hp|Hp]%elem_of_app Hep; [by apply H2|].
           apply list_elem_of_singleton in Hp. subst p. by unfold nOptions.
        -- destruct Hinv as [Hm _]. lia.
Qed.

Lemma findBestCell_spec this :
  match findBestCell this with
  | None => ∀ p, p ∈ rowMajor → ¬ emptyAt this p
  | Some t => selected this rowMajor t
  end.
Proof.
  apply (findBestCellFrom_spec this rowMajor [] None 10).
  split; [done|]. intros p Hp. by apply elem_of_nil in Hp.
Qed.

(** The facts the search needs about the selected cell. *)
Lemma findBestCell_Some this t :
  findBestCell this = Some t →
  row t < 9 ∧ col t < 9 ∧ getCell (board this) (row t) (col t) = None
  ∧ options t = getValidNumbers this (row t) (col t).
Proof.
  intros Hf. pose proof (findBestCell_spec this) as Hs. rewrite Hf in Hs.
  destruct Hs as (l1 & l2 & HL & He & Ho & _).
  assert (Hin : (row t, col t) ∈ rowMajor) by (rewrite HL; set_solver).
  apply elem_of_rowMajor in Hin as [? ?]. done.
Qed.

Lemma findBestCell_None this :
  findBestCell this = None → full (board this).
Proof.
  intros Hf. pose proof (findBestCell_spec this) as Hs. rewrite Hf in Hs.
  intros i j Hi Hj. apply (Hs (i, j)). by apply elem_of_rowMajor.
Qed.

End Tracker.

(** * Backtracking search *)

Section Search.

Lemma unique_alt b :
  unique b ↔
  ∀ i j i' j' s, i < 9 → j < 9 → i' < 9 → j' < 9 → (i, j) ≠ (i', j') →
    getCell b i j = Some s → getCell b i' j' = Some s →
    i ≠ i' ∧ j ≠ j' ∧ getSquareIndex i j ≠ getSquareIndex i' j'.
Proof.
  unfold unique, hasDuplicate. split.
  - intros Hu i j i' j' s Hi Hj Hi' Hj' Hne Hc Hc'. split_and!.
    + intros ->. apply Hu. left. exists i', j, j', s. split_and!; try done. congruence.
    + intros ->. apply Hu. right; left. exists i, i', j', s. split_and!; try done. congruence.
    + intros Hk. apply Hu. right; right. exists i, j, i', j', s. done.
  - intros Hu [(i & j & j' & s & ? & ? & ? & ? & ? & ?)
              |[(i & i' & j & s & ? & ? & ? & ? & ? & ?)
               |(i & j & i' & j' & s & ? & ? & ? & ? & ? & ? & ? & ?)]].
    + destruct (Hu i j i j' s) as (? & _); try done. congruence.
    + destruct (Hu i j i' j s) as (_ & ? & _); try done. congruence.
    + destruct (Hu i j i' j' s) as (_ & _ & ?); done.
Qed.

Lemma unique_setCell b r c num :
  wf_board b → r < 9 → c < 9 → unique b →
  (∀ i j, i < 9 → j < 9 → getCell b i j = Some num →
     i ≠ r ∧ j ≠ c ∧ getSquareIndex i j ≠ getSquareIndex r c) →
  unique (setCell b r c (Some num)).
Proof.
  intros Hwf Hr Hc Hu Hfresh. rewrite unique_alt in *.
  intros i j i' j' s Hi Hj Hi' Hj' Hne Hs Hs'.
  destruct (decide ((r, c) = (i, j))) as [Heq|Hn1];
    destruct (decide ((r, c) = (i', j'))) as [Heq'|Hn2].
  - congruence.
  - inversion Heq; subst i j. rewrite getCell_setCell_eq in Hs by done.
    rewrite getCell_setCell_ne in Hs' by done. inversion Hs; subst s.
    destruct (Hfresh i' j' Hi' Hj' Hs') as (? & ? & ?). split_and!; congruence.
  - inversion Heq'; subst i' j'. rewrite getCell_setCell_eq in Hs' by done.
    rewrite getCell_setCell_ne in Hs by done. inversion Hs'; subst s.
    by apply Hfresh.
  - rewrite getCell_setCell_ne in Hs, Hs' by done. by apply (Hu i j i' j' s).
Qed.

Lemma wf_place this r c num : wf_solver this → wf_solver (place this r c num).
Proof.
  intros (? & ? & ? & ?). unfold place. apply wf_addConstraints.
  split; [by apply wf_setCell|done].
Qed.

Lemma board_place this r c num :
  board (place this r c num) = setCell (board this) r c (Some num).
Proof. done. Qed.

Lemma not_used_fresh this b r c num i j :
  covers this b → num ∉ usedAt this r c →
  i < 9 → j < 9 → getCell b i j = Some num →
  i ≠ r ∧ j ≠ c ∧ getSquareIndex i j ≠ getSquareIndex r c.
Proof.
  intros Hcov Hnum Hi Hj Hc. destruct (Hcov i j num Hi Hj Hc) as (HR & HC & HS).
  unfold usedAt in Hnum. rewrite !elem_of_union in Hnum.
  split_and!; intros Heq; apply Hnum; [subst i|subst j|rewrite <- Heq]; auto.
Qed.

Lemma consistent_place this r c num :
  consistent this → r < 9 → c < 9 → num ∉ usedAt this r c →
  consistent (place this r c num).
Proof.
  intros (Hwf & Hu & Hcov) Hr Hc Hnum. split; [by apply wf_place|]. split.
  - rewrite board_place. destruct Hwf as (Hwb & _).
    apply unique_setCell; try done. intros i j Hi Hj Hij.
    by apply (not_used_fresh this (board this) r c num).
  - rewrite board_place. destruct Hwf as (Hwb & HlR & HlC & HlS).
    pose proof (getSquareIndex_lt r c Hr Hc). unfold wf_sets in *.
    intros i j s Hi Hj Hs. unfold place. simpl. rewrite !setAt_setAdd.
    destruct (decide ((r, c) = (i, j))) as [Heq|Hne].
    + inversion Heq; subst i j. rewrite getCell_setCell_eq in Hs by done.
      inversion Hs; subst s. split_and!; right; split_and!; done || lia.
    + rewrite getCell_setCell_ne in Hs by done.
      destruct (Hcov i j s Hi Hj Hs) as (? & ? & ?). auto.
Qed.

(** Undoing a placement gives back the very state it started from. *)
Lemma unplace_place this r c num :
  wf_solver this → r < 9 → c < 9 → getCell (board this) r c = None →
  num ∉ usedAt this r c →
  unplace (place this r c num) r c num = this.
Proof.
  intros (Hwb & _) Hr Hc He Hnum. destruct this as [b R C S]. simpl in *.
  unfold unplace, place, deleteConstraints, addConstraints, usedAt in *. simpl in *.
  rewrite setCell_undo by done.
  rewrite !setDelete_setAdd by set_solver. done.
Qed.

Lemma extends_refl b : extends b b.
Proof. by intros i j s. Qed.

Lemma extends_trans b1 b2 b3 : extends b1 b2 → extends b2 b3 → extends b1 b3.
Proof. intros H12 H23 i j s Hi Hj Hc. apply H23, H12; done. Qed.

Lemma extends_setCell b r c v :
  getCell b r c = None → extends b (setCell b r c v).
Proof.
  intros He i j s Hi Hj Hc. rewrite getCell_setCell_ne; [done|]. congruence.
Qed.

(** A failed search leaves the solver exactly as it found it. *)
Lemma backtrack_false fuel : ∀ this this',
  wf_solver this → backtrack fuel this = Some (false, this') → this' = this.
Proof.
  induction fuel as [|fuel IH]; intros this this' Hwf Hb; [done|].
  cbn [backtrack] in Hb. destruct (findBestCell this) as [t|] eqn:Hf; [|congruence].
  apply findBestCell_Some in Hf as (Hr & Hc & He & Ho).
  assert (Hopts : ∀ num, num ∈ options t → num ∉ usedAt this (row t) (col t)).
  { intros num Hin. rewrite Ho in Hin. by apply elem_of_getValidNumbers in Hin as [_ ?]. }
  clear Ho. revert Hb Hopts. generalize (options t). intros opts.
  induction opts as [|num rest IHo]; intros Hb Hopts; cbn [tryOptions] in Hb.
  - congruence.
  - destruct (backtrack fuel (place this (row t) (col t) num)) as [[[] this1]|] eqn:Hrec;
      [congruence| |congruence].
    apply IH in Hrec; [|by apply wf_place]. subst this1.
    rewrite unplace_place in Hb; try done; [|apply Hopts; set_solver].
    apply IHo; [done|]. intros. apply Hopts. set_solver.
Qed.

(** A successful search ends on a full, duplicate-free board that keeps
    every symbol of the board it started from. *)
Lemma backtrack_true fuel : ∀ this this',
  consistent this → backtrack fuel this = Some (true, this') →
  consistent this' ∧ full (board this') ∧ extends (board this) (board this').
Proof.
  induction fuel as [|fuel IH]; intros this this' Hcons Hb; [done|].
  cbn [backtrack] in Hb. destruct (findBestCell this) as [t|] eqn:Hf.
  - apply findBestCell_Some in Hf as (Hr & Hc & He & Ho).
    assert (Hopts : ∀ num, num ∈ options t → num ∉ usedAt this (row t) (col t)).
    { intros num Hin. rewrite Ho in Hin. by apply elem_of_getValidNumbers in Hin as [_ ?]. }
    clear Ho. revert Hb Hopts. generalize (options t). intros opts.
    induction opts as [|num rest IHo]; intros Hb Hopts; cbn [tryOptions] in Hb.
    + congruence.
    + assert (Hnum : num ∉ usedAt this (row t) (col t)) by (apply Hopts; set_solver).
      destruct (backtrack fuel (place this (row t) (col t) num)) as [[[] this1]|] eqn:Hrec;
        [| |congruence].
      * inversion Hb; subst this1.
        apply IH in Hrec as (? & ? & Hext); [|by apply consistent_place].
        split_and!; try done. eapply extends_trans; [|exact Hext].
        rewrite board_place. by apply extends_setCell.
      * apply backtrack_false in Hrec; [|apply wf_place; by destruct Hcons]. subst this1.
        rewrite unplace_place in Hb; try done; [|by destruct Hcons].
        apply IHo; [done|]. intros. apply Hopts. set_solver.
  - inversion Hb; subst this'. apply findBestCell_None in Hf.
    split_and!; try done. apply extends_refl.
Qed.

(** ** Termination: the recursion budget of [solve] is never exhausted *)

Lemma countEmpty_le b : countEmpty b ≤ 81.
Proof. unfold countEmpty, emptyCells. apply (length_filter _ rowMajor). Qed.

Lemma length_filter_lt {A} (P Q : A → Prop) `{∀ x, Decision (P x)} `{∀ x, Decision (Q x)}
    (l : list A) x :
  (∀ y, y ∈ l → P y → Q y) → x ∈ l → Q x → ¬ P x →
  length (filter P l) < length (filter Q l).
Proof.
  induction l as [|a l IH]; intros Himp Hin HQ HP; [by apply elem_of_nil in Hin|].
  assert (Hle : length (filter P l) ≤ length (filter Q l)).
  { clear -Himp. induction l as [|y l IHl]; [done|].
    rewrite !filter_cons. assert (P y → Q y) by (apply Himp; set_solver).
    assert (length (filter P l) ≤ length (filter Q l)) by (apply IHl; set_solver).
    repeat case_decide; simpl; try lia. tauto. }
  rewrite !filter_cons. apply elem_of_cons in Hin as [->|Hin].
  - repeat case_decide; simpl; try lia; tauto.
  - assert (length (filter P l) < length (filter Q l)) by (apply IH; set_solver).
    assert (P a → Q a) by (apply Himp; set_solver).
    repeat case_decide; simpl; try lia. tauto.
Qed.

Lemma countEmpty_setCell b r c num :
  wf_board b → r < 9 → c < 9 → getCell b r c = None →
  countEmpty (setCell b r c (Some num)) < countEmpty b.
Proof.
  intros Hwf Hr Hc He. unfold countEmpty, emptyCells.
  apply (length_filter_lt _ _ rowMajor (r, c)); simpl.
  - intros [i j] _. simpl. destruct (decide ((r, c) = (i, j))) as [Heq|Hne].
    + inversion Heq; subst. by rewrite getCell_setCell_eq.
    + by rewrite getCell_setCell_ne.
  - by apply elem_of_rowMajor.
  - done.
  - by rewrite getCell_setCell_eq.
Qed.

Lemma backtrack_total fuel : ∀ this,
  wf_solver this → countEmpty (board this) < fuel →
  ∃ res, backtrack fuel this = Some res.
Proof.
  induction fuel as [|fuel IH]; intros this Hwf Hlt; [lia|].
  cbn [backtrack]. destruct (findBestCell this) as [t|] eqn:Hf; [|eauto].
  apply findBestCell_Some in Hf as (Hr & Hc & He & Ho).
  assert (Hopts : ∀ num, num ∈ options t → num ∉ usedAt this (row t) (col t)).
  { intros num Hin. rewrite Ho in Hin. by apply elem_of_getValidNumbers in Hin as [_ ?]. }
  clear Ho. revert Hopts. generalize (options t). intros opts.
  induction opts as [|num rest IHo]; intros Hopts; cbn [tryOptions]; [eauto|].
  destruct (IH (place this (row t) (col t) num)) as [[[] this1] Hrec].
  - by apply wf_place.
  - rewrite board_place. destruct Hwf as (Hwb & _).
    pose proof (countEmpty_setCell (board this) (row t) (col t) num Hwb Hr Hc He). lia.
  - rewrite Hrec. eauto.
  - rewrite Hrec. apply backtrack_false in Hrec; [|by apply wf_place]. subst this1.
    rewrite unplace_place; try done; [|apply Hopts; set_solver].
    apply IHo. intros. apply Hopts. set_solver.
Qed.

Lemma solveWith_total fuel b :
  wf_board b → 81 < fuel → ∃ res, solveWith fuel b = Some res.
Proof.
  intros Hwf Hfuel. unfold solveWith.
  destruct (backtrack_total fuel (newSolver b)) as [[[] this] Hres].
  - by apply wf_newSolver.
  - pose proof (countEmpty_le (board (newSolver b))). lia.
  - rewrite Hres. eauto.
  - rewrite Hres. eauto.
Qed.

Lemma solve_total b : wf_board b → ∃ res, solve b = Some res.
Proof. intros Hwf. apply solveWith_total; [done|]. unfold lt. by apply Nat.le_refl. Qed.

Lemma consistent_newSolver b : wf_board b → unique b → consistent (newSolver b).
Proof.
  intros Hwf Hu. split; [by apply wf_newSolver|]. rewrite board_newSolver by done.
  split; [done|]. by apply covers_newSolver.
Qed.

Lemma solveWith_sound fuel b b' :
  wf_board b → unique b → solveWith fuel b = Some (Some b') →
  wf_board b' ∧ full b' ∧ extends b b' ∧ unique b'.
Proof.
  intros Hwf Hu Hs. unfold solveWith in Hs.
  destruct (backtrack fuel (newSolver b)) as [[[] this]|] eqn:Hb; try congruence.
  inversion Hs; subst b'.
  apply backtrack_true in Hb as (((Hwb & _) & Hu' & _) & Hfull & Hext);
    [|by apply consistent_newSolver].
  rewrite board_newSolver in Hext by done. done.
Qed.

Lemma solve_sound b b' :
  wf_board b → unique b → solve b = Some (Some b') →
  wf_board b' ∧ full b' ∧ extends b b' ∧ unique b'.
Proof. apply solveWith_sound. Qed.

End Search.

(** * The deductive propagator *)

Section Propagator.

Lemma getCell_simple b i j : getCell (boardWithSourceToSimple b) i j = getValue b i j.
Proof.
  unfold getCell, getValue, boardWithSourceToSimple. rewrite list_lookup_fmap.
  destruct (b !! i) as [r|]; simpl; [|done]. rewrite list_lookup_fmap.
  by destruct (r !! j).
Qed.

Lemma wf_simple b : wf_sboard b → wf_board (boardWithSourceToSimple b).
Proof.
  intros [Hl Hr]. unfold boardWithSourceToSimple. split; [by rewrite length_fmap|].
  apply Forall_fmap. eapply Forall_impl; [exact Hr|]. intros r Hlen. simpl.
  by rewrite length_fmap.
Qed.

Lemma simple_setSourceCell b i j cell :
  boardWithSourceToSimple (setSourceCell b i j cell)
  = setCell (boardWithSourceToSimple b) i j (value cell).
Proof.
  unfold boardWithSourceToSimple, setSourceCell, setCell.
  apply list_fmap_alter. apply Forall_true. intros r. by rewrite list_fmap_insert.
Qed.

Lemma wf_setSourceCell b i j cell : wf_sboard b → wf_sboard (setSourceCell b i j cell).
Proof.
  intros [Hl Hr]. unfold setSourceCell. split; [by rewrite length_alter|].
  apply Forall_alter; [done|]. intros r _ Hlen. by rewrite length_insert.
Qed.

Lemma getSourceCell_wf b i j :
  wf_sboard b → i < 9 → j < 9 → ∃ cell, getSourceCell b i j = Some cell.
Proof.
  intros [Hl Hr] Hi Hj. unfold getSourceCell.
  destruct (lookup_lt_is_Some_2 b i) as [r Hri]; [lia|]. rewrite Hri.
  rewrite Forall_forall in Hr.
  assert (length r = 9) by (apply Hr; by eapply list_elem_of_lookup_2).
  apply lookup_lt_is_Some_2. lia.
Qed.

Lemma getValue_getSourceCell b i j cell :
  getSourceCell b i j = Some cell → getValue b i j = value cell.
Proof.
  unfold getSourceCell, getValue. destruct (b !! i) as [r|]; [|done]. by intros ->.
Qed.

Lemma getSourceCell_set_eq b i j cell :
  wf_sboard b → i < 9 → j < 9 →
  getSourceCell (setSourceCell b i j cell) i j = Some cell.
Proof.
  intros [Hl Hr] Hi Hj. unfold getSourceCell, setSourceCell.
  destruct (lookup_lt_is_Some_2 b i) as [r Hri]; [lia|].
  rewrite list_lookup_alter_eq, Hri. simpl.
  rewrite Forall_forall in Hr.
  assert (length r = 9) by (apply Hr; by eapply list_elem_of_lookup_2).
  by rewrite list_lookup_insert_eq by lia.
Qed.

Lemma getSourceCell_set_ne b i j cell i' j' :
  (i, j) ≠ (i', j') →
  getSourceCell (setSourceCell b i j cell) i' j' = getSourceCell b i' j'.
Proof.
  intros Hne. unfold getSourceCell, setSourceCell.
  destruct (decide (i = i')) as [->|Hi].
  - rewrite list_lookup_alter_eq. destruct (b !! i') as [r|]; simpl; [|done].
    rewrite list_lookup_insert_ne by congruence. done.
  - by rewrite list_lookup_alter_ne.
Qed.

(** Two 9 by 9 boards with the same cells are the same board. *)
Lemma sboard_ext b b' :
  wf_sboard b → wf_sboard b' →
  (∀ i j, i < 9 → j < 9 → getSourceCell b i j = getSourceCell b' i j) → b = b'.
Proof.
  intros [Hl Hr] [Hl' Hr'] Heq. apply list_eq. intros i.
  destruct (decide (i < 9)) as [Hi|Hi].
  - destruct (lookup_lt_is_Some_2 b i) as [r Hri]; [lia|].
    destruct (lookup_lt_is_Some_2 b' i) as [r' Hri']; [lia|].
    rewrite Hri, Hri'. f_equal. apply list_eq. intros j.
    rewrite Forall_forall in Hr, Hr'.
    assert (length r = 9) by (apply Hr; by eapply list_elem_of_lookup_2).
    assert (length r' = 9) by (apply Hr'; by eapply list_elem_of_lookup_2).
    destruct (decide (j < 9)) as [Hj|Hj].
    + specialize (Heq i j Hi Hj). unfold getSourceCell in Heq. by rewrite Hri, Hri' in Heq.
    + rewrite !lookup_ge_None_2 by lia. done.
  - rewrite !lookup_ge_None_2 by lia. done.
Qed.

(** The keys of the 81 cells are pairwise different. *)
Lemma key_inj i j i' j' :
  i < 9 → j < 9 → i' < 9 → j' < 9 → key i j = key i' j' → (i, j) = (i', j').
Proof.
  intros Hi Hj Hi' Hj'.
  assert (Hall : Forall (λ p, Forall (λ q, key p.1 p.2 = key q.1 q.2 → p = q) rowMajor)
                   rowMajor).
  { apply (bool_decide_unpack _). by vm_compute. }
  rewrite Forall_forall in Hall.
  specialize (Hall (i, j) (proj2 (elem_of_rowMajor i j) (conj Hi Hj))).
  rewrite Forall_forall in Hall.
  apply (Hall (i', j') (proj2 (elem_of_rowMajor i' j') (conj Hi' Hj'))).
Qed.

(** ** Pruning steps *)

Lemma pruned_refl s : pruned s s.
Proof. split_and!; try done. intros k C' H. exists C'. done. Qed.

Lemma pruned_trans s1 s2 s3 : pruned s1 s2 → pruned s2 s3 → pruned s1 s3.
Proof.
  intros (Hb & Hs & Hc) (Hb' & Hs' & Hc'). split_and!; try congruence.
  intros k C3 H3. apply Hc' in H3 as (C2 & H2 & ?). apply Hc in H2 as (C1 & H1 & ?).
  exists C1. split; [done|]. set_solver.
Qed.

Lemma pruned_removeCandidate r c num s : pruned s (removeCandidate r c num s).2.
Proof.
  unfold removeCandidate. destruct (candidates s !! key r c) as [C|] eqn:HC;
    [|apply pruned_refl].
  case_bool_decide; [|apply pruned_refl]. simpl. split_and!; try done.
  intros k C' Hk. simpl in Hk. destruct (decide (key r c = k)) as [<-|Hne].
  - rewrite lookup_insert_eq in Hk. inversion Hk; subst C'. exists C. split; [done|].
    set_solver.
  - rewrite lookup_insert_ne in Hk by done. exists C'. done.
Qed.

Lemma removeCandidate_gone r c num s C' :
  candidates (removeCandidate r c num s).2 !! key r c = Some C' → num ∉ C'.
Proof.
  unfold removeCandidate. destruct (candidates s !! key r c) as [C|] eqn:HC; simpl.
  - case_bool_decide; simpl.
    + rewrite lookup_insert_eq. intros [= <-]. set_solver.
    + rewrite HC. intros [= <-]. done.
  - rewrite HC. done.
Qed.

Lemma pruned_markChanged s : pruned s (markChanged s).
Proof. split_and!; try done. intros k C' H. exists C'. done. Qed.

Lemma pruned_pruneCandidate r c num s : pruned s (pruneCandidate r c num s).
Proof.
  unfold pruneCandidate. destruct (getValue (newBoard s) r c); [apply pruned_refl|].
  pose proof (pruned_removeCandidate r c num s) as Hp.
  destruct (removeCandidate r c num s) as [[] s']; simpl in Hp; [|done].
  eapply pruned_trans; [exact Hp|apply pruned_markChanged].
Qed.

Lemma pruned_foldl {A} (f : AutoState → A → AutoState) (l : list A) :
  (∀ s x, pruned s (f s x)) → ∀ s, pruned s (foldl f s l).
Proof.
  intros Hf. induction l as [|x l IH]; intros s; simpl; [apply pruned_refl|].
  eapply pruned_trans; [apply Hf|apply IH].
Qed.

Lemma pruned_removeList v L s : pruned s (removeList v L s).
Proof. apply pruned_foldl. intros s' [r c]. apply pruned_removeCandidate. Qed.

Lemma removeList_gone v L : ∀ s r c C',
  (r, c) ∈ L → candidates (removeList v L s) !! key r c = Some C' → v ∉ C'.
Proof.
  induction L as [|[r0 c0] L IH]; intros s r c C' Hin HC; [by apply elem_of_nil in Hin|].
  unfold removeList in *. cbn [foldl] in HC.
  apply elem_of_cons in Hin as [Heq|Hin]; [|by eapply IH].
  inversion Heq; subst r0 c0.
  destruct (pruned_removeList v L (removeCandidate r c v s).2) as (_ & _ & Hsub).
  apply Hsub in HC as (C & HC & Hincl).
  apply removeCandidate_gone in HC. set_solver.
Qed.

Lemma foldl_bind {A B C} (f : A → C → A) (g : B → list C) (l : list B) : ∀ a,
  foldl f a (l ≫= g) = foldl (λ a x, foldl f a (g x)) a l.
Proof.
  induction l as [|x l IH]; intros a; csimpl; [done|]. by rewrite foldl_app, IH.
Qed.

Lemma updateCell_unfold r c v s :
  updateCell r c v s
  = removeList v (peerCells r c)
      {| solver := addConstraints (setBoardCell (solver s) r c (Some v)) r c v;
         newBoard := setSourceCell (newBoard s) r c (mkCell (Some v) (Some system));
         candidates := delete (key r c) (candidates s);
         hasChanges := true; iterationChanges := true |}.
Proof.
  unfold removeList, peerCells.
  rewrite (foldl_app (λ s '(r', c'), (removeCandidate r' c' v s).2)
             (i ← seq 0 9; [(r, i); (i, c)])).
  rewrite foldl_bind. reflexivity.
Qed.

Lemma squareCells_spec i j r c :
  i < 9 → j < 9 → r < 9 → c < 9 → getSquareIndex i j = getSquareIndex r c →
  (i, j) ∈ squareCells (getSquareIndex r c / 3 * 3) (getSquareIndex r c `mod` 3 * 3).
Proof.
  intros Hi Hj Hr Hc.
  assert (Hall : Forall (λ p, Forall (λ q,
            getSquareIndex p.1 p.2 = getSquareIndex q.1 q.2 →
            p ∈ squareCells (getSquareIndex q.1 q.2 / 3 * 3)
                  (getSquareIndex q.1 q.2 `mod` 3 * 3)) rowMajor) rowMajor).
  { apply (bool_decide_unpack _). by vm_compute. }
  rewrite Forall_forall in Hall.
  specialize (Hall (i, j) (proj2 (elem_of_rowMajor i j) (conj Hi Hj))).
  rewrite Forall_forall in Hall.
  apply (Hall (r, c) (proj2 (elem_of_rowMajor r c) (conj Hr Hc))).
Qed.

Lemma squareCells_range k r c :
  k < 9 → (r, c) ∈ squareCells (k / 3 * 3) (k `mod` 3 * 3) →
  r < 9 ∧ c < 9 ∧ getSquareIndex r c = k.
Proof.
  intros Hk.
  assert (Hall : Forall (λ k, Forall (λ p, p.1 < 9 ∧ p.2 < 9 ∧ getSquareIndex p.1 p.2 = k)
                                (squareCells (k / 3 * 3) (k `mod` 3 * 3))) (seq 0 9)).
  { apply (bool_decide_unpack _). by vm_compute. }
  rewrite Forall_forall in Hall.
  assert (Hin : k ∈ seq 0 9) by (apply elem_of_seq; lia).
  specialize (Hall k Hin). rewrite Forall_forall in Hall. intros Hp.
  apply (Hall (r, c) Hp).
Qed.

Lemma peers_peerCells i j r c :
  i < 9 → j < 9 → r < 9 → c < 9 → peers (i, j) (r, c) → (i, j) ∈ peerCells r c.
Proof.
  intros Hi Hj Hr Hc [Hp|[Hp|Hp]]; simpl in Hp; unfold peerCells; apply elem_of_app.
  - subst i. left. apply list_elem_of_bind. exists j. split; [set_solver|].
    apply elem_of_seq. lia.
  - subst j. left. apply list_elem_of_bind. exists i. split; [set_solver|].
    apply elem_of_seq. lia.
  - right. by apply squareCells_spec.
Qed.

(** ** The invariant of the propagation loop *)

Lemma propInv_pruned g s s' : propInv g s → pruned s s' → propInv g s'.
Proof.
  intros [] (Hb & Hs & Hc). split; rewrite ?Hb, ?Hs; try done.
  intros i j C' x Hi Hj HC' Hx. rewrite Hs.
  apply Hc in HC' as (C & HC & Hsub). apply (inv_cands0 i j C x); try done. set_solver.
Qed.

Lemma usedAt_updated this r c v i j x :
  wf_sets (_rows this) → wf_sets (_cols this) → wf_sets (_squares this) →
  r < 9 → c < 9 →
  x ∈ usedAt (addConstraints (setBoardCell this r c (Some v)) r c v) i j ↔
  x ∈ usedAt this i j ∨ (x = v ∧ peers (i, j) (r, c)).
Proof.
  intros HlR HlC HlS Hr Hc. pose proof (getSquareIndex_lt r c Hr Hc).
  unfold wf_sets, usedAt, peers in *. simpl.
  rewrite !elem_of_union, !setAt_setAdd. rewrite HlR, HlC, HlS. naive_solver.
Qed.

Lemma fills_refl g : fills g g.
Proof. intros i j _ _. by left. Qed.

(** Filling an empty cell from one of its candidates keeps the invariant. *)
Lemma propInv_updateCell g s r c v C :
  propInv g s → r < 9 → c < 9 → getValue (newBoard s) r c = None →
  candidates s !! key r c = Some C → v ∈ C →
  propInv g (updateCell r c v s).
Proof.
  intros [Hwf HlR HlC HlS Hu Hcov Hcs Hf] Hr Hc He HC Hv.
  rewrite updateCell_unfold.
  set (s1 := {| solver := addConstraints (setBoardCell (solver s) r c (Some v)) r c v;
                newBoard := setSourceCell (newBoard s) r c (mkCell (Some v) (Some system));
                candidates := delete (key r c) (candidates s);
                hasChanges := true; iterationChanges := true |}).
  pose proof (pruned_removeList v (peerCells r c) s1) as (Hb & Hs & Hsub).
  pose proof (Hcs r c C v Hr Hc HC Hv) as Hfresh.
  assert (Hwfb : wf_board (boardWithSourceToSimple (newBoard s))) by by apply wf_simple.
  split; rewrite ?Hb, ?Hs; subst s1; cbn [newBoard solver].
  - by apply wf_setSourceCell.
  - by apply wf_sets_setAdd.
  - by apply wf_sets_setAdd.
  - by apply wf_sets_setAdd.
  - rewrite simple_setSourceCell. simpl. apply unique_setCell; try done.
    intros i j Hi Hj Hij.
    by apply (not_used_fresh (solver s) (boardWithSourceToSimple (newBoard s)) r c v).
  - rewrite simple_setSourceCell. cbn [value].
    intros i j x Hi Hj Hx. cbn [addConstraints setBoardCell _rows _cols _squares].
    rewrite !setAt_setAdd. destruct (decide ((r, c) = (i, j))) as [Heq|Hne].
    + inversion Heq; subst i j. rewrite getCell_setCell_eq in Hx by done.
      inversion Hx; subst x. pose proof (getSquareIndex_lt r c Hr Hc).
      unfold wf_sets in *. split_and!; right; split_and!; done || lia.
    + rewrite getCell_setCell_ne in Hx by done.
      destruct (Hcov i j x Hi Hj Hx) as (? & ? & ?). auto.
  - intros i j C' x Hi Hj HC' Hx Hused. rewrite Hs in Hused. cbn [solver] in Hused.
    destruct (Hsub _ _ HC') as (C1 & HC1 & HsubC). cbn [candidates] in HC1.
    apply lookup_delete_Some in HC1 as [Hk HC1].
    apply usedAt_updated in Hused as [Hold|[-> Hp]]; try done.
    + apply (Hcs i j C1 x Hi Hj HC1); [|exact Hold]. by apply HsubC.
    + pose proof (peers_peerCells i j r c Hi Hj Hr Hc Hp) as Hin.
      exact (removeList_gone _ _ _ _ _ _ Hin HC' Hx).
  - intros i j Hi Hj. destruct (decide ((r, c) = (i, j))) as [Heq|Hne].
    + inversion Heq; subst i j. right. rewrite getSourceCell_set_eq by done.
      split; [|by exists v].
      destruct (Hf r c Hr Hc) as [Hsame|(? & _)]; [|done].
      destruct (getSourceCell_wf (newBoard s) r c Hwf Hr Hc) as [cell Hcell].
      rewrite (getValue_getSourceCell _ _ _ _ Hcell) in He.
      rewrite Hcell in Hsame. symmetry in Hsame.
      by rewrite (getValue_getSourceCell _ _ _ _ Hsame).
    + rewrite getSourceCell_set_ne by done. by apply Hf.
Qed.

(** ** The passes of one round *)

Lemma foldl_inv {A S} (P : S → Prop) (f : S → A → S) (l : list A) :
  (∀ s x, x ∈ l → P s → P (f s x)) → ∀ s, P s → P (foldl f s l).
Proof.
  induction l as [|x l IH]; intros Hf s Hs; simpl; [done|].
  apply IH; [intros; apply Hf; set_solver|]. apply Hf; [set_solver|done].
Qed.

Lemma hasCandidate_true s num r c :
  hasCandidate s num (r, c) → 
  getValue (newBoard s) r c = None
  ∧ ∃ C, candidates s !! key r c = Some C ∧ num ∈ C.
Proof.
  unfold hasCandidate. cbn [fst snd]. destruct (getValue (newBoard s) r c); [done|].
  destruct (candidates s !! key r c) as [C|]; [|done].
  intros H%bool_decide_unpack. eauto.
Qed.

Lemma propInv_nakedSingles g s : propInv g s → propInv g (nakedSingles s).
Proof.
  unfold nakedSingles. apply foldl_inv. clear s. intros s [i j] Hin Hinv.
  apply elem_of_rowMajor in Hin as [Hi Hj].
  destruct (getValue (newBoard s) i j) eqn:He; [done|].
  destruct (candidates s !! key i j) as [C|] eqn:HC; [|done].
  case_bool_decide; [|done].
  destruct (elements C !! 0) as [v|] eqn:Hv; [|done].
  apply (propInv_updateCell g s i j v C); try done.
  apply elem_of_elements. by eapply list_elem_of_lookup_2.
Qed.

Lemma propInv_hiddenRows g s : propInv g s → propInv g (hiddenRows s).
Proof.
  unfold hiddenRows. apply foldl_inv. clear s. intros s r Hr%elem_of_seq.
  apply foldl_inv. clear s. intros s num _ Hinv.
  case_bool_decide; [done|]. cbv zeta.
  destruct (length _ =? 1); [|done].
  destruct (filter _ _ !! 0) as [c|] eqn:Hc; [|done].
  apply list_elem_of_lookup_2, list_elem_of_filter in Hc as [Hhas Hc%elem_of_seq].
  apply hasCandidate_true in Hhas as (He & C & HC & Hnum).
  apply (propInv_updateCell g s r c num C); try done; lia.
Qed.

Lemma propInv_hiddenCols g s : propInv g s → propInv g (hiddenCols s).
Proof.
  unfold hiddenCols. apply foldl_inv. clear s. intros s c Hc%elem_of_seq.
  apply foldl_inv. clear s. intros s num _ Hinv.
  case_bool_decide; [done|]. cbv zeta.
  destruct (length _ =? 1); [|done].
  destruct (filter _ _ !! 0) as [r|] eqn:Hr; [|done].
  apply list_elem_of_lookup_2, list_elem_of_filter in Hr as [Hhas Hr%elem_of_seq].
  apply hasCandidate_true in Hhas as (He & C & HC & Hnum).
  apply (propInv_updateCell g s r c num C); try done; lia.
Qed.

Lemma propInv_hiddenSquares g s : propInv g s → propInv g (hiddenSquares s).
Proof.
  unfold hiddenSquares. apply foldl_inv. clear s. intros s k Hk%elem_of_seq.
  cbv zeta. apply foldl_inv. clear s. intros s num _ Hinv.
  case_bool_decide; [done|].
  destruct (length _ =? 1); [|done].
  destruct (filter _ _ !! 0) as [[r c]|] eqn:Hrc; [|done].
  apply list_elem_of_lookup_2, list_elem_of_filter in Hrc as [Hhas Hrc].
  apply squareCells_range in Hrc as (Hr & Hc & _); [|lia].
  apply hasCandidate_true in Hhas as (He & C & HC & Hnum).
  by apply (propInv_updateCell g s r c num C).
Qed.

Lemma pruned_reduceRow k num s : pruned s (reduceRow k num s).
Proof.
  unfold reduceRow. cbv zeta. case_bool_decide; [|apply pruned_refl].
  destruct (elements _ !! 0) as [targetRow|]; [|apply pruned_refl].
  apply pruned_foldl. intros s' c.
  destruct (_ && _); [apply pruned_refl|apply pruned_pruneCandidate].
Qed.

Lemma pruned_reduceCol k num s : pruned s (reduceCol k num s).
Proof.
  unfold reduceCol. cbv zeta. case_bool_decide; [|apply pruned_refl].
  destruct (elements _ !! 0) as [targetCol|]; [|apply pruned_refl].
  apply pruned_foldl. intros s' r.
  destruct (_ && _); [apply pruned_refl|apply pruned_pruneCandidate].
Qed.

Lemma pruned_boxLineReduction s : pruned s (boxLineReduction s).
Proof.
  unfold boxLineReduction. apply pruned_foldl. clear s. intros s k.
  apply pruned_foldl. clear s. intros s num.
  case_bool_decide; [apply pruned_refl|].
  eapply pruned_trans; [apply pruned_reduceRow|apply pruned_reduceCol].
Qed.

Lemma propInv_round g s : propInv g s → propInv g (round s).
Proof.
  intros Hinv. unfold round. eapply propInv_pruned; [|apply pruned_boxLineReduction].
  by apply propInv_hiddenSquares, propInv_hiddenCols, propInv_hiddenRows,
    propInv_nakedSingles.
Qed.

Lemma propInv_mainLoop g n : ∀ s, propInv g s → propInv g (mainLoop n s).2.
Proof.
  induction n as [|n IH]; intros s Hinv; cbn [mainLoop]; [done|].
  destruct (iterationChanges s); [|done].
  apply IH. unfold iteration. apply propInv_round.
  eapply propInv_pruned; [exact Hinv|].
  split_and!; try done. intros k C' H. exists C'. done.
Qed.

(** ** The whole of [autoSolveCells] *)

Lemma initializeCandidates_lookup this b k C :
  initializeCandidates this b !! k = Some C →
  ∃ i j, i < 9 ∧ j < 9 ∧ k = key i j ∧ C = list_to_set (getValidNumbers this i j).
Proof.
  unfold initializeCandidates.
  apply (foldl_inv (λ m : gmap string (gset string), m !! k = Some C →
           ∃ i j, i < 9 ∧ j < 9 ∧ k = key i j
                  ∧ C = list_to_set (getValidNumbers this i j))).
  - intros m [i j] Hin Hm. apply elem_of_rowMajor in Hin as [Hi Hj].
    destruct (getValue b i j); [done|].
    destruct (decide (key i j = k)) as [<-|Hne].
    + rewrite lookup_insert_eq. intros [= <-]. exists i, j. done.
    + by rewrite lookup_insert_ne.
  - by rewrite lookup_empty.
Qed.

Lemma solver_initialState b :
  solver (initialState b) = newSolver (boardWithSourceToSimple b).
Proof. reflexivity. Qed.

Lemma newBoard_initialState b : newBoard (initialState b) = b.
Proof. reflexivity. Qed.

Lemma candidates_initialState b :
  candidates (initialState b)
  = initializeCandidates (newSolver (boardWithSourceToSimple b)) b.
Proof. reflexivity. Qed.

Lemma propInv_initialState b :
  wf_sboard b → isValidBoard (boardWithSourceToSimple b) = true →
  propInv b (initialState b).
Proof.
  intros Hwf Hvalid. pose proof (wf_simple b Hwf) as Hwfs.
  destruct (wf_newSolver _ Hwfs) as (_ & HlR & HlC & HlS).
  split; rewrite ?solver_initialState, ?newBoard_initialState.
  - exact Hwf.
  - exact HlR.
  - exact HlC.
  - exact HlS.
  - apply isValidBoard_true. exact Hvalid.
  - apply covers_newSolver. exact Hwfs.
  - intros i j C x Hi Hj HC Hx.
    rewrite solver_initialState. rewrite candidates_initialState in HC.
    apply initializeCandidates_lookup in HC as (i' & j' & Hi' & Hj' & Hk & ->).
    apply (key_inj i j i' j' Hi Hj Hi' Hj') in Hk. inversion Hk; subst i' j'.
    apply elem_of_list_to_set, elem_of_getValidNumbers in Hx as [_ Hx]. exact Hx.
  - apply fills_refl.
Qed.

(** [autoSolveCells] returns its argument or the board of a state that
    satisfies the invariant. *)
Lemma autoSolveCells_cases b :
  wf_sboard b →
  autoSolveCells b = b
  ∨ ∃ s, isValidBoard (boardWithSourceToSimple b) = true ∧ propInv b s
         ∧ autoSolveCells b = newBoard s.
Proof.
  intros Hwf. unfold autoSolveCells.
  destruct (isValidBoard (boardWithSourceToSimple b)) eqn:Hvalid; cbn [negb];
    [|left; reflexivity].
  generalize (propInv_mainLoop b maxIterations0 (initialState b)
                (propInv_initialState b Hwf Hvalid)).
  generalize (mainLoop maxIterations0 (initialState b)).2. intros s Hinv.
  destruct (hasChanges s); [|left; reflexivity].
  right. exists s. split; [reflexivity|]. split; [exact Hinv|reflexivity].
Qed.

Lemma fills_autoSolveCells b : wf_sboard b → fills b (autoSolveCells b).
Proof.
  intros Hwf. destruct (autoSolveCells_cases b Hwf) as [->|(s & _ & Hinv & ->)].
  - apply fills_refl.
  - by destruct Hinv.
Qed.

Lemma wf_autoSolveCells b : wf_sboard b → wf_sboard (autoSolveCells b).
Proof.
  intros Hwf. destruct (autoSolveCells_cases b Hwf) as [->|(s & _ & Hinv & ->)].
  - done.
  - by destruct Hinv.
Qed.

Lemma unique_autoSolveCells b :
  wf_sboard b → unique (boardWithSourceToSimple b) →
  unique (boardWithSourceToSimple (autoSolveCells b)).
Proof.
  intros Hwf Hu. destruct (autoSolveCells_cases b Hwf) as [->|(s & _ & Hinv & ->)].
  - done.
  - by destruct Hinv.
Qed.

(** A board without empty cell is a fixed point. *)
Lemma autoSolveCells_full b :
  wf_sboard b → full (boardWithSourceToSimple b) → autoSolveCells b = b.
Proof.
  intros Hwf Hfull. apply sboard_ext; [by apply wf_autoSolveCells|done|].
  intros i j Hi Hj. destruct (fills_autoSolveCells b Hwf i j Hi Hj) as [?|[He _]]; [done|].
  destruct (Hfull i j Hi Hj). by rewrite getCell_simple.
Qed.

End Propagator.

(** * Visiting order *)

Section Order.

Lemma rowMajor_sorted : StronglySorted before rowMajor.
Proof. apply (bool_decide_unpack _). by vm_compute. Qed.

Lemma before_irrefl p : ¬ before p p.
Proof. unfold before. lia. Qed.

Lemma before_asym p q : before p q → ¬ before q p.
Proof. unfold before. lia. Qed.

(** The cells before and after a cell of [rowMajor] are the cells visited
    before and after it. *)
Lemma rowMajor_split l1 p l2 :
  rowMajor = l1 ++ p :: l2 →
  (∀ q, q.1 < 9 → q.2 < 9 → before q p → q ∈ l1)
  ∧ (∀ q, q.1 < 9 → q.2 < 9 → before p q → q ∈ l2).
Proof.
  intros Hsplit. pose proof rowMajor_sorted as Hs. rewrite Hsplit in Hs.
  apply StronglySorted_app in Hs as (H12 & _ & H2).
  apply StronglySorted_cons in H2 as [Hp2 _]. rewrite Forall_forall in Hp2.
  assert (Hall : ∀ q, q.1 < 9 → q.2 < 9 → q ∈ l1 ∨ q = p ∨ q ∈ l2).
  { intros [i j] Hi Hj. assert (Hin : (i, j) ∈ rowMajor) by by apply elem_of_rowMajor.
    rewrite Hsplit in Hin. set_solver. }
  split; intros q Hi Hj Hb; destruct (Hall q Hi Hj) as [Hq|[->|Hq]]; try done.
  - by apply before_irrefl in Hb.
  - apply before_asym in Hb. destruct Hb. by apply Hp2.
  - apply before_asym in Hb. destruct Hb. apply (H12 q p); [done|]. set_solver.
  - by apply before_irrefl in Hb.
Qed.

(** The guarantee of [findBestCell] in terms of the visiting order. *)
Lemma findBestCell_order this t :
  findBestCell this = Some t →
  row t < 9 ∧ col t < 9
  ∧ emptyAt this (row t, col t)
  ∧ options t = getValidNumbers this (row t) (col t)
  ∧ (∀ i j, i < 9 → j < 9 → before (i, j) (row t, col t) → emptyAt this (i, j) →
       length (options t) < nOptions this (i, j))
  ∧ (length (options t) = 1
     ∨ ((∀ i j, i < 9 → j < 9 → before (i, j) (row t, col t) → emptyAt this (i, j) →
           2 ≤ nOptions this (i, j))
        ∧ (∀ i j, i < 9 → j < 9 → emptyAt this (i, j) →
             length (options t) ≤ nOptions this (i, j)))).
Proof.
  intros Hf. destruct (findBestCell_Some this t Hf) as (Hr & Hc & _).
  pose proof (findBestCell_spec this) as Hs. rewrite Hf in Hs.
  destruct Hs as (l1 & l2 & HL & He & Ho & H1 & H2).
  destruct (rowMajor_split l1 (row t, col t) l2 HL) as [Hbefore Hafter].
  split_and!; try done.
  - intros i j Hi Hj Hb Hempty. apply H1; [|done]. by apply Hbefore.
  - destruct H2 as [?|[H2 H3]]; [by left|right]. split.
    + intros i j Hi Hj Hb Hempty. apply H2; [|done]. by apply Hbefore.
    + intros i j Hi Hj Hempty.
      destruct (decide (before (i, j) (row t, col t))) as [Hb|Hnb].
      * apply Nat.lt_le_incl, H1; [|done]. by apply Hbefore.
      * destruct (decide ((i, j) = (row t, col t))) as [Heq|Hne].
        -- inversion Heq; subst i j. unfold nOptions. cbn [fst snd]. by rewrite Ho.
        -- apply H3; [|done]. apply Hafter; [done..|].
           unfold before in *. cbn [fst snd] in *.
           assert (i ≠ row t ∨ j ≠ col t)
             by (destruct (decide (i = row t)); [right|left]; congruence).
           lia.
Qed.

End Order.

(** * applySolutionToBoard *)

Section ApplySolution.

Lemma getSourceCell_applySolution original solution i j :
  getSourceCell (applySolutionToBoard original solution) i j
  = (λ cell, match value cell, getCell solution i j with
             | None, Some v => mkCell (Some v) (Some system)
             | _, _ => cell
             end) <$> getSourceCell original i j.
Proof.
  unfold getSourceCell, applySolutionToBoard. rewrite list_lookup_imap.
  destruct (original !! i) as [r|]; simpl; [|done]. by rewrite list_lookup_imap.
Qed.

End ApplySolution.

(** * The round budget *)

Section Budget.

(** The loop runs some number [k] of iterations, never more than its
    budget, and decrements the budget once per iteration. *)
Lemma mainLoop_rounds n : ∀ s,
  ∃ k, k ≤ n ∧ mainLoop n s = (n - k, Nat.iter k iteration s).
Proof.
  induction n as [|n IH]; intros s; cbn [mainLoop].
  - exists 0. split; [lia|reflexivity].
  - destruct (iterationChanges s).
    + destruct (IH (iteration s)) as (k & Hk & Heq). exists (S k).
      split; [lia|]. rewrite Heq, Nat.iter_succ_r. reflexivity.
    + exists 0. split; [lia|]. reflexivity.
Qed.

End Budget.

(** * Checks by evaluation *)

Section Checks.

Lemma wf_board_check (b : SudokuBoard) :
  bool_decide (length b = 9 ∧ Forall (λ r, length r = 9) b) = true → wf_board b.
Proof. intros H. by apply bool_decide_eq_true in H. Defined.

Lemma wf_sboard_check (b : SudokuBoardWithSource) :
  bool_decide (length b = 9 ∧ Forall (λ r, length r = 9) b) = true → wf_sboard b.
Proof. intros H. by apply bool_decide_eq_true in H. Defined.

Lemma full_check (b : SudokuBoard) :
  forallb (λ p, match getCell b p.1 p.2 with Some _ => true | None => false end) rowMajor
  = true →
  full b.
Proof.
  intros H i j Hi Hj. rewrite forallb_forall in H.
  specialize (H (i, j)). cbn [fst snd] in H.
  destruct (getCell b i j); [done|].
  assert (false = true); [|done]. apply H. apply list_elem_of_In. by apply elem_of_rowMajor.
Qed.

End Checks.

(** * The claims *)

Section Claims.

(** C1. Soundness of [solve]: when [solve] returns a grid [g'] for a
    9 by 9 grid [g] that satisfies the uniqueness invariant, [g'] has no
    empty cell, every filled cell of [g] holds the same symbol in [g'], and
    no row, column or block of [g'] contains a duplicate symbol.  (That
    [solve] always returns, a grid or [null], is [solve_total].) *)
Theorem C1_solve_sound (g g' : SudokuBoard) :
  wf_board g → unique g → solve g = Some (Some g') →
  full g' ∧ extends g g' ∧ unique g'.
Proof.
  intros Hwf Hu Hs. destruct (solve_sound g g' Hwf Hu Hs) as (_ & ? & ? & ?). done.
Qed.

Lemma C1_witness : full solvedBoard ∧ extends puzzleBoard solvedBoard ∧ unique solvedBoard.
Proof.
  apply (C1_solve_sound puzzleBoard solvedBoard).
  - apply wf_board_check. vm_compute. reflexivity.
  - apply isValidBoard_true. vm_compute. reflexivity.
  - vm_compute. reflexivity.
Defined.

(** C2. Invariant preservation: for a 9 by 9 grid that satisfies the
    uniqueness invariant, the grid returned by [autoSolveCells] satisfies
    it, and so does every grid returned by [solve]. *)
Theorem C2_invariant_preserved (b : SudokuBoardWithSource) (g g' : SudokuBoard) :
  wf_sboard b → unique (boardWithSourceToSimple b) →
  wf_board g → unique g →
  unique (boardWithSourceToSimple (autoSolveCells b))
  ∧ (solve g = Some (Some g') → unique g').
Proof.
  intros Hwfb Hub Hwfg Hug. split; [by apply unique_autoSolveCells|].
  intros Hs. by destruct (solve_sound g g' Hwfg Hug Hs) as (_ & _ & _ & ?).
Qed.

Lemma C2_witness :
  unique (boardWithSourceToSimple (autoSolveCells (fromUser puzzleBoard)))
  ∧ unique solvedBoard.
Proof.
  destruct (C2_invariant_preserved (fromUser puzzleBoard) puzzleBoard solvedBoard)
    as [Hprop Hsolve].
  - apply wf_sboard_check. vm_compute. reflexivity.
  - apply isValidBoard_true. vm_compute. reflexivity.
  - apply wf_board_check. vm_compute. reflexivity.
  - apply isValidBoard_true. vm_compute. reflexivity.
  - split; [exact Hprop|]. apply Hsolve. vm_compute. reflexivity.
Defined.

(** C3, as stated, fails: [stallBoard] satisfies the uniqueness invariant.
    In the first call of [autoSolveCells], box/line reduction leaves cell
    (0,3) the candidates ["7"] and ["9"]; in the next round the cell is
    visited with these two candidates, then (1,3) is filled with ["9"] and
    (2,3) with ["7"], which removes both, and (0,3) stays empty with no
    candidate.  The second call recomputes the candidates of (0,3) from the
    constraint sets, finds ["3"] placeable nowhere else in its block, and
    fills the cell. *)
Lemma C3_counterexample :
  wf_board stallBoard ∧ unique stallBoard
  ∧ getValue (autoSolveCells (fromUser stallBoard)) 0 3 = None
  ∧ getValue (autoSolveCells (autoSolveCells (fromUser stallBoard))) 0 3 = Some "3"
  ∧ autoSolveCells (autoSolveCells (fromUser stallBoard))
    ≠ autoSolveCells (fromUser stallBoard).
Proof.
  split_and!.
  - apply wf_board_check. vm_compute. reflexivity.
  - apply isValidBoard_true. vm_compute. reflexivity.
  - vm_compute. reflexivity.
  - vm_compute. reflexivity.
  - apply (bool_decide_eq_false_1 _). vm_compute. reflexivity.
Qed.

(** The amended statement of C3 needs the lemmas on fixed points of the
    loop; it is proved after them, in the section on the second call. *)

(** C4, as stated, fails: the budget of the loop is the constant 10, and
    the empty grid has 81 empty cells. *)
Lemma C4_counterexample :
  wf_board emptyBoard ∧ ¬ (countEmpty emptyBoard ≤ maxIterations0).
Proof.
  split.
  - apply wf_board_check. vm_compute. reflexivity.
  - assert (H : countEmpty emptyBoard = 81) by (vm_compute; reflexivity).
    rewrite H. unfold maxIterations0. lia.
Qed.

(** C4, amended. Whatever the grid, the loop of [autoSolveCells] starts
    from the budget 10 and its result is the state after [k] iterations for
    some [k] that is at most 10; the budget left is [10 - k]. *)
Theorem C4_round_budget (b : SudokuBoardWithSource) :
  maxIterations0 = 10
  ∧ ∃ k, k ≤ 10
      ∧ mainLoop maxIterations0 (initialState b)
        = (10 - k, Nat.iter k iteration (initialState b)).
Proof. split; [reflexivity|]. apply (mainLoop_rounds 10). Qed.

(** C5. Validity gate: on a 9 by 9 grid, [isValidBoard] returns [false]
    exactly when some row, some column or some block holds the same symbol
    in two of its filled cells.  The function only reads the grid: its
    embedding takes the board and returns a boolean. *)
Theorem C5_isValidBoard_correct (b : SudokuBoard) :
  wf_board b → (isValidBoard b = false ↔ hasDuplicate b).
Proof. intros _. apply isValidBoard_false. Qed.

Lemma C5_witness : isValidBoard duplicateBoard = false ↔ hasDuplicate duplicateBoard.
Proof.
  apply (C5_isValidBoard_correct duplicateBoard).
  apply wf_board_check. vm_compute. reflexivity.
Defined.

(** C6. Monotonic fill: [autoSolveCells] leaves every filled cell of a
    9 by 9 grid as it is, value and tag; a cell tagged [system] keeps that
    tag and, when it holds a symbol, the symbol; and a cell that changed was
    empty and now holds a symbol tagged [system]. *)
Theorem C6_monotonic_fill (g : SudokuBoardWithSource) (i j : nat) (cell : SudokuCell) :
  wf_sboard g → i < 9 → j < 9 → getSourceCell g i j = Some cell →
  (value cell ≠ None → getSourceCell (autoSolveCells g) i j = Some cell)
  ∧ (source cell = Some system →
       (∃ cell', getSourceCell (autoSolveCells g) i j = Some cell'
                 ∧ source cell' = Some system)
       ∧ ∀ v, value cell = Some v → getValue (autoSolveCells g) i j = Some v)
  ∧ (getSourceCell (autoSolveCells g) i j ≠ Some cell →
       value cell = None
       ∧ ∃ v, getSourceCell (autoSolveCells g) i j = Some (mkCell (Some v) (Some system))).
Proof.
  intros Hwf Hi Hj Hcell.
  pose proof (getValue_getSourceCell g i j cell Hcell) as Hval.
  destruct (fills_autoSolveCells g Hwf i j Hi Hj) as [Hsame|[He [v0 Hfill]]].
  - rewrite Hcell in Hsame. split_and!; try done.
    intros Hsys. split; [by exists cell|].
    intros v Hv. rewrite (getValue_getSourceCell _ _ _ _ Hsame). done.
  - rewrite Hval in He. split_and!.
    + done.
    + intros _. split; [by eexists|]. intros v Hv. congruence.
    + intros _. split; [done|]. by exists v0.
Qed.

Lemma C6_witness :
  getSourceCell (autoSolveCells (fromUser puzzleBoard)) 0 1 = Some (mkCell (Some "2") (Some user)).
Proof.
  apply (C6_monotonic_fill (fromUser puzzleBoard) 0 1 (mkCell (Some "2") (Some user))).
  - apply wf_sboard_check. vm_compute. reflexivity.
  - lia.
  - lia.
  - vm_compute. reflexivity.
  - simpl. discriminate.
Defined.

(** C7. On a 9 by 9 grid that [isValidBoard] rejects, [autoSolveCells]
    returns the grid it was given: same values, same tags. *)
Theorem C7_invalid_unchanged (b : SudokuBoardWithSource) :
  wf_sboard b → isValidBoard (boardWithSourceToSimple b) = false → autoSolveCells b = b.
Proof. intros _ H. unfold autoSolveCells. rewrite H. reflexivity. Qed.

Lemma C7_witness : autoSolveCells (fromUser duplicateBoard) = fromUser duplicateBoard.
Proof.
  apply (C7_invalid_unchanged (fromUser duplicateBoard)).
  - apply wf_sboard_check. vm_compute. reflexivity.
  - vm_compute. reflexivity.
Defined.

(** C8, as stated, fails: on [singleThenDeadBoard] the first empty cell,
    (0,0), has one candidate and is returned at once, although cell (4,4)
    is empty and has no candidate, so the chosen cell does not have the
    fewest. *)
Lemma C8_counterexample :
  unique singleThenDeadBoard
  ∧ ∃ t, findBestCell (newSolver singleThenDeadBoard) = Some t
      ∧ emptyAt (newSolver singleThenDeadBoard) (4, 4)
      ∧ nOptions (newSolver singleThenDeadBoard) (4, 4) < length (options t).
Proof.
  split.
  - apply isValidBoard_true. vm_compute. reflexivity.
  - exists (mkBest 0 0 ["9"]). split_and!.
    + vm_compute. reflexivity.
    + vm_compute. reflexivity.
    + vm_compute. lia.
Qed.

(** C8, amended. [findBestCell] returns [null] only when no cell is empty.
    The cell it returns otherwise is empty, comes with its valid numbers,
    and has strictly fewer of them than every empty cell visited before it
    (lower row, or same row and lower column).  Either it has exactly one
    candidate, and then it is returned at once, whatever the cells after it
    hold; or no empty cell before it has fewer than two candidates and it
    has the fewest candidates of all empty cells. *)
Theorem C8_findBestCell_choice (this : SudokuSolver) :
  match findBestCell this with
  | None => full (board this)
  | Some t =>
      row t < 9 ∧ col t < 9
      ∧ emptyAt this (row t, col t)
      ∧ options t = getValidNumbers this (row t) (col t)
      ∧ (∀ i j, i < 9 → j < 9 → before (i, j) (row t, col t) → emptyAt this (i, j) →
           length (options t) < nOptions this (i, j))
      ∧ (length (options t) = 1
         ∨ ((∀ i j, i < 9 → j < 9 → before (i, j) (row t, col t) →
               emptyAt this (i, j) → 2 ≤ nOptions this (i, j))
            ∧ (∀ i j, i < 9 → j < 9 → emptyAt this (i, j) →
                 length (options t) ≤ nOptions this (i, j))))
  end.
Proof.
  destruct (findBestCell this) as [t|] eqn:Hf.
  - by apply findBestCell_order.
  - by apply findBestCell_None.
Qed.

(** C9. [solve] does not check its input: on [duplicateBoard], whose row 0
    holds ["2"] twice, it returns a grid without empty cell that still has
    the two ["2"] in row 0.  The set that [initializeConstraints] builds
    for row 0 has eight members for the nine filled cells of the row. *)
Theorem C9_solve_accepts_duplicates :
  wf_board duplicateBoard
  ∧ rowDuplicate duplicateBoard
  ∧ size (setAt (_rows (newSolver duplicateBoard)) 0) = 8
  ∧ ∃ g', solve duplicateBoard = Some (Some g')
      ∧ full g' ∧ extends duplicateBoard g' ∧ rowDuplicate g'
      ∧ getCell g' 0 0 = Some "2" ∧ getCell g' 0 1 = Some "2".
Proof.
  split; [apply wf_board_check; vm_compute; reflexivity|]. split; [|split].
  - exists 0, 0, 1, "2". split_and!; try lia; vm_compute; reflexivity.
  - vm_compute. reflexivity.
  - exists duplicateSolved. split_and!.
    + vm_compute. reflexivity.
    + apply full_check. vm_compute. reflexivity.
    + intros i j s Hi Hj Hc.
      destruct (decide ((i, j) = (8, 8))) as [Heq|Hne].
      * inversion Heq; subst. vm_compute in Hc. discriminate.
      * assert (Hall : Forall (λ p, p ≠ (8, 8) →
                  getCell duplicateBoard p.1 p.2 = getCell duplicateSolved p.1 p.2) rowMajor).
        { apply (bool_decide_unpack _). vm_compute. reflexivity. }
        rewrite Forall_forall in Hall.
        assert (Hin : (i, j) ∈ rowMajor) by by apply elem_of_rowMajor.
        specialize (Hall (i, j) Hin Hne). cbn [fst snd] in Hall. congruence.
    + exists 0, 0, 1, "2". split_and!; try lia; vm_compute; reflexivity.
    + vm_compute. reflexivity.
    + vm_compute. reflexivity.
Qed.

(** C10. [applySolutionToBoard] on 9 by 9 boards: a cell that is not empty
    in the original board comes out unchanged, value and tag; a cell that is
    empty in the original and filled in the solution comes out with the
    symbol of the solution and the tag [system]. *)
Theorem C10_applySolution_frame (original : SudokuBoardWithSource)
    (solution : SudokuBoard) (i j : nat) (cell : SudokuCell) :
  wf_sboard original → wf_board solution → i < 9 → j < 9 →
  getSourceCell original i j = Some cell →
  (value cell ≠ None →
     getSourceCell (applySolutionToBoard original solution) i j = Some cell)
  ∧ (∀ v, value cell = None → getCell solution i j = Some v →
       getSourceCell (applySolutionToBoard original solution) i j
       = Some (mkCell (Some v) (Some system)))
  ∧ (getSourceCell (applySolutionToBoard original solution) i j ≠ Some cell →
       value cell = None
       ∧ ∃ v, getCell solution i j = Some v
            ∧ getSourceCell (applySolutionToBoard original solution) i j
              = Some (mkCell (Some v) (Some system))).
Proof.
  intros _ _ _ _ Hcell. rewrite getSourceCell_applySolution, Hcell.
  cbn [fmap option_fmap option_map].
  destruct (value cell) as [x|] eqn:Hv; destruct (getCell solution i j) as [v|] eqn:Hs;
    split_and!; try done.
  - intros v' _ [= <-]. done.
  - intros _. split; [done|]. by exists v.
Qed.

Lemma C10_witness :
  getSourceCell (applySolutionToBoard (fromUser puzzleBoard) solvedBoard) 0 0
  = Some (mkCell (Some "1") (Some system)).
Proof.
  apply (C10_applySolution_frame (fromUser puzzleBoard) solvedBoard 0 0 (mkCell None None)).
  - apply wf_sboard_check. vm_compute. reflexivity.
  - apply wf_board_check. vm_compute. reflexivity.
  - lia.
  - lia.
  - vm_compute. reflexivity.
  - reflexivity.
  - vm_compute. reflexivity.
Defined.

End Claims.

(** * Further properties of the constraint tracker and of the search *)

Section TrackerMore.

Lemma recorded_fold cells : ∀ this,
  (∀ p, p ∈ cells → p.1 < 9 ∧ p.2 < 9) →
  recorded this (board this) →
  recorded
    (foldl (λ this '(i, j),
              match getCell (board this) i j with
              | Some num => addConstraints this i j num
              | None => this
              end) this cells)
    (board this).
Proof.
  induction cells as [|[i j] rest IH]; intros this Hrng Hrec; [done|].
  cbn [foldl]. destruct (Hrng (i, j)) as [Hi Hj]; [set_solver|]. cbn [fst snd] in *.
  assert (Hrest : ∀ p, p ∈ rest → p.1 < 9 ∧ p.2 < 9) by (intros; apply Hrng; set_solver).
  destruct (getCell (board this) i j) as [num|] eqn:Hc; [|by apply IH].
  apply (IH (addConstraints this i j num)); [done|].
  cbn [board addConstraints]. destruct Hrec as (HR & HC & HS).
  split_and!; cbn [_rows _cols _squares addConstraints].
  - intros i' s. rewrite setAt_setAdd. intros [H|(<- & _ & ->)]; [by apply HR|].
    exists j. done.
  - intros j' s. rewrite setAt_setAdd. intros [H|(<- & _ & ->)]; [by apply HC|].
    exists i. done.
  - intros k s. rewrite setAt_setAdd. intros [H|(<- & _ & ->)]; [by apply HS|].
    exists i, j. done.
Qed.

Lemma recorded_newSolver b : wf_board b → recorded (newSolver b) b.
Proof.
  intros Hwf. unfold newSolver, initializeConstraints.
  apply (recorded_fold rowMajor (mkSolver b _ _ _)).
  - intros [i j] Hin. by apply elem_of_rowMajor.
  - split_and!; cbn [_rows _cols _squares]; intros k s; rewrite setAt_replicate;
      set_solver.
Qed.

(** The valid numbers at a cell, read on the board the sets describe. *)
Lemma getValidNumbers_spec this b r c num :
  covers this b → recorded this b → r < 9 → c < 9 →
  num ∈ getValidNumbers this r c ↔
  num ∈ digits
  ∧ ∀ i j, i < 9 → j < 9 → getCell b i j = Some num →
      i ≠ r ∧ j ≠ c ∧ getSquareIndex i j ≠ getSquareIndex r c.
Proof.
  intros Hcov (HR & HC & HS) Hr Hc. rewrite elem_of_getValidNumbers. split.
  - intros [Hd Hn]. split; [done|]. intros i j Hi Hj Hij.
    by apply (not_used_fresh this b r c num).
  - intros [Hd Hfree]. split; [done|]. unfold usedAt. rewrite !elem_of_union.
    intros [[H|H]|H].
    + apply HR in H as (j & _ & Hj & Hcell). destruct (Hfree r j Hr Hj Hcell) as (? & _). done.
    + apply HC in H as (i & Hi & _ & Hcell). destruct (Hfree i c Hi Hc Hcell) as (_ & ? & _). done.
    + apply HS in H as (i & j & Hi & Hj & Hk & Hcell).
      destruct (Hfree i j Hi Hj Hcell) as (_ & _ & ?). done.
Qed.

Lemma recorded_place this r c num :
  wf_solver this → r < 9 → c < 9 → getCell (board this) r c = None →
  recorded this (board this) → recorded (place this r c num) (board (place this r c num)).
Proof.
  intros (Hwb & _) Hr Hc He (HR & HC & HS). rewrite board_place.
  assert (Hkeep : ∀ i j s, getCell (board this) i j = Some s →
            getCell (setCell (board this) r c (Some num)) i j = Some s).
  { intros i j s Hs. rewrite getCell_setCell_ne; [done|]. congruence. }
  assert (Hnew : getCell (setCell (board this) r c (Some num)) r c = Some num)
    by by apply getCell_setCell_eq.
  unfold place. split_and!; cbn [_rows _cols _squares addConstraints].
  - intros i s. rewrite setAt_setAdd. intros [H|(<- & _ & ->)].
    + apply HR in H as (j & ? & ? & ?). exists j. auto.
    + exists c. done.
  - intros j s. rewrite setAt_setAdd. intros [H|(<- & _ & ->)].
    + apply HC in H as (i & ? & ? & ?). exists i. auto.
    + exists r. done.
  - intros k s. rewrite setAt_setAdd. intros [H|(<- & _ & ->)].
    + apply HS in H as (i & j & ? & ? & ? & ?). exists i, j. auto.
    + exists r, c. done.
Qed.

Lemma findBestCell_full this : full (board this) → findBestCell this = None.
Proof.
  intros Hfull. destruct (findBestCell this) as [t|] eqn:Hf; [|done].
  apply findBestCell_Some in Hf as (Hr & Hc & He & _). by destruct (Hfull _ _ Hr Hc).
Qed.

Lemma solveWith_full fuel b :
  wf_board b → full b → solveWith (S fuel) b = Some (Some b).
Proof.
  intros Hwf Hfull. unfold solveWith. cbn [backtrack].
  rewrite findBestCell_full; rewrite board_newSolver; done.
Qed.

(** The value a completion has at an empty cell is one of the valid
    numbers of that cell. *)
Lemma solution_valid this sol r c x :
  recorded this (board this) → solutionOf (board this) sol →
  r < 9 → c < 9 → getCell (board this) r c = None → getCell sol r c = Some x →
  x ∈ getValidNumbers this r c.
Proof.
  intros (HR & HC & HS) (Hwf & Hfull & Hu & Hext & Hdig) Hr Hc He Hx.
  rewrite unique_alt in Hu.
  apply elem_of_getValidNumbers. split; [by apply (Hdig r c)|].
  assert (Hpeer : ∀ i j, i < 9 → j < 9 → getCell (board this) i j = Some x →
            i ≠ r ∧ j ≠ c ∧ getSquareIndex i j ≠ getSquareIndex r c).
  { intros i j Hi Hj Hij. apply (Hu i j r c x); try done; [|by apply Hext].
    intros Heq. inversion Heq; subst. congruence. }
  unfold usedAt. rewrite !elem_of_union. intros [[H|H]|H].
  - apply HR in H as (j & _ & Hj & Hcell). destruct (Hpeer r j Hr Hj Hcell) as (? & _). done.
  - apply HC in H as (i & Hi & _ & Hcell). destruct (Hpeer i c Hi Hc Hcell) as (_ & ? & _). done.
  - apply HS in H as (i & j & Hi & Hj & Hk & Hcell).
    destruct (Hpeer i j Hi Hj Hcell) as (_ & _ & ?). done.
Qed.

Lemma solutionOf_place this sol r c x :
  wf_solver this → r < 9 → c < 9 → getCell (board this) r c = None →
  getCell sol r c = Some x → solutionOf (board this) sol →
  solutionOf (board (place this r c x)) sol.
Proof.
  intros (Hwb & _) Hr Hc He Hx (Hwf & Hfull & Hu & Hext & Hdig). rewrite board_place.
  split_and!; try done.
  - intros i j s Hi Hj Hs. destruct (decide ((r, c) = (i, j))) as [Heq|Hne].
    + inversion Heq; subst i j. rewrite getCell_setCell_eq in Hs by done. congruence.
    + rewrite getCell_setCell_ne in Hs by done. by apply Hext.
  - intros i j s Hi Hj Hs. destruct (decide ((r, c) = (i, j))) as [Heq|Hne].
    + inversion Heq; subst i j. rewrite getCell_setCell_eq in Hs by done. done.
    + rewrite getCell_setCell_ne in Hs by done. by apply Hdig.
Qed.

(** A search that fails proves that the board has no completion. *)
Lemma backtrack_complete fuel : ∀ this this',
  wf_solver this → recorded this (board this) →
  backtrack fuel this = Some (false, this') →
  ∀ sol, ¬ solutionOf (board this) sol.
Proof.
  induction fuel as [|fuel IH]; intros this this' Hwf Hrec Hb sol Hsol; [done|].
  cbn [backtrack] in Hb. destruct (findBestCell this) as [t|] eqn:Hf; [|congruence].
  apply findBestCell_Some in Hf as (Hr & Hc & He & Ho).
  destruct (getCell sol (row t) (col t)) as [x|] eqn:Hx.
  2:{ destruct Hsol as (_ & Hfull & _). by destruct (Hfull _ _ Hr Hc). }
  assert (Hin : x ∈ options t) by (rewrite Ho; by apply (solution_valid this sol)).
  assert (Hopts : ∀ num, num ∈ options t → num ∉ usedAt this (row t) (col t)).
  { intros num Hnum. rewrite Ho in Hnum. by apply elem_of_getValidNumbers in Hnum as [_ ?]. }
  clear Ho. revert Hb Hin Hopts. generalize (options t). intros opts.
  induction opts as [|num rest IHo]; intros Hb Hin Hopts; cbn [tryOptions] in Hb.
  - by apply elem_of_nil in Hin.
  - destruct (backtrack fuel (place this (row t) (col t) num)) as [[[] this1]|] eqn:Hrec1;
      [congruence| |congruence].
    apply elem_of_cons in Hin as [->|Hin].
    + apply (IH _ _ (wf_place this (row t) (col t) num Hwf)
               (recorded_place this (row t) (col t) num Hwf Hr Hc He Hrec) Hrec1 sol).
      by apply solutionOf_place.
    + apply backtrack_false in Hrec1; [|by apply wf_place]. subst this1.
      rewrite unplace_place in Hb; try done; [|apply Hopts; set_solver].
      apply IHo; try done. intros. apply Hopts. set_solver.
Qed.

Lemma solveWith_complete fuel b :
  wf_board b → solveWith fuel b = Some None → ∀ sol, ¬ solutionOf b sol.
Proof.
  intros Hwf Hs sol Hsol. unfold solveWith in Hs.
  destruct (backtrack fuel (newSolver b)) as [[[] this]|] eqn:Hb; try congruence.
  apply (backtrack_complete fuel _ _ (wf_newSolver b Hwf)) with (sol := sol) in Hb.
  - apply Hb. by rewrite board_newSolver.
  - rewrite board_newSolver by done. by apply recorded_newSolver.
Qed.

End TrackerMore.

(** * Further properties of the free functions and of the propagator *)

Section PropagatorMore.

Lemma board_ext (b b' : SudokuBoard) :
  wf_board b → wf_board b' →
  (∀ i j, i < 9 → j < 9 → getCell b i j = getCell b' i j) → b = b'.
Proof.
  intros [Hl Hr] [Hl' Hr'] Heq. apply list_eq. intros i.
  destruct (decide (i < 9)) as [Hi|Hi].
  - destruct (lookup_lt_is_Some_2 b i) as [r Hri]; [lia|].
    destruct (lookup_lt_is_Some_2 b' i) as [r' Hri']; [lia|].
    rewrite Hri, Hri'. f_equal. apply list_eq. intros j.
    rewrite Forall_forall in Hr, Hr'.
    assert (length r = 9) by (apply Hr; by eapply list_elem_of_lookup_2).
    assert (length r' = 9) by (apply Hr'; by eapply list_elem_of_lookup_2).
    destruct (decide (j < 9)) as [Hj|Hj].
    + specialize (Heq i j Hi Hj). unfold getCell in Heq. rewrite Hri, Hri' in Heq.
      destruct (lookup_lt_is_Some_2 r j) as [x Hx]; [lia|].
      destruct (lookup_lt_is_Some_2 r' j) as [x' Hx']; [lia|].
      rewrite Hx, Hx' in *. congruence.
    + rewrite !lookup_ge_None_2 by lia. done.
  - rewrite !lookup_ge_None_2 by lia. done.
Qed.

Lemma wf_applySolution original solution :
  wf_sboard original → wf_sboard (applySolutionToBoard original solution).
Proof.
  intros [Hl Hr]. unfold applySolutionToBoard. split; [by rewrite length_imap|].
  apply Forall_forall. intros r' Hin. apply list_elem_of_lookup in Hin as [i Hi].
  rewrite list_lookup_imap in Hi. destruct (original !! i) as [r|] eqn:Hri; [|done].
  simpl in Hi. inversion Hi; subst r'. rewrite length_imap.
  rewrite Forall_forall in Hr. apply Hr. by eapply list_elem_of_lookup_2.
Qed.

Lemma getValue_alt b i j :
  getValue b i j = match getSourceCell b i j with Some cell => value cell | None => None end.
Proof. unfold getValue, getSourceCell. by destruct (b !! i). Qed.

Lemma simple_applySolution original solution :
  wf_sboard original → wf_board solution →
  extends (boardWithSourceToSimple original) solution →
  boardWithSourceToSimple (applySolutionToBoard original solution) = solution.
Proof.
  intros Hwf Hwfs Hext. apply board_ext; [by apply wf_simple, wf_applySolution|done|].
  intros i j Hi Hj. rewrite getCell_simple, getValue_alt, getSourceCell_applySolution.
  destruct (getSourceCell_wf original i j Hwf Hi Hj) as [cell Hcell]. rewrite Hcell.
  pose proof (getValue_getSourceCell _ _ _ _ Hcell) as Hval.
  destruct cell as [[v|] src]; cbn [fmap option_fmap option_map value] in *.
  - symmetry. apply Hext; [done..|]. by rewrite getCell_simple.
  - by destruct (getCell solution i j).
Qed.

Lemma applySolution_twice original solution :
  wf_sboard original →
  applySolutionToBoard (applySolutionToBoard original solution) solution
  = applySolutionToBoard original solution.
Proof.
  intros Hwf. apply sboard_ext; [by do 2 apply wf_applySolution|by apply wf_applySolution|].
  intros i j Hi Hj. rewrite !getSourceCell_applySolution.
  destruct (getSourceCell original i j) as [[[v|] src]|]; [| |done];
    cbn [fmap option_fmap option_map value]; [done|].
  by destruct (getCell solution i j).
Qed.

Lemma applySolution_own original :
  wf_sboard original →
  applySolutionToBoard original (boardWithSourceToSimple original) = original.
Proof.
  intros Hwf. apply sboard_ext; [by apply wf_applySolution|done|].
  intros i j Hi Hj. rewrite getSourceCell_applySolution, getCell_simple, getValue_alt.
  by destruct (getSourceCell original i j) as [[[v|] src]|].
Qed.

(** ** What [removeCandidate] and [updateCell] change *)

Lemma removeCandidate_lookup r c num s k :
  candidates (removeCandidate r c num s).2 !! k
  = if decide (k = key r c) then (λ C, C ∖ {[num]}) <$> candidates s !! k
    else candidates s !! k.
Proof.
  unfold removeCandidate. destruct (candidates s !! key r c) as [C|] eqn:HC.
  - case_bool_decide; cbn [snd candidates withCandidates].
    + case_decide as Hk; [subst k; by rewrite lookup_insert_eq, HC|].
      by rewrite lookup_insert_ne.
    + case_decide as Hk; [|done]. subst k. rewrite HC. simpl. f_equal.
      apply leibniz_equiv. set_solver.
  - cbn [snd]. case_decide as Hk; [|done]. subst k. by rewrite HC.
Qed.

Lemma removeCandidate_flag r c num s :
  (removeCandidate r c num s).1 = true ↔
  ∃ C, candidates s !! key r c = Some C ∧ num ∈ C.
Proof.
  unfold removeCandidate. destruct (candidates s !! key r c) as [C|] eqn:HC.
  - case_bool_decide; simpl; split; try done; [eauto|]. intros (C' & [= <-] & ?). done.
  - simpl. split; [done|]. intros (C' & ? & _). done.
Qed.

Lemma removeCandidate_rest r c num s :
  newBoard (removeCandidate r c num s).2 = newBoard s
  ∧ solver (removeCandidate r c num s).2 = solver s
  ∧ hasChanges (removeCandidate r c num s).2 = hasChanges s
  ∧ iterationChanges (removeCandidate r c num s).2 = iterationChanges s.
Proof.
  unfold removeCandidate. destruct (candidates s !! key r c) as [C|]; [|done].
  by case_bool_decide.
Qed.

Lemma removeList_lookup v L : ∀ s k,
  candidates (removeList v L s) !! k
  = if decide (k ∈ keysOf L) then (λ C, C ∖ {[v]}) <$> candidates s !! k
    else candidates s !! k.
Proof.
  unfold keysOf. induction L as [|[r c] L IH]; intros s k.
  - cbn [removeList foldl fmap list_fmap]. case_decide as Hin; [|done].
    by apply elem_of_nil in Hin.
  - change (removeList v ((r, c) :: L) s)
      with (removeList v L (removeCandidate r c v s).2).
    rewrite IH, removeCandidate_lookup. rewrite fmap_cons. cbn [fst snd].
    repeat case_decide; try done; try set_solver.
    destruct (candidates s !! k) as [C|]; [|done]. simpl. f_equal.
    apply leibniz_equiv. set_solver.
Qed.

Lemma removeList_flags v L : ∀ s,
  hasChanges (removeList v L s) = hasChanges s
  ∧ iterationChanges (removeList v L s) = iterationChanges s.
Proof.
  induction L as [|[r c] L IH]; intros s; [done|].
  change (removeList v ((r, c) :: L) s)
    with (removeList v L (removeCandidate r c v s).2).
  destruct (IH (removeCandidate r c v s).2) as [-> ->].
  by destruct (removeCandidate_rest r c v s) as (_ & _ & ? & ?).
Qed.

Lemma peerCells_peers i j r c :
  r < 9 → c < 9 → (i, j) ∈ peerCells r c → i < 9 ∧ j < 9 ∧ peers (i, j) (r, c).
Proof.
  intros Hr Hc. unfold peerCells. rewrite elem_of_app. intros [Hin|Hin].
  - apply list_elem_of_bind in Hin as (x & Hin & Hx%elem_of_seq).
    unfold peers. cbn [fst snd].
    apply elem_of_cons in Hin as [Heq|Hin]; [inversion Heq; subst; lia|].
    apply list_elem_of_singleton in Hin. inversion Hin; subst. lia.
  - apply squareCells_range in Hin as (? & ? & ?); [|by apply getSquareIndex_lt].
    unfold peers. cbn [fst snd]. auto.
Qed.

Lemma key_peerCells i j r c :
  i < 9 → j < 9 → r < 9 → c < 9 →
  key i j ∈ keysOf (peerCells r c) ↔ peers (i, j) (r, c).
Proof.
  intros Hi Hj Hr Hc. unfold keysOf. rewrite list_elem_of_fmap. split.
  - intros ([i' j'] & Hk & Hin). cbn [fst snd] in Hk.
    destruct (peerCells_peers i' j' r c Hr Hc Hin) as (Hi' & Hj' & Hp).
    apply key_inj in Hk; try done. by inversion Hk; subst.
  - intros Hp. exists (i, j). split; [done|]. by apply peers_peerCells.
Qed.

(** ** The flag [iterationChanges] tells whether a round changed anything *)

Lemma quiet_refl s : quiet s s.
Proof. done. Qed.

Lemma quiet_trans s1 s2 s3 : quiet s1 s2 → quiet s2 s3 → quiet s1 s3.
Proof.
  intros [Hup Hsame] [Hup' Hsame']. split; [auto|].
  intros H3. specialize (Hsame' H3). subst s3. auto.
Qed.

Lemma quiet_raised s s' : iterationChanges s' = true → quiet s s'.
Proof. intros H. split; [done|]. congruence. Qed.

Lemma quiet_foldl {A} (f : AutoState → A → AutoState) (l : list A) :
  (∀ s x, quiet s (f s x)) → ∀ s, quiet s (foldl f s l).
Proof.
  intros Hf. induction l as [|x l IH]; intros s; simpl; [apply quiet_refl|].
  eapply quiet_trans; [apply Hf|apply IH].
Qed.

Lemma iterationChanges_updateCell r c v s : iterationChanges (updateCell r c v s) = true.
Proof. rewrite updateCell_unfold. by destruct (removeList_flags v (peerCells r c) (mkAuto
  (addConstraints (setBoardCell (solver s) r c (Some v)) r c v)
  (setSourceCell (newBoard s) r c (mkCell (Some v) (Some system)))
  (delete (key r c) (candidates s)) true true)) as [_ ->]. Qed.

Lemma hasChanges_updateCell r c v s : hasChanges (updateCell r c v s) = true.
Proof. rewrite updateCell_unfold. by destruct (removeList_flags v (peerCells r c) (mkAuto
  (addConstraints (setBoardCell (solver s) r c (Some v)) r c v)
  (setSourceCell (newBoard s) r c (mkCell (Some v) (Some system)))
  (delete (key r c) (candidates s)) true true)) as [-> _]. Qed.

Lemma quiet_pruneCandidate r c num s : quiet s (pruneCandidate r c num s).
Proof.
  unfold pruneCandidate. destruct (getValue (newBoard s) r c); [apply quiet_refl|].
  unfold removeCandidate. destruct (candidates s !! key r c) as [C|]; [|apply quiet_refl].
  case_bool_decide; [by apply quiet_raised|apply quiet_refl].
Qed.

Lemma quiet_updateCell r c v s : quiet s (updateCell r c v s).
Proof. apply quiet_raised, iterationChanges_updateCell. Qed.

Lemma quiet_nakedSingles s : quiet s (nakedSingles s).
Proof.
  unfold nakedSingles. apply quiet_foldl. intros s1 [i j].
  destruct (getValue _ _ _); [apply quiet_refl|].
  destruct (candidates s1 !! _); [|apply quiet_refl].
  case_bool_decide; [|apply quiet_refl].
  destruct (elements _ !! 0); [apply quiet_updateCell|apply quiet_refl].
Qed.

Lemma quiet_hiddenRows s : quiet s (hiddenRows s).
Proof.
  unfold hiddenRows. apply quiet_foldl. intros s1 r. apply quiet_foldl. intros s2 num.
  case_bool_decide; [apply quiet_refl|]. cbv zeta.
  destruct (length _ =? 1); [|apply quiet_refl].
  destruct (filter _ _ !! 0); [apply quiet_updateCell|apply quiet_refl].
Qed.

Lemma quiet_hiddenCols s : quiet s (hiddenCols s).
Proof.
  unfold hiddenCols. apply quiet_foldl. intros s1 r. apply quiet_foldl. intros s2 num.
  case_bool_decide; [apply quiet_refl|]. cbv zeta.
  destruct (length _ =? 1); [|apply quiet_refl].
  destruct (filter _ _ !! 0); [apply quiet_updateCell|apply quiet_refl].
Qed.

Lemma quiet_hiddenSquares s : quiet s (hiddenSquares s).
Proof.
  unfold hiddenSquares. apply quiet_foldl. intros s1 r. cbv zeta.
  apply quiet_foldl. intros s2 num.
  case_bool_decide; [apply quiet_refl|].
  destruct (length _ =? 1); [|apply quiet_refl].
  destruct (filter _ _ !! 0) as [[]|]; [apply quiet_updateCell|apply quiet_refl].
Qed.

Lemma quiet_reduceRow k num s : quiet s (reduceRow k num s).
Proof.
  unfold reduceRow. cbv zeta. case_bool_decide; [|apply quiet_refl].
  destruct (elements _ !! 0); [|apply quiet_refl].
  apply quiet_foldl. intros s3 c.
  destruct (_ && _); [apply quiet_refl|apply quiet_pruneCandidate].
Qed.

Lemma quiet_reduceCol k num s : quiet s (reduceCol k num s).
Proof.
  unfold reduceCol. cbv zeta. case_bool_decide; [|apply quiet_refl].
  destruct (elements _ !! 0); [|apply quiet_refl].
  apply quiet_foldl. intros s3 c.
  destruct (_ && _); [apply quiet_refl|apply quiet_pruneCandidate].
Qed.

Lemma quiet_boxLineReduction s : quiet s (boxLineReduction s).
Proof.
  unfold boxLineReduction. apply quiet_foldl. intros s1 k. apply quiet_foldl.
  intros s2 num. case_bool_decide; [apply quiet_refl|].
  eapply quiet_trans; [apply quiet_reduceRow|apply quiet_reduceCol].
Qed.

Lemma quiet_round s : quiet s (round s).
Proof.
  unfold round.
  eapply quiet_trans; [apply quiet_nakedSingles|].
  eapply quiet_trans; [apply quiet_hiddenRows|].
  eapply quiet_trans; [apply quiet_hiddenCols|].
  eapply quiet_trans; [apply quiet_hiddenSquares|apply quiet_boxLineReduction].
Qed.

(** An iteration that leaves the flag down is followed only by iterations
    that do nothing. *)
Lemma iteration_fixed s :
  iterationChanges (iteration s) = false → iteration (iteration s) = iteration s.
Proof.
  pose (s0 := {| solver := solver s; newBoard := newBoard s; candidates := candidates s;
                 hasChanges := hasChanges s; iterationChanges := false |}).
  change (iteration s) with (round s0). intros Hflag.
  destruct (quiet_round s0) as [_ Hsame]. specialize (Hsame Hflag).
  rewrite Hsame. change (iteration s0) with (round s0). exact Hsame.
Qed.

Lemma mainLoop_fixed n : ∀ s m s',
  (iterationChanges s = false → iteration s = s) →
  mainLoop n s = (S m, s') →
  iterationChanges s' = false ∧ iteration s' = s'.
Proof.
  induction n as [|n IH]; intros s m s' Hs Hloop; cbn [mainLoop] in Hloop; [done|].
  destruct (iterationChanges s) eqn:Hflag.
  - apply (IH (iteration s) m s'); [apply iteration_fixed|done].
  - inversion Hloop; subst. auto.
Qed.

End PropagatorMore.

(** * Invariants of the propagation loop, generically *)

Section LoopInduction.

Variable P : AutoState → Prop.

Hypothesis P_pruned : ∀ s s', P s → pruned s s' → P s'.

Hypothesis P_updateCell : ∀ s r c v C,
  P s → r < 9 → c < 9 → getValue (newBoard s) r c = None →
  candidates s !! key r c = Some C → v ∈ C → P (updateCell r c v s).

Lemma nakedSingles_ind s : P s → P (nakedSingles s).
Proof.
  unfold nakedSingles. apply foldl_inv. clear s. intros s [i j] Hin Hinv.
  apply elem_of_rowMajor in Hin as [Hi Hj].
  destruct (getValue (newBoard s) i j) eqn:He; [done|].
  destruct (candidates s !! key i j) as [C|] eqn:HC; [|done].
  case_bool_decide; [|done].
  destruct (elements C !! 0) as [v|] eqn:Hv; [|done].
  apply (P_updateCell s i j v C); try done.
  apply elem_of_elements. by eapply list_elem_of_lookup_2.
Qed.

Lemma hiddenRows_ind s : P s → P (hiddenRows s).
Proof.
  unfold hiddenRows. apply foldl_inv. clear s. intros s r Hr%elem_of_seq.
  apply foldl_inv. clear s. intros s num _ Hinv.
  case_bool_decide; [done|]. cbv zeta.
  destruct (length _ =? 1); [|done].
  destruct (filter _ _ !! 0) as [c|] eqn:Hc; [|done].
  apply list_elem_of_lookup_2, list_elem_of_filter in Hc as [Hhas Hc%elem_of_seq].
  apply hasCandidate_true in Hhas as (He & C & HC & Hnum).
  apply (P_updateCell s r c num C); try done; lia.
Qed.

Lemma hiddenCols_ind s : P s → P (hiddenCols s).
Proof.
  unfold hiddenCols. apply foldl_inv. clear s. intros s c Hc%elem_of_seq.
  apply foldl_inv. clear s. intros s num _ Hinv.
  case_bool_decide; [done|]. cbv zeta.
  destruct (length _ =? 1); [|done].
  destruct (filter _ _ !! 0) as [r|] eqn:Hr; [|done].
  apply list_elem_of_lookup_2, list_elem_of_filter in Hr as [Hhas Hr%elem_of_seq].
  apply hasCandidate_true in Hhas as (He & C & HC & Hnum).
  apply (P_updateCell s r c num C); try done; lia.
Qed.

Lemma hiddenSquares_ind s : P s → P (hiddenSquares s).
Proof.
  unfold hiddenSquares. apply foldl_inv. clear s. intros s k Hk%elem_of_seq.
  cbv zeta. apply foldl_inv. clear s. intros s num _ Hinv.
  case_bool_decide; [done|].
  destruct (length _ =? 1); [|done].
  destruct (filter _ _ !! 0) as [[r c]|] eqn:Hrc; [|done].
  apply list_elem_of_lookup_2, list_elem_of_filter in Hrc as [Hhas Hrc].
  apply squareCells_range in Hrc as (Hr & Hc & _); [|lia].
  apply hasCandidate_true in Hhas as (He & C & HC & Hnum).
  by apply (P_updateCell s r c num C).
Qed.

Lemma round_ind s : P s → P (round s).
Proof.
  intros Hinv. unfold round. eapply P_pruned; [|apply pruned_boxLineReduction].
  by apply hiddenSquares_ind, hiddenCols_ind, hiddenRows_ind, nakedSingles_ind.
Qed.

Lemma mainLoop_ind n : ∀ s, P s → P (mainLoop n s).2.
Proof.
  induction n as [|n IH]; intros s Hinv; cbn [mainLoop]; [done|].
  destruct (iterationChanges s); [|done].
  apply IH. unfold iteration. apply round_ind.
  eapply P_pruned; [exact Hinv|].
  split_and!; try done. intros k C' H. exists C'. done.
Qed.

End LoopInduction.

Section Digits.

Lemma getValue_set_cases b r c cell i j :
  getValue (setSourceCell b r c cell) i j = getValue b i j
  ∨ getValue (setSourceCell b r c cell) i j = value cell.
Proof.
  destruct (decide ((r, c) = (i, j))) as [Heq|Hne].
  - inversion Heq; subst i j. unfold getValue, setSourceCell.
    rewrite list_lookup_alter_eq. destruct (b !! r) as [row0|]; simpl; [|by left].
    destruct (decide (c < length row0)).
    + right. by rewrite list_lookup_insert_eq.
    + left. by rewrite list_insert_ge by lia.
  - left. by rewrite !getValue_alt, getSourceCell_set_ne.
Qed.

Lemma digitsInv_pruned g s s' : digitsInv g s → pruned s s' → digitsInv g s'.
Proof.
  intros [Hc Hb] (Hnb & _ & Hsub). split.
  - intros k C' x HC' Hx. apply Hsub in HC' as (C & HC & Hincl).
    apply (Hc k C x HC). by apply Hincl.
  - rewrite Hnb. exact Hb.
Qed.

Lemma digitsInv_updateCell g s r c v C :
  digitsInv g s → candidates s !! key r c = Some C → v ∈ C →
  digitsInv g (updateCell r c v s).
Proof.
  intros [Hc Hb] HC Hv. rewrite updateCell_unfold.
  set (s1 := {| solver := addConstraints (setBoardCell (solver s) r c (Some v)) r c v;
                newBoard := setSourceCell (newBoard s) r c (mkCell (Some v) (Some system));
                candidates := delete (key r c) (candidates s);
                hasChanges := true; iterationChanges := true |}).
  apply (digitsInv_pruned g s1); [|apply pruned_removeList]. split.
  - intros k C' x HC' Hx. cbn [candidates s1] in HC'.
    apply lookup_delete_Some in HC' as [_ HC']. by apply (Hc k C' x).
  - intros i j x Hx. cbn [newBoard s1] in Hx.
    destruct (getValue_set_cases (newBoard s) r c (mkCell (Some v) (Some system)) i j)
      as [Hsame|Hnew].
    + rewrite Hsame in Hx. by apply Hb.
    + rewrite Hnew in Hx. cbn [value] in Hx. inversion Hx; subst x.
      right. by apply (Hc (key r c) C v).
Qed.

Lemma digitsInv_initialState g : digitsInv g (initialState g).
Proof.
  split.
  - intros k C x HC Hx. rewrite candidates_initialState in HC.
    apply initializeCandidates_lookup in HC as (i & j & _ & _ & _ & ->).
    apply elem_of_list_to_set, elem_of_getValidNumbers in Hx as [Hx _]. exact Hx.
  - intros i j v Hv. left. exact Hv.
Qed.

Lemma digitsInv_mainLoop g n : digitsInv g (mainLoop n (initialState g)).2.
Proof.
  apply (mainLoop_ind (digitsInv g)).
  - apply digitsInv_pruned.
  - intros s r c v C Hinv _ _ _ HC Hv. by apply (digitsInv_updateCell g s r c v C).
  - apply digitsInv_initialState.
Qed.

(** [autoSolveCells] returns its argument or the new board of the final
    state of the loop. *)
Lemma autoSolveCells_state b :
  autoSolveCells b = b
  ∨ (isValidBoard (boardWithSourceToSimple b) = true
     ∧ autoSolveCells b = newBoard (mainLoop maxIterations0 (initialState b)).2).
Proof.
  unfold autoSolveCells.
  destruct (isValidBoard (boardWithSourceToSimple b)); cbn [negb]; [|by left].
  destruct (hasChanges _); [by right|by left].
Qed.

(** The symbols [autoSolveCells] writes were valid numbers of their cells
    on the board it was given. *)
Lemma autoSolveCells_valid g i j v :
  wf_sboard g → i < 9 → j < 9 → getValue g i j = None →
  getValue (autoSolveCells g) i j = Some v →
  v ∈ getValidNumbers (newSolver (boardWithSourceToSimple g)) i j.
Proof.
  intros Hwf Hi Hj He Hv. pose proof (wf_simple g Hwf) as Hwfs.
  destruct (autoSolveCells_state g) as [Heq|[Hvalid Heq]]; rewrite Heq in Hv;
    [congruence|].
  pose proof (propInv_mainLoop g maxIterations0 _ (propInv_initialState g Hwf Hvalid))
    as [_ _ _ _ Hu _ _ Hf].
  destruct (digitsInv_mainLoop g maxIterations0) as [_ Hd].
  apply (getValidNumbers_spec _ (boardWithSourceToSimple g));
    [by apply covers_newSolver|by apply recorded_newSolver|done..|].
  split; [destruct (Hd i j v Hv); [congruence|done]|].
  intros i' j' Hi' Hj' Hc. rewrite unique_alt in Hu.
  apply (Hu i' j' i j v); try done.
  - intros Hsame. inversion Hsame; subst. rewrite getCell_simple in Hc. congruence.
  - rewrite getCell_simple in Hc |- *. rewrite getValue_alt in Hc |- *.
    destruct (Hf i' j' Hi' Hj') as [-> |[Hnone _]]; [done|].
    rewrite getValue_alt in Hnone. congruence.
  - by rewrite getCell_simple.
Qed.

(** The candidates of an empty cell at the start of the loop. *)
Lemma initializeCandidates_empty this b : ∀ i j,
  i < 9 → j < 9 → getValue b i j = None →
  initializeCandidates this b !! key i j = Some (list_to_set (getValidNumbers this i j)).
Proof.
  intros i j Hi Hj He. unfold initializeCandidates.
  assert (Hgen : ∀ L (m : gmap string (gset string)),
            (∀ p, p ∈ L → p.1 < 9 ∧ p.2 < 9) →
            (i, j) ∈ L ∨ m !! key i j = Some (list_to_set (getValidNumbers this i j)) →
            foldl (λ m '(i, j),
                     match getValue b i j with
                     | None => <[key i j := list_to_set (getValidNumbers this i j)]> m
                     | Some _ => m
                     end) m L !! key i j
            = Some (list_to_set (getValidNumbers this i j))).
  { induction L as [|[i0 j0] L IH]; intros m Hrng Hor; cbn [foldl].
    - destruct Hor as [Hin|?]; [by apply elem_of_nil in Hin|done].
    - destruct (Hrng (i0, j0)) as [Hi0 Hj0]; [set_solver|]. cbn [fst snd] in *.
      apply IH; [intros; apply Hrng; set_solver|].
      destruct (decide ((i0, j0) = (i, j))) as [Heq|Hne].
      + inversion Heq; subst i0 j0. right. rewrite He. apply lookup_insert_eq.
      + destruct Hor as [Hin|Hm]; [left; set_solver|right].
        destruct (getValue b i0 j0); [done|]. rewrite lookup_insert_ne; [done|].
        intros Hk. apply key_inj in Hk; done. }
  apply Hgen; [|left; by apply elem_of_rowMajor].
  intros [i' j'] Hin. by apply elem_of_rowMajor.
Qed.

End Digits.

(** * The propagator against a completed board *)

Section Soundness.

Variable sol : SudokuBoard.

Hypothesis sol_full : full sol.
Hypothesis sol_unique : unique sol.
Hypothesis sol_digits : digitsOnly sol.

(** A unit of nine cells of [sol] holds every digit. *)
Lemma unit_has (L : list (nat * nat)) d :
  NoDup L → length L = 9 →
  (∀ p, p ∈ L → p.1 < 9 ∧ p.2 < 9) →
  (∀ p q, p ∈ L → q ∈ L → p ≠ q → peers p q) →
  d ∈ digits → ∃ p, p ∈ L ∧ getCell sol p.1 p.2 = Some d.
Proof.
  intros Hnd Hlen Hrng Hpeers Hd.
  set (f := λ p : nat * nat, default "" (getCell sol p.1 p.2)).
  assert (Hf : ∀ p, p ∈ L → getCell sol p.1 p.2 = Some (f p)).
  { intros p Hp. destruct (Hrng p Hp) as [Hi Hj]. unfold f.
    destruct (getCell sol p.1 p.2) eqn:Hc; [done|]. by destruct (sol_full _ _ Hi Hj). }
  assert (Hnd' : NoDup (f <$> L)).
  { apply NoDup_fmap_2_strong; [|done]. intros [i j] [i' j'] Hp Hq Heq.
    destruct (decide ((i, j) = (i', j'))) as [|Hne]; [done|]. exfalso.
    pose proof (Hf _ Hp) as Hcp. pose proof (Hf _ Hq) as Hcq. rewrite <- Heq in Hcq.
    destruct (Hrng _ Hp) as [Hi Hj]. destruct (Hrng _ Hq) as [Hi' Hj'].
    cbn [fst snd] in *.
    pose proof sol_unique as Hu. rewrite unique_alt in Hu.
    destruct (Hu i j i' j' _ Hi Hj Hi' Hj' Hne Hcp Hcq) as (Hu1 & Hu2 & Hu3).
    destruct (Hpeers _ _ Hp Hq Hne) as [?|[?|?]]; done. }
  assert (Hsub : ∀ x, x ∈ f <$> L → x ∈ digits).
  { intros x (p & -> & Hp)%list_elem_of_fmap. destruct (Hrng p Hp) as [Hi Hj].
    apply (sol_digits _ _ _ Hi Hj). by apply Hf. }
  assert (Hperm : f <$> L ≡ₚ digits).
  { apply submseteq_length_Permutation; [by apply NoDup_submseteq|].
    rewrite length_fmap, Hlen. done. }
  rewrite <- Hperm in Hd. apply list_elem_of_fmap in Hd as (p & -> & Hp).
  exists p. split; [done|]. by apply Hf.
Qed.

Lemma row_has r d : r < 9 → d ∈ digits → ∃ c, c < 9 ∧ getCell sol r c = Some d.
Proof.
  intros Hr Hd.
  destruct (unit_has (rowCells r) d) as ([i j] & Hin & Hcell); [| | | |exact Hd|].
  - apply NoDup_fmap_2; [|apply NoDup_seq]. intros x y. congruence.
  - reflexivity.
  - intros p (c & -> & Hc%elem_of_seq)%list_elem_of_fmap. simpl. lia.
  - intros p q (c & -> & _)%list_elem_of_fmap (c' & -> & _)%list_elem_of_fmap _. by left.
  - apply list_elem_of_fmap in Hin as (c & Heq & Hc%elem_of_seq). inversion Heq; subst.
    exists c. split; [lia|done].
Qed.

Lemma col_has c d : c < 9 → d ∈ digits → ∃ r, r < 9 ∧ getCell sol r c = Some d.
Proof.
  intros Hc Hd.
  destruct (unit_has (colCells c) d) as ([i j] & Hin & Hcell); [| | | |exact Hd|].
  - apply NoDup_fmap_2; [|apply NoDup_seq]. intros x y. congruence.
  - reflexivity.
  - intros p (r & -> & Hr%elem_of_seq)%list_elem_of_fmap. simpl. lia.
  - intros p q (r & -> & _)%list_elem_of_fmap (r' & -> & _)%list_elem_of_fmap _.
    by right; left.
  - apply list_elem_of_fmap in Hin as (r & Heq & Hr%elem_of_seq). inversion Heq; subst.
    exists r. split; [lia|done].
Qed.

Lemma squareCells_shape k :
  k < 9 →
  NoDup (squareCells (k / 3 * 3) (k `mod` 3 * 3))
  ∧ length (squareCells (k / 3 * 3) (k `mod` 3 * 3)) = 9.
Proof.
  intros Hk.
  assert (Hall : Forall (λ k, NoDup (squareCells (k / 3 * 3) (k `mod` 3 * 3))
                              ∧ length (squareCells (k / 3 * 3) (k `mod` 3 * 3)) = 9)
                   (seq 0 9)).
  { apply (bool_decide_unpack _). by vm_compute. }
  rewrite Forall_forall in Hall. apply Hall. apply elem_of_seq. lia.
Qed.

Lemma square_has k d :
  k < 9 → d ∈ digits →
  ∃ r c, (r, c) ∈ squareCells (k / 3 * 3) (k `mod` 3 * 3) ∧ getCell sol r c = Some d.
Proof.
  intros Hk Hd. destruct (squareCells_shape k Hk) as [Hnd Hlen].
  destruct (unit_has (squareCells (k / 3 * 3) (k `mod` 3 * 3)) d) as ([r c] & Hin & Hc);
    [exact Hnd|exact Hlen| | |exact Hd|].
  - intros [i j] Hp. apply squareCells_range in Hp as (? & ? & _); done.
  - intros [i j] [i' j'] Hp Hq _.
    apply squareCells_range in Hp as (_ & _ & Hp); [|done].
    apply squareCells_range in Hq as (_ & _ & Hq); [|done].
    right; right. cbn [fst snd]. congruence.
  - exists r, c. done.
Qed.

(** Two peers of [sol] hold different symbols. *)
Lemma sol_peers i j i' j' x :
  i < 9 → j < 9 → i' < 9 → j' < 9 → (i, j) ≠ (i', j') → peers (i, j) (i', j') →
  getCell sol i j = Some x → getCell sol i' j' ≠ Some x.
Proof.
  intros Hi Hj Hi' Hj' Hne Hp Hx Hx'. pose proof sol_unique as Hu.
  rewrite unique_alt in Hu.
  destruct (Hu i j i' j' x Hi Hj Hi' Hj' Hne Hx Hx') as (Hu1 & Hu2 & Hu3).
  destruct Hp as [?|[?|?]]; done.
Qed.

Lemma agrees_removeCandidate r c num s :
  agrees sol s → r < 9 → c < 9 → getCell sol r c ≠ Some num →
  agrees sol (removeCandidate r c num s).2.
Proof.
  intros [Hext Hc] Hr Hcc Hsol.
  destruct (removeCandidate_rest r c num s) as (Hnb & _). split; rewrite Hnb; [done|].
  intros i j Hi Hj He. destruct (Hc i j Hi Hj He) as (C & x & HC & Hx & Hin).
  rewrite removeCandidate_lookup. case_decide as Hk.
  - apply key_inj in Hk; try done. inversion Hk; subst i j.
    exists (C ∖ {[num]}), x. rewrite HC. split_and!; try done.
    apply elem_of_difference. split; [done|]. rewrite elem_of_singleton. congruence.
  - exists C, x. done.
Qed.

Lemma agrees_pruneCandidate r c num s :
  agrees sol s → r < 9 → c < 9 → getCell sol r c ≠ Some num →
  agrees sol (pruneCandidate r c num s).
Proof.
  intros Hag Hr Hc Hsol. unfold pruneCandidate.
  destruct (getValue (newBoard s) r c); [done|].
  pose proof (agrees_removeCandidate r c num s Hag Hr Hc Hsol) as Hag'.
  destruct (removeCandidate r c num s) as [[] s']; exact Hag'.
Qed.

Lemma agrees_updateCell g s r c v C :
  propInv g s → agrees sol s → r < 9 → c < 9 →
  getValue (newBoard s) r c = None → candidates s !! key r c = Some C →
  getCell sol r c = Some v →
  agrees sol (updateCell r c v s).
Proof.
  intros Hinv [Hext Hc] Hr Hcc He HC Hsol. rewrite updateCell_unfold.
  set (s1 := {| solver := addConstraints (setBoardCell (solver s) r c (Some v)) r c v;
                newBoard := setSourceCell (newBoard s) r c (mkCell (Some v) (Some system));
                candidates := delete (key r c) (candidates s);
                hasChanges := true; iterationChanges := true |}).
  destruct (pruned_removeList v (peerCells r c) s1) as (Hnb & _ & _).
  pose proof (wf_simple _ (inv_wf g s Hinv)) as Hwfb.
  split; rewrite Hnb; subst s1; cbn [newBoard].
  - rewrite simple_setSourceCell. cbn [value]. intros i j x Hi Hj Hx.
    destruct (decide ((r, c) = (i, j))) as [Heq|Hne].
    + inversion Heq; subst i j. rewrite getCell_setCell_eq in Hx by done. congruence.
    + rewrite getCell_setCell_ne in Hx by done. by apply Hext.
  - intros i j Hi Hj Hempty.
    assert (Hne : (r, c) ≠ (i, j)).
    { intros Heq. inversion Heq; subst i j.
      rewrite <- getCell_simple, simple_setSourceCell, getCell_setCell_eq in Hempty; done. }
    assert (Hold : getValue (newBoard s) i j = None).
    { rewrite getValue_alt, getSourceCell_set_ne in Hempty by done.
      by rewrite getValue_alt. }
    destruct (Hc i j Hi Hj Hold) as (C0 & x & HC0 & Hx & Hin).
    assert (Hk : key r c ≠ key i j).
    { intros Hk. apply key_inj in Hk; done. }
    rewrite removeList_lookup. cbn [candidates]. rewrite lookup_delete_ne by done.
    rewrite HC0. case_decide as Hpeer.
    + exists (C0 ∖ {[v]}), x. split_and!; try done.
      apply elem_of_difference. split; [done|]. rewrite elem_of_singleton. intros ->.
      apply key_peerCells in Hpeer; try done.
      apply (sol_peers i j r c v Hi Hj Hr Hcc); [congruence|exact Hpeer|exact Hx|exact Hsol].
    + exists C0, x. done.
Qed.

(** A cell where [sol] has a symbol that one of the three constraint sets
    lacks is empty on the new board and has the symbol as candidate. *)
Lemma sol_candidate g s i j num :
  propInv g s → agrees sol s → i < 9 → j < 9 → getCell sol i j = Some num →
  num ∉ setAt (_rows (solver s)) i ∨ num ∉ setAt (_cols (solver s)) j
  ∨ num ∉ setAt (_squares (solver s)) (getSquareIndex i j) →
  hasCandidate s num (i, j).
Proof.
  intros Hinv [Hext Hc] Hi Hj Hsol Hnot. unfold hasCandidate. cbn [fst snd].
  destruct (getValue (newBoard s) i j) as [y|] eqn:Hv.
  - rewrite <- getCell_simple in Hv.
    assert (y = num) by (apply Hext in Hv; [congruence|done..]). subst y.
    destruct (inv_covers g s Hinv i j num Hi Hj Hv) as (? & ? & ?).
    destruct Hnot as [?|[?|?]]; done.
  - destruct (Hc i j Hi Hj Hv) as (C & x & -> & Hx & Hin).
    apply bool_decide_pack. congruence.
Qed.

Lemma filter_single {A} (Q : A → Prop) `{∀ x, Decision (Q x)} (l : list A) x y :
  length (filter Q l) = 1 → filter Q l !! 0 = Some x → y ∈ l → Q y → y = x.
Proof.
  intros Hlen Hx Hy HQ. assert (Hin : y ∈ filter Q l) by by apply list_elem_of_filter.
  destruct (filter Q l) as [|a [|b l']]; simpl in *; try done.
  apply list_elem_of_singleton in Hin. congruence.
Qed.

Lemma set_single (X : gset nat) t y :
  size X = 1 → elements X !! 0 = Some t → y ∈ X → y = t.
Proof.
  intros Hsize Ht Hy. apply (size_singleton_inv X); try done.
  apply elem_of_elements. by eapply list_elem_of_lookup_2.
Qed.

Section Passes.

Variable g : SudokuBoardWithSource.

Lemma compatible_nakedSingles s : compatible g sol s → compatible g sol (nakedSingles s).
Proof.
  unfold nakedSingles. apply foldl_inv. clear s. intros s [i j] Hin [Hinv Hag].
  apply elem_of_rowMajor in Hin as [Hi Hj].
  destruct (getValue (newBoard s) i j) eqn:He; [done|].
  destruct (candidates s !! key i j) as [C|] eqn:HC; [|done].
  case_bool_decide as Hsize; [|done].
  destruct (elements C !! 0) as [v|] eqn:Hv; [|done].
  assert (Hin : v ∈ C) by (apply elem_of_elements; by eapply list_elem_of_lookup_2).
  destruct Hag as [Hext Hc]. destruct (Hc i j Hi Hj He) as (C' & x & HC' & Hx & Hxin).
  assert (C' = C) by congruence. subst C'.
  assert (x = v) by by apply (size_singleton_inv C). subst x.
  split; [by apply (propInv_updateCell g s i j v C)|].
  by apply (agrees_updateCell g s i j v C).
Qed.

Lemma compatible_hiddenRows s : compatible g sol s → compatible g sol (hiddenRows s).
Proof.
  unfold hiddenRows. apply foldl_inv. clear s. intros s r Hr%elem_of_seq.
  apply foldl_inv. clear s. intros s num Hnum [Hinv Hag].
  case_bool_decide as Hrow; [done|]. cbv zeta.
  destruct (length _ =? 1) eqn:Hlen; [|done]. apply Nat.eqb_eq in Hlen.
  destruct (filter _ _ !! 0) as [c|] eqn:Hc; [|done].
  pose proof Hc as Hc0.
  apply list_elem_of_lookup_2, list_elem_of_filter in Hc as [Hhas Hc%elem_of_seq].
  apply hasCandidate_true in Hhas as (He & C & HC & Hin).
  destruct (row_has r num) as (c' & Hc' & Hsol); [lia|done|].
  assert (c' = c).
  { apply (filter_single _ _ _ _ Hlen Hc0); [apply elem_of_seq; lia|].
    apply (sol_candidate g s r c' num); try done; [lia|by left]. }
  subst c'.
  split; [apply (propInv_updateCell g s r c num C); try done; lia|].
  apply (agrees_updateCell g s r c num C); try done; lia.
Qed.

Lemma compatible_hiddenCols s : compatible g sol s → compatible g sol (hiddenCols s).
Proof.
  unfold hiddenCols. apply foldl_inv. clear s. intros s c Hc%elem_of_seq.
  apply foldl_inv. clear s. intros s num Hnum [Hinv Hag].
  case_bool_decide as Hcol; [done|]. cbv zeta.
  destruct (length _ =? 1) eqn:Hlen; [|done]. apply Nat.eqb_eq in Hlen.
  destruct (filter _ _ !! 0) as [r|] eqn:Hr; [|done].
  pose proof Hr as Hr0.
  apply list_elem_of_lookup_2, list_elem_of_filter in Hr as [Hhas Hr%elem_of_seq].
  apply hasCandidate_true in Hhas as (He & C & HC & Hin).
  destruct (col_has c num) as (r' & Hr' & Hsol); [lia|done|].
  assert (r' = r).
  { apply (filter_single _ _ _ _ Hlen Hr0); [apply elem_of_seq; lia|].
    apply (sol_candidate g s r' c num); try done; [lia|by right; left]. }
  subst r'.
  split; [apply (propInv_updateCell g s r c num C); try done; lia|].
  apply (agrees_updateCell g s r c num C); try done; lia.
Qed.

Lemma compatible_hiddenSquares s : compatible g sol s → compatible g sol (hiddenSquares s).
Proof.
  unfold hiddenSquares. apply foldl_inv. clear s. intros s k Hk%elem_of_seq.
  cbv zeta. apply foldl_inv. clear s. intros s num Hnum [Hinv Hag].
  case_bool_decide as Hsq; [done|].
  destruct (length _ =? 1) eqn:Hlen; [|done]. apply Nat.eqb_eq in Hlen.
  destruct (filter _ _ !! 0) as [[r c]|] eqn:Hrc; [|done].
  pose proof Hrc as Hrc0.
  apply list_elem_of_lookup_2, list_elem_of_filter in Hrc as [Hhas Hrc].
  apply squareCells_range in Hrc as (Hr & Hc & _); [|lia].
  apply hasCandidate_true in Hhas as (He & C & HC & Hin).
  destruct (square_has k num) as (r' & c' & Hin' & Hsol); [lia|done|].
  pose proof Hin' as Hin0.
  apply squareCells_range in Hin' as (Hr' & Hc' & Hk'); [|lia].
  assert ((r', c') = (r, c)).
  { apply (filter_single _ _ _ _ Hlen Hrc0); [done|].
    apply (sol_candidate g s r' c' num); try done. right; right. by rewrite Hk'. }
  inversion H; subst r' c'.
  split; [by apply (propInv_updateCell g s r c num C)|].
  by apply (agrees_updateCell g s r c num C).
Qed.

Lemma compatible_reduceRow k num s :
  k < 9 → num ∈ digits → num ∉ setAt (_squares (solver s)) k →
  compatible g sol s → compatible g sol (reduceRow k num s).
Proof.
  intros Hk Hnum Hsq [Hinv Hag].
  split; [eapply propInv_pruned; [exact Hinv|apply pruned_reduceRow]|].
  unfold reduceRow. cbv zeta. case_bool_decide as Hsize; [|done].
  destruct (elements _ !! 0) as [targetRow|] eqn:Ht; [|done].
  destruct (square_has k num) as (r' & c' & Hin' & Hsol); [lia|done|].
  pose proof Hin' as Hin0.
  apply squareCells_range in Hin' as (Hr' & Hc' & Hk'); [|lia].
  assert (Hhas : hasCandidate s num (r', c')).
  { apply (sol_candidate g s r' c' num); try done. right; right. by rewrite Hk'. }
  assert (r' = targetRow).
  { apply (set_single _ _ _ Hsize Ht). apply elem_of_list_to_set, list_elem_of_fmap.
    exists (r', c'). split; [done|]. by apply list_elem_of_filter. }
  subst r'.
  assert (Hcol : k `mod` 3 * 3 ≤ c' < k `mod` 3 * 3 + 3).
  { unfold squareCells in Hin0. apply list_elem_of_bind in Hin0 as (x & Hin0 & _).
    apply list_elem_of_bind in Hin0 as (y & Hin0 & Hy%elem_of_seq).
    apply list_elem_of_singleton in Hin0. inversion Hin0; subst. lia. }
  apply (foldl_inv (agrees sol)); [|done]. intros s' c Hc%elem_of_seq Hag'.
  destruct (bool_decide (k `mod` 3 * 3 ≤ c) && bool_decide (c < k `mod` 3 * 3 + 3)) eqn:Hin;
    [done|].
  apply agrees_pruneCandidate; try done; [lia|].
  apply (sol_peers targetRow c' targetRow c num); try done; [lia| |by left].
  intros Heq. inversion Heq; subst c'.
  apply andb_false_iff in Hin as [Hin|Hin]; apply bool_decide_eq_false in Hin; lia.
Qed.

Lemma compatible_reduceCol k num s :
  k < 9 → num ∈ digits → num ∉ setAt (_squares (solver s)) k →
  compatible g sol s → compatible g sol (reduceCol k num s).
Proof.
  intros Hk Hnum Hsq [Hinv Hag].
  split; [eapply propInv_pruned; [exact Hinv|apply pruned_reduceCol]|].
  unfold reduceCol. cbv zeta. case_bool_decide as Hsize; [|done].
  destruct (elements _ !! 0) as [targetCol|] eqn:Ht; [|done].
  destruct (square_has k num) as (r' & c' & Hin' & Hsol); [lia|done|].
  pose proof Hin' as Hin0.
  apply squareCells_range in Hin' as (Hr' & Hc' & Hk'); [|lia].
  assert (Hhas : hasCandidate s num (r', c')).
  { apply (sol_candidate g s r' c' num); try done. right; right. by rewrite Hk'. }
  assert (c' = targetCol).
  { apply (set_single _ _ _ Hsize Ht). apply elem_of_list_to_set, list_elem_of_fmap.
    exists (r', c'). split; [done|]. by apply list_elem_of_filter. }
  subst c'.
  assert (Hrow : k / 3 * 3 ≤ r' < k / 3 * 3 + 3).
  { unfold squareCells in Hin0. apply list_elem_of_bind in Hin0 as (x & Hin0 & Hx%elem_of_seq).
    apply list_elem_of_bind in Hin0 as (y & Hin0 & _).
    apply list_elem_of_singleton in Hin0. inversion Hin0; subst. lia. }
  apply (foldl_inv (agrees sol)); [|done]. intros s' r Hr%elem_of_seq Hag'.
  destruct (bool_decide (k / 3 * 3 ≤ r) && bool_decide (r < k / 3 * 3 + 3)) eqn:Hin;
    [done|].
  apply agrees_pruneCandidate; try done; [lia|].
  apply (sol_peers r' targetCol r targetCol num); try done; [lia| |by right; left].
  intros Heq. inversion Heq; subst r'.
  apply andb_false_iff in Hin as [Hin|Hin]; apply bool_decide_eq_false in Hin; lia.
Qed.

Lemma compatible_boxLineReduction s : compatible g sol s → compatible g sol (boxLineReduction s).
Proof.
  unfold boxLineReduction. apply foldl_inv. clear s. intros s k Hk%elem_of_seq.
  apply foldl_inv. clear s. intros s num Hnum Hcomp.
  case_bool_decide as Hsq; [done|].
  apply compatible_reduceCol; [lia|done| |apply compatible_reduceRow; [lia|done..]].
  destruct (pruned_reduceRow k num s) as (_ & -> & _). done.
Qed.

Lemma compatible_mainLoop n : ∀ s, compatible g sol s → compatible g sol (mainLoop n s).2.
Proof.
  induction n as [|n IH]; intros s Hcomp; cbn [mainLoop]; [done|].
  destruct (iterationChanges s); [|done].
  apply IH. unfold iteration, round.
  apply compatible_boxLineReduction, compatible_hiddenSquares, compatible_hiddenCols,
    compatible_hiddenRows, compatible_nakedSingles.
  destruct Hcomp as [Hinv Hag]. split; [|exact Hag].
  eapply propInv_pruned; [exact Hinv|].
  split_and!; try done. intros k C' H. exists C'. done.
Qed.

Lemma agrees_initialState :
  wf_sboard g → extends (boardWithSourceToSimple g) sol → agrees sol (initialState g).
Proof.
  intros Hwf Hext. pose proof (wf_simple g Hwf) as Hwfs. split.
  - rewrite newBoard_initialState. exact Hext.
  - intros i j Hi Hj He. rewrite newBoard_initialState in He.
    destruct (getCell sol i j) as [x|] eqn:Hx; [|by destruct (sol_full i j Hi Hj)].
    exists (list_to_set (getValidNumbers (newSolver (boardWithSourceToSimple g)) i j)), x.
    rewrite candidates_initialState. split_and!; [by apply initializeCandidates_empty|done|].
    apply elem_of_list_to_set.
    apply (getValidNumbers_spec _ (boardWithSourceToSimple g));
      [by apply covers_newSolver|by apply recorded_newSolver|done..|].
    split; [by apply (sol_digits i j)|]. intros i' j' Hi' Hj' Hc.
    pose proof sol_unique as Hu. rewrite unique_alt in Hu.
    apply (Hu i' j' i j x Hi' Hj' Hi Hj); [|by apply Hext|done].
    intros Heq. inversion Heq; subst. rewrite getCell_simple in Hc. congruence.
Qed.

(** Propagation never contradicts a completed board of its input. *)
Lemma autoSolveCells_agrees :
  wf_sboard g → extends (boardWithSourceToSimple g) sol →
  extends (boardWithSourceToSimple (autoSolveCells g)) sol.
Proof.
  intros Hwf Hext. destruct (autoSolveCells_state g) as [->|[Hvalid ->]]; [done|].
  destruct (compatible_mainLoop maxIterations0 (initialState g)) as [_ [Hres _]]; [|done].
  split; [by apply propInv_initialState|by apply agrees_initialState].
Qed.

End Passes.

End Soundness.

(** * The host component *)

Section Host.

Lemma unique_overwrite b r c v :
  wf_board b → r < 9 → c < 9 → unique b →
  (∀ i j, i < 9 → j < 9 → (i, j) ≠ (r, c) → peers (i, j) (r, c) →
     getCell b i j ≠ Some v) →
  unique (setCell b r c (Some v)).
Proof.
  intros Hwf Hr Hc Hu Hfree. rewrite unique_alt in *.
  intros i j i' j' s Hi Hj Hi' Hj' Hne Hs Hs'.
  destruct (decide ((r, c) = (i, j))) as [Heq|Hn1];
    destruct (decide ((r, c) = (i', j'))) as [Heq'|Hn2].
  - congruence.
  - inversion Heq; subst i j. rewrite getCell_setCell_eq in Hs by done.
    rewrite getCell_setCell_ne in Hs' by done. inversion Hs; subst s.
    assert (Hnp : ¬ peers (i', j') (r, c)).
    { intros Hp. apply (Hfree i' j' Hi' Hj'); [congruence|exact Hp|exact Hs']. }
    unfold peers in Hnp. cbn [fst snd] in Hnp. split_and!; intros Heq'; apply Hnp; auto.
  - inversion Heq'; subst i' j'. rewrite getCell_setCell_eq in Hs' by done.
    rewrite getCell_setCell_ne in Hs by done. inversion Hs'; subst s.
    assert (Hnp : ¬ peers (i, j) (r, c)).
    { intros Hp. apply (Hfree i j Hi Hj); [congruence|exact Hp|exact Hs]. }
    unfold peers in Hnp. cbn [fst snd] in Hnp. split_and!; intros Heq; apply Hnp; auto.
  - rewrite getCell_setCell_ne in Hs, Hs' by done. by apply (Hu i j i' j' s).
Qed.

Lemma squareCells_of_cell i j r c :
  r < 9 → c < 9 →
  (i, j) ∈ squareCells (r / 3 * 3) (c / 3 * 3) ↔
  i < 9 ∧ j < 9 ∧ getSquareIndex i j = getSquareIndex r c.
Proof.
  intros Hr Hc.
  assert (Hall : Forall (λ p, getSquareIndex p.1 p.2 / 3 * 3 = p.1 / 3 * 3
                              ∧ getSquareIndex p.1 p.2 `mod` 3 * 3 = p.2 / 3 * 3) rowMajor).
  { apply (bool_decide_unpack _). by vm_compute. }
  rewrite Forall_forall in Hall.
  destruct (Hall (r, c)) as [Hrow Hcol]; [by apply elem_of_rowMajor|].
  cbn [fst snd] in Hrow, Hcol. rewrite <- Hrow, <- Hcol.
  pose proof (getSquareIndex_lt r c Hr Hc) as Hk. split.
  - intros Hin. by apply squareCells_range in Hin.
  - intros (Hi & Hj & Heq). by apply squareCells_spec.
Qed.

Section ValidMove.

Variable parseInt : string → option Z.

(** What the model needs of [parseInt]: a digit from 1 to 9 parses to a
    number between 1 and 9. *)
Hypothesis parseInt_digit :
  ∀ d, d ∈ digits → ∃ n, parseInt d = Some n ∧ (1 ≤ n ≤ 9)%Z.

Lemma isValidMove_spec b r c v :
  r < 9 → c < 9 → v ∈ digits →
  isValidMove parseInt b r c v = true ↔
  ∀ i j, i < 9 → j < 9 → (i, j) ≠ (r, c) → peers (i, j) (r, c) →
    getValue b i j ≠ Some v.
Proof.
  intros Hr Hc Hv. unfold isValidMove.
  destruct (decide (v = "")) as [->|Hne].
  { exfalso. revert Hv. unfold digits. rewrite !elem_of_cons, elem_of_nil.
    intros [?|[?|[?|[?|[?|[?|[?|[?|[?|[]]]]]]]]]]; discriminate. }
  destruct (parseInt_digit v Hv) as (n & -> & Hn).
  rewrite !bool_decide_eq_false_2 by lia. cbn [orb].
  rewrite !andb_true_iff, !forallb_forall. split.
  - intros [[Hrow Hcol] Hsq] i j Hi Hj Hneq [Hp|[Hp|Hp]] Hval; cbn [fst snd] in Hp.
    + subst i. specialize (Hrow j). rewrite negb_true_iff, andb_false_iff in Hrow.
      destruct Hrow as [H|H]; [apply list_elem_of_In, elem_of_seq; lia| |];
        apply bool_decide_eq_false in H; [apply H; congruence|done].
    + subst j. specialize (Hcol i). rewrite negb_true_iff, andb_false_iff in Hcol.
      destruct Hcol as [H|H]; [apply list_elem_of_In, elem_of_seq; lia| |];
        apply bool_decide_eq_false in H; [apply H; congruence|done].
    + specialize (Hsq (i, j)). cbn beta iota in Hsq.
      rewrite negb_true_iff, andb_false_iff in Hsq.
      destruct Hsq as [H|H]; [by apply list_elem_of_In, squareCells_of_cell| |];
        apply bool_decide_eq_false in H; [|done].
      apply H. destruct (decide (i = r)); [right|left]; congruence.
  - intros Hfree. split_and!.
    + intros j Hj%list_elem_of_In%elem_of_seq. rewrite negb_true_iff, andb_false_iff.
      destruct (decide (j = c)) as [->|Hjc]; [left; by apply bool_decide_eq_false_2; auto|].
      right. apply bool_decide_eq_false_2. apply Hfree; [done|lia|congruence|by left].
    + intros i Hi%list_elem_of_In%elem_of_seq. rewrite negb_true_iff, andb_false_iff.
      destruct (decide (i = r)) as [->|Hir]; [left; by apply bool_decide_eq_false_2; auto|].
      right. apply bool_decide_eq_false_2. apply Hfree; [lia|done|congruence|by right; left].
    + intros [i j] Hin%list_elem_of_In. rewrite negb_true_iff, andb_false_iff.
      apply squareCells_of_cell in Hin as (Hi & Hj & Hk); [|done..].
      destruct (decide ((i, j) = (r, c))) as [Heq|Hneq].
      * inversion Heq; subst. left. apply bool_decide_eq_false_2. intros [?|?]; done.
      * right. apply bool_decide_eq_false_2. apply Hfree; try done. by right; right.
Qed.

(** On a board without duplicate, [isValidMove] accepts a digit exactly
    when the board with that digit written in is without duplicate. *)
Lemma isValidMove_isValidBoard b r c v :
  wf_sboard b → unique (boardWithSourceToSimple b) → r < 9 → c < 9 → v ∈ digits →
  isValidMove parseInt b r c v
  = isValidBoard
      (boardWithSourceToSimple (setSourceCell b r c (mkCell (Some v) (Some user)))).
Proof.
  intros Hwf Hu Hr Hc Hv. pose proof (wf_simple b Hwf) as Hwfs.
  rewrite simple_setSourceCell. cbn [value].
  apply eq_true_iff_eq. rewrite isValidMove_spec, isValidBoard_true by done. split.
  - intros Hfree. apply unique_overwrite; try done.
    intros i j Hi Hj Hne Hp. rewrite getCell_simple. by apply Hfree.
  - intros Hu' i j Hi Hj Hne Hp Hval. rewrite unique_alt in Hu'.
    destruct (Hu' i j r c v Hi Hj Hr Hc Hne) as (H1 & H2 & H3).
    + rewrite getCell_setCell_ne by congruence. by rewrite getCell_simple.
    + by apply getCell_setCell_eq.
    + destruct Hp as [?|[?|?]]; done.
Qed.

End ValidMove.

(** ** Edits *)

Lemma handleCellChange_cases r c v prev :
  handleCellChange r c v prev = prev
  ∨ (∃ cell, getSourceCell prev r c = Some cell ∧ source cell ≠ Some system
       ∧ ((v = "" ∧ handleCellChange r c v prev = setSourceCell prev r c (mkCell None None))
          ∨ (v ∈ digits
             ∧ handleCellChange r c v prev
               = setSourceCell prev r c (mkCell (Some v) (Some user))))).
Proof.
  unfold handleCellChange.
  destruct (bool_decide (v = "") || bool_decide (v ∈ digits)) eqn:Hok; [|by left].
  destruct (getSourceCell prev r c) as [cell|]; [|by left].
  destruct (decide (source cell = Some system)) as [Hsys|Hsys]; [by left|].
  right. exists cell. split; [done|]. split; [done|].
  destruct (decide (v = "")) as [Hv|Hv]; [by left|right]. split; [|done].
  apply orb_true_iff in Hok as [Hok|Hok]; apply bool_decide_eq_true in Hok; done.
Qed.

Lemma wf_handleCellChange r c v prev : wf_sboard prev → wf_sboard (handleCellChange r c v prev).
Proof.
  intros Hwf. destruct (handleCellChange_cases r c v prev)
    as [->|(cell & _ & _ & [[_ ->]|[_ ->]])]; [done|by apply wf_setSourceCell..].
Qed.

Lemma getSourceCell_set_cases b r c cell i j :
  getSourceCell (setSourceCell b r c cell) i j = getSourceCell b i j
  ∨ ((i, j) = (r, c) ∧ getSourceCell (setSourceCell b r c cell) i j = Some cell).
Proof.
  destruct (decide ((r, c) = (i, j))) as [Heq|Hne]; [|left; by apply getSourceCell_set_ne].
  inversion Heq; subst i j. unfold getSourceCell, setSourceCell.
  rewrite list_lookup_alter_eq. destruct (b !! r) as [row0|]; simpl; [|by left].
  destruct (decide (c < length row0)).
  - right. by rewrite list_lookup_insert_eq.
  - left. by rewrite list_insert_ge by lia.
Qed.

(** An edit leaves every other cell and every cell tagged [system] as it
    is. *)
Lemma handleCellChange_frame r c v prev i j cell :
  getSourceCell prev i j = Some cell →
  (i, j) ≠ (r, c) ∨ source cell = Some system →
  getSourceCell (handleCellChange r c v prev) i j = Some cell.
Proof.
  intros Hcell Hor.
  destruct (handleCellChange_cases r c v prev)
    as [->|(cell0 & Hc0 & Hsys & [[_ ->]|[_ ->]])]; [done| |].
  - destruct (getSourceCell_set_cases prev r c (mkCell None None) i j) as [->|[Heq _]];
      [done|]. inversion Heq; subst. destruct Hor; congruence.
  - destruct (getSourceCell_set_cases prev r c (mkCell (Some v) (Some user)) i j)
      as [->|[Heq _]]; [done|]. inversion Heq; subst. destruct Hor; congruence.
Qed.

(** ** The board of the component *)

Lemma boardOK_initializeBoard : boardOK initializeBoard.
Proof.
  split; [apply wf_sboard_check; by vm_compute|].
  intros i j cell Hi Hj. unfold getSourceCell, initializeBoard.
  rewrite lookup_replicate_2 by done. rewrite lookup_replicate_2 by done.
  intros [= <-]. done.
Qed.

Lemma boardOK_handleCellChange r c v prev :
  boardOK prev → boardOK (handleCellChange r c v prev).
Proof.
  intros [Hwf Hok]. split; [by apply wf_handleCellChange|].
  intros i j cell Hi Hj.
  destruct (handleCellChange_cases r c v prev)
    as [->|(cell0 & Hc0 & Hsys & [[_ ->]|[Hv ->]])]; [by apply Hok| |].
  - destruct (getSourceCell_set_cases prev r c (mkCell None None) i j) as [->|[_ ->]];
      [by apply Hok|]. intros [= <-]. done.
  - destruct (getSourceCell_set_cases prev r c (mkCell (Some v) (Some user)) i j)
      as [->|[_ ->]]; [by apply Hok|]. intros [= <-]. done.
Qed.

Lemma boardOK_autoSolveCells b : boardOK b → boardOK (autoSolveCells b).
Proof.
  intros [Hwf Hok]. split; [by apply wf_autoSolveCells|].
  intros i j cell Hi Hj Hcell.
  destruct (fills_autoSolveCells b Hwf i j Hi Hj) as [Hsame|[He [v Hnew]]].
  - rewrite Hsame in Hcell. by apply (Hok i j).
  - rewrite Hnew in Hcell. inversion Hcell; subst cell.
    pose proof (getValue_getSourceCell _ _ _ _ Hnew) as Hval. cbn [value] in Hval.
    pose proof (autoSolveCells_valid b i j v Hwf Hi Hj He Hval) as Hin.
    apply elem_of_getValidNumbers in Hin as [Hd _]. exact Hd.
Qed.

Lemma boardOK_hostStep b e : boardOK b → boardOK (hostStep b e).
Proof.
  intros Hok. destruct e as [r c v| |]; cbn [hostStep].
  - by apply boardOK_handleCellChange.
  - by apply boardOK_autoSolveCells.
  - apply boardOK_initializeBoard.
Qed.

Lemma boardOK_hostRun es : ∀ b, boardOK b → boardOK (hostRun b es).
Proof.
  unfold hostRun. induction es as [|e es IH]; intros b Hok; [done|].
  cbn [foldl]. by apply IH, boardOK_hostStep.
Qed.

(** A filled cell tagged [system] stays as it is until the board is
    cleared. *)
Lemma system_cell_kept es : ∀ b i j cell,
  wf_sboard b → i < 9 → j < 9 → ClearBoard ∉ es →
  getSourceCell b i j = Some cell → source cell = Some system → value cell ≠ None →
  getSourceCell (hostRun b es) i j = Some cell.
Proof.
  unfold hostRun. induction es as [|e es IH]; intros b i j cell Hwf Hi Hj Hclear Hcell Hsys Hval;
    [done|].
  cbn [foldl]. assert (Hrest : ClearBoard ∉ es) by set_solver.
  destruct e as [r c v| |]; cbn [hostStep]; [| |set_solver].
  - apply IH; try done; [by apply wf_handleCellChange|].
    apply handleCellChange_frame; auto.
  - apply IH; try done; [by apply wf_autoSolveCells|].
    destruct (fills_autoSolveCells b Hwf i j Hi Hj) as [->|[He _]]; [done|].
    rewrite (getValue_getSourceCell _ _ _ _ Hcell) in He. done.
Qed.

(** ** Navigation *)

Lemma handleKeyDown_range k r c r' c' :
  r < 9 → c < 9 → handleKeyDown k r c = Some (r', c') → r' < 9 ∧ c' < 9.
Proof.
  intros Hr Hc. unfold handleKeyDown. repeat case_decide; intros [= <- <-].
  all: repeat match goal with |- context [?a <? ?b] => destruct (Nat.ltb_spec a b) end.
  all: lia.
Qed.

Lemma handleKeyDown_opposite r c :
  r < 9 → c < 9 →
  (∀ p, handleKeyDown "ArrowUp" r c = Some p → handleKeyDown "ArrowDown" p.1 p.2 = Some (r, c))
  ∧ (∀ p, handleKeyDown "ArrowDown" r c = Some p → handleKeyDown "ArrowUp" p.1 p.2 = Some (r, c))
  ∧ (∀ p, handleKeyDown "ArrowLeft" r c = Some p →
       handleKeyDown "ArrowRight" p.1 p.2 = Some (r, c))
  ∧ (∀ p, handleKeyDown "ArrowRight" r c = Some p →
       handleKeyDown "ArrowLeft" p.1 p.2 = Some (r, c)).
Proof.
  intros Hr Hc. unfold handleKeyDown. split_and!; intros p; repeat case_decide; try done;
    intros [= <-]; cbn [fst snd]; f_equal; f_equal.
  all: repeat match goal with
         | |- context [?a <? ?b] => destruct (Nat.ltb_spec a b)
         | H : context [?a <? ?b] |- _ => destruct (Nat.ltb_spec a b)
         end.
  all: lia.
Qed.

(** ** Candidate hints *)

Lemma calculateCandidates_lookup b i j :
  i < 9 → j < 9 →
  calculateCandidates b !! key i j
  = if isValidBoard (boardWithSourceToSimple b) then
      match getValue b i j with
      | None => Some (getValidNumbers (newSolver (boardWithSourceToSimple b)) i j)
      | Some _ => None
      end
    else None.
Proof.
  intros Hi Hj. unfold calculateCandidates.
  destruct (isValidBoard (boardWithSourceToSimple b)); cbn [negb]; [|apply lookup_empty].
  cbv zeta. generalize (newSolver (boardWithSourceToSimple b)). intros this.
  assert (Hgen : ∀ L (m : gmap string (list string)),
            (∀ p, p ∈ L → p.1 < 9 ∧ p.2 < 9) →
            foldl (λ m '(i, j),
                     match getValue b i j with
                     | None => <[key i j := getValidNumbers this i j]> m
                     | Some _ => m
                     end) m L !! key i j
            = match getValue b i j with
              | None => if decide ((i, j) ∈ L) then Some (getValidNumbers this i j)
                        else m !! key i j
              | Some _ => m !! key i j
              end).
  { induction L as [|[i0 j0] L IH]; intros m Hrng; cbn [foldl].
    - destruct (getValue b i j); [done|]. case_decide as Hin; [|done].
      by apply elem_of_nil in Hin.
    - destruct (Hrng (i0, j0)) as [Hi0 Hj0]; [set_solver|]. cbn [fst snd] in *.
      rewrite IH by (intros; apply Hrng; set_solver).
      destruct (decide ((i0, j0) = (i, j))) as [Heq|Hne].
      + inversion Heq; subst i0 j0. destruct (getValue b i j) eqn:He; [done|].
        rewrite lookup_insert_eq. repeat case_decide; try done; set_solver.
      + assert (Hk : key i0 j0 ≠ key i j) by (intros Hk; apply key_inj in Hk; done).
        assert (Hm : (match getValue b i0 j0 with
                      | None => <[key i0 j0 := getValidNumbers this i0 j0]> m
                      | Some _ => m
                      end) !! key i j = m !! key i j).
        { destruct (getValue b i0 j0); [done|]. by rewrite lookup_insert_ne. }
        rewrite Hm. destruct (getValue b i j); [done|].
        repeat case_decide; try done; set_solver. }
  rewrite Hgen by (intros [i' j'] Hin; by apply elem_of_rowMajor).
  rewrite lookup_empty. destruct (getValue b i j); [done|].
  rewrite decide_True; [done|]. by apply elem_of_rowMajor.
Qed.

End Host.

(** * More on the search: the symbols it writes *)

Section SearchMore.

Lemma backtrack_digits fuel : ∀ this this',
  consistent this → backtrack fuel this = Some (true, this') →
  ∀ i j s, i < 9 → j < 9 → getCell (board this) i j = None →
    getCell (board this') i j = Some s → s ∈ digits.
Proof.
  induction fuel as [|fuel IH]; intros this this' Hcons Hb i j s Hi Hj He Hs; [done|].
  cbn [backtrack] in Hb. destruct (findBestCell this) as [t|] eqn:Hf.
  - apply findBestCell_Some in Hf as (Hr & Hc & Het & Ho).
    assert (Hopts : ∀ num, num ∈ options t →
              num ∈ digits ∧ num ∉ usedAt this (row t) (col t)).
    { intros num Hin. rewrite Ho in Hin. by apply elem_of_getValidNumbers in Hin. }
    clear Ho. revert Hb Hopts. generalize (options t). intros opts.
    induction opts as [|num rest IHo]; intros Hb Hopts; cbn [tryOptions] in Hb.
    + congruence.
    + destruct (Hopts num) as [Hd Hnum]; [set_solver|].
      pose proof (consistent_place this _ _ _ Hcons Hr Hc Hnum) as Hcp.
      destruct (backtrack fuel (place this (row t) (col t) num)) as [[[] this1]|] eqn:Hrec;
        [| |congruence].
      * inversion Hb; subst this1.
        destruct (decide ((i, j) = (row t, col t))) as [Heq|Hne].
        -- inversion Heq; subst i j.
           apply (backtrack_true _ _ _ Hcp) in Hrec as (_ & _ & Hext).
           specialize (Hext (row t) (col t) num Hr Hc).
           rewrite board_place, getCell_setCell_eq in Hext;
             [|by destruct Hcons as [[? _] _]|exact Hr|exact Hc].
           rewrite Hext in Hs by reflexivity. by inversion Hs; subst.
        -- apply (IH _ _ Hcp Hrec i j s Hi Hj); [|exact Hs].
           rewrite board_place, getCell_setCell_ne; [exact He|]. congruence.
      * apply backtrack_false in Hrec; [|apply wf_place; by destruct Hcons]. subst this1.
        rewrite unplace_place in Hb;
          [|by destruct Hcons|exact Hr|exact Hc|exact Het|exact Hnum].
        apply IHo; [exact Hb|]. intros. apply Hopts. set_solver.
  - inversion Hb; subst this'. congruence.
Qed.

Lemma solveWith_solution fuel b g' :
  wf_board b → unique b → solveWith fuel b = Some (Some g') → solutionOf b g'.
Proof.
  intros Hwf Hu Hs.
  destruct (solveWith_sound fuel b g' Hwf Hu Hs) as (Hwf' & Hfull & Hext & Hu').
  split_and!; [exact Hwf'|exact Hfull|exact Hu'|exact Hext|].
  unfold solveWith in Hs.
  destruct (backtrack fuel (newSolver b)) as [[[] this]|] eqn:Hb; try congruence.
  inversion Hs; subst g'. intros i j s Hi Hj He Hg.
  apply (backtrack_digits _ _ _ (consistent_newSolver b Hwf Hu) Hb i j s Hi Hj); [|exact Hg].
  by rewrite board_newSolver.
Qed.

Lemma solveWith_decides fuel b :
  wf_board b → unique b → (∃ res, solveWith fuel b = Some res) →
  (∀ g', solveWith fuel b = Some (Some g') → solutionOf b g')
  ∧ (solveWith fuel b = Some None ↔ ¬ ∃ sol, solutionOf b sol).
Proof.
  intros Hwf Hu Htot. split.
  - intros g' Hs. exact (solveWith_solution fuel b g' Hwf Hu Hs).
  - split.
    + intros Hs [sol Hsol]. exact (solveWith_complete fuel b Hwf Hs sol Hsol).
    + intros Hno. destruct Htot as [[g'|] Hres]; [|exact Hres].
      exfalso. apply Hno. exists g'. exact (solveWith_solution fuel b g' Hwf Hu Hres).
Qed.

End SearchMore.

(** * More checks by evaluation *)

Section ChecksMore.

Lemma extends_check (b b' : SudokuBoard) :
  forallb (λ p, match getCell b p.1 p.2 with
                | Some s => bool_decide (getCell b' p.1 p.2 = Some s)
                | None => true
                end) rowMajor = true →
  extends b b'.
Proof.
  intros H i j s Hi Hj Hc. rewrite forallb_forall in H.
  specialize (H (i, j)). cbn [fst snd] in H. rewrite Hc in H.
  apply (bool_decide_eq_true_1 _). apply H. apply list_elem_of_In. by apply elem_of_rowMajor.
Qed.

Lemma digitsOnly_check (b : SudokuBoard) :
  forallb (λ p, match getCell b p.1 p.2 with
                | Some s => bool_decide (s ∈ digits)
                | None => true
                end) rowMajor = true →
  digitsOnly b.
Proof.
  intros H i j s Hi Hj Hc. rewrite forallb_forall in H.
  specialize (H (i, j)). cbn [fst snd] in H. rewrite Hc in H.
  apply (bool_decide_eq_true_1 _). apply H. apply list_elem_of_In. by apply elem_of_rowMajor.
Qed.

Lemma parseDigit_digit d :
  d ∈ digits → ∃ n, parseDigit d = Some n ∧ (1 ≤ n ≤ 9)%Z.
Proof.
  intros Hd. unfold digits in Hd.
  repeat (apply elem_of_cons in Hd as [->|Hd];
          [eexists; split; [vm_compute; reflexivity|lia]|]).
  by apply elem_of_nil in Hd.
Qed.

Lemma empty_not_digit : "" ∉ digits.
Proof. apply (bool_decide_unpack _). by vm_compute. Qed.

Lemma handleCellChange_digit r c v prev cell :
  getSourceCell prev r c = Some cell → source cell ≠ Some system → v ∈ digits →
  handleCellChange r c v prev = setSourceCell prev r c (mkCell (Some v) (Some user)).
Proof.
  intros Hcell Hsrc Hv. unfold handleCellChange. rewrite Hcell.
  rewrite (bool_decide_eq_true_2 (v ∈ digits) Hv), orb_true_r.
  destruct (decide (source cell = Some system)) as [|_]; [done|].
  destruct (decide (v = "")) as [->|_]; [|done]. by apply empty_not_digit in Hv.
Qed.

Lemma setBoardCell_outside this r c v :
  wf_board (board this) → 9 ≤ r ∨ 9 ≤ c → setBoardCell this r c v = this.
Proof.
  intros Hwf Hout. destruct this as [b R C S]. unfold setBoardCell.
  cbn [board _rows _cols _squares] in *. f_equal.
  apply board_ext; [by apply wf_setCell|exact Hwf|].
  intros i j Hi Hj. apply getCell_setCell_ne. intros [= -> ->]. lia.
Qed.

End ChecksMore.

(** * Progress: the first naked single is filled *)

Section Progress.

Lemma sticky_refl s : sticky s s.
Proof. by intros H. Qed.

Lemma sticky_trans s1 s2 s3 : sticky s1 s2 → sticky s2 s3 → sticky s1 s3.
Proof. unfold sticky. auto. Qed.

Lemma sticky_raised s s' : hasChanges s' = true → sticky s s'.
Proof. by intros H _. Qed.

Lemma sticky_foldl {A} (f : AutoState → A → AutoState) (l : list A) :
  (∀ s x, sticky s (f s x)) → ∀ s, sticky s (foldl f s l).
Proof.
  intros Hf. induction l as [|x l IH]; intros s; simpl; [apply sticky_refl|].
  eapply sticky_trans; [apply Hf|apply IH].
Qed.

Lemma sticky_pruneCandidate r c num s : sticky s (pruneCandidate r c num s).
Proof.
  unfold pruneCandidate. destruct (getValue (newBoard s) r c); [apply sticky_refl|].
  unfold removeCandidate. destruct (candidates s !! key r c) as [C|]; [|apply sticky_refl].
  case_bool_decide; [by apply sticky_raised|apply sticky_refl].
Qed.

Lemma sticky_updateCell r c v s : sticky s (updateCell r c v s).
Proof. apply sticky_raised, hasChanges_updateCell. Qed.

Lemma sticky_nakedSingles s : sticky s (nakedSingles s).
Proof.
  unfold nakedSingles. apply sticky_foldl. intros s1 [i j].
  destruct (getValue _ _ _); [apply sticky_refl|].
  destruct (candidates s1 !! _); [|apply sticky_refl].
  case_bool_decide; [|apply sticky_refl].
  destruct (elements _ !! 0); [apply sticky_updateCell|apply sticky_refl].
Qed.

Lemma sticky_hiddenRows s : sticky s (hiddenRows s).
Proof.
  unfold hiddenRows. apply sticky_foldl. intros s1 r. apply sticky_foldl. intros s2 num.
  case_bool_decide; [apply sticky_refl|]. cbv zeta.
  destruct (length _ =? 1); [|apply sticky_refl].
  destruct (filter _ _ !! 0); [apply sticky_updateCell|apply sticky_refl].
Qed.

Lemma sticky_hiddenCols s : sticky s (hiddenCols s).
Proof.
  unfold hiddenCols. apply sticky_foldl. intros s1 r. apply sticky_foldl. intros s2 num.
  case_bool_decide; [apply sticky_refl|]. cbv zeta.
  destruct (length _ =? 1); [|apply sticky_refl].
  destruct (filter _ _ !! 0); [apply sticky_updateCell|apply sticky_refl].
Qed.

Lemma sticky_hiddenSquares s : sticky s (hiddenSquares s).
Proof.
  unfold hiddenSquares. apply sticky_foldl. intros s1 r. cbv zeta.
  apply sticky_foldl. intros s2 num.
  case_bool_decide; [apply sticky_refl|].
  destruct (length _ =? 1); [|apply sticky_refl].
  destruct (filter _ _ !! 0) as [[]|]; [apply sticky_updateCell|apply sticky_refl].
Qed.

Lemma sticky_reduceRow k num s : sticky s (reduceRow k num s).
Proof.
  unfold reduceRow. cbv zeta. case_bool_decide; [|apply sticky_refl].
  destruct (elements _ !! 0); [|apply sticky_refl].
  apply sticky_foldl. intros s3 c.
  destruct (_ && _); [apply sticky_refl|apply sticky_pruneCandidate].
Qed.

Lemma sticky_reduceCol k num s : sticky s (reduceCol k num s).
Proof.
  unfold reduceCol. cbv zeta. case_bool_decide; [|apply sticky_refl].
  destruct (elements _ !! 0); [|apply sticky_refl].
  apply sticky_foldl. intros s3 c.
  destruct (_ && _); [apply sticky_refl|apply sticky_pruneCandidate].
Qed.

Lemma sticky_boxLineReduction s : sticky s (boxLineReduction s).
Proof.
  unfold boxLineReduction. apply sticky_foldl. intros s1 k. apply sticky_foldl.
  intros s2 num. case_bool_decide; [apply sticky_refl|].
  eapply sticky_trans; [apply sticky_reduceRow|apply sticky_reduceCol].
Qed.

Lemma sticky_iteration s : sticky s (iteration s).
Proof.
  intros H. unfold iteration.
  apply sticky_boxLineReduction, sticky_hiddenSquares, sticky_hiddenCols,
    sticky_hiddenRows, sticky_nakedSingles.
  exact H.
Qed.

Lemma sticky_mainLoop n : ∀ s, sticky s (mainLoop n s).2.
Proof.
  induction n as [|n IH]; intros s; cbn [mainLoop]; [apply sticky_refl|].
  destruct (iterationChanges s); [|apply sticky_refl].
  eapply sticky_trans; [apply sticky_iteration|apply IH].
Qed.

(** A filled cell stays as it is through the loop. *)

Lemma newBoard_updateCell r c v s :
  newBoard (updateCell r c v s)
  = setSourceCell (newBoard s) r c (mkCell (Some v) (Some system)).
Proof.
  rewrite updateCell_unfold.
  lazymatch goal with
  | |- context [removeList v (peerCells r c) ?s0] =>
      destruct (pruned_removeList v (peerCells r c) s0) as (Hnb & _ & _)
  end.
  exact Hnb.
Qed.

Lemma holds_pruned i j cell s s' : holds i j cell s → pruned s s' → holds i j cell s'.
Proof. intros H (Hnb & _). unfold holds. rewrite Hnb. exact H. Qed.

Lemma holds_updateCell i j cell s r c v :
  value cell ≠ None → holds i j cell s → getValue (newBoard s) r c = None →
  holds i j cell (updateCell r c v s).
Proof.
  intros Hv H He. unfold holds. rewrite newBoard_updateCell, getSourceCell_set_ne; [exact H|].
  intros [= -> ->]. apply Hv. rewrite <- (getValue_getSourceCell _ _ _ _ H). exact He.
Qed.

Lemma holds_iteration_rest i j cell s :
  value cell ≠ None → holds i j cell s →
  holds i j cell (boxLineReduction (hiddenSquares (hiddenCols (hiddenRows s)))).
Proof.
  intros Hv H.
  assert (Hp : ∀ s s', holds i j cell s → pruned s s' → holds i j cell s')
    by apply holds_pruned.
  assert (Hu : ∀ s r c v C, holds i j cell s → r < 9 → c < 9 →
            getValue (newBoard s) r c = None → candidates s !! key r c = Some C → v ∈ C →
            holds i j cell (updateCell r c v s)).
  { intros s1 r c v C H1 _ _ He _ _. by apply holds_updateCell. }
  eapply Hp; [|apply pruned_boxLineReduction].
  apply (hiddenSquares_ind _ Hu), (hiddenCols_ind _ Hu), (hiddenRows_ind _ Hu), H.
Qed.

Lemma holds_mainLoop i j cell n s :
  value cell ≠ None → holds i j cell s → holds i j cell (mainLoop n s).2.
Proof.
  intros Hv. apply (mainLoop_ind (holds i j cell)).
  - apply holds_pruned.
  - intros s1 r c v C H1 _ _ He _ _. by apply holds_updateCell.
Qed.

(** Technique 1, step by step. *)

Lemma nakedSingles_steps s : nakedSingles s = foldl nakedStep s rowMajor.
Proof. reflexivity. Qed.

Lemma nakedStep_keeps i j cell s p :
  value cell ≠ None →
  holds i j cell s ∧ hasChanges s = true →
  holds i j cell (nakedStep s p) ∧ hasChanges (nakedStep s p) = true.
Proof.
  intros Hv [H Hc]. destruct p as [r c]. unfold nakedStep.
  destruct (getValue (newBoard s) r c) eqn:He; [by split|].
  destruct (candidates s !! key r c) as [C|]; [|by split].
  case_bool_decide; [|by split].
  destruct (elements C !! 0) as [v|]; [|by split].
  split; [by apply holds_updateCell|apply hasChanges_updateCell].
Qed.

Lemma foldl_fixed {A S} (f : S → A → S) (l : list A) (s : S) :
  (∀ x, x ∈ l → f s x = s) → foldl f s l = s.
Proof.
  induction l as [|x l IH]; intros H; cbn [foldl]; [done|].
  rewrite (H x) by set_solver. apply IH. intros y Hy. apply H. set_solver.
Qed.

Lemma rowMajor_before l1 p l2 q :
  rowMajor = l1 ++ p :: l2 → q ∈ l1 → q.1 < 9 ∧ q.2 < 9 ∧ before q p.
Proof.
  intros Hsplit Hq. pose proof rowMajor_sorted as Hs. rewrite Hsplit in Hs.
  apply StronglySorted_app in Hs as (H12 & _ & _).
  assert (Hin : q ∈ rowMajor) by (rewrite Hsplit; set_solver).
  destruct q as [i j]. apply elem_of_rowMajor in Hin as [Hi Hj].
  split_and!; [exact Hi|exact Hj|]. apply (H12 (i, j) p); [exact Hq|set_solver].
Qed.

Lemma nakedSingles_first s i j v C :
  wf_sboard (newBoard s) → i < 9 → j < 9 →
  getValue (newBoard s) i j = None →
  candidates s !! key i j = Some C → size C = 1 → v ∈ C →
  (∀ i' j' C', i' < 9 → j' < 9 → before (i', j') (i, j) →
     getValue (newBoard s) i' j' = None → candidates s !! key i' j' = Some C' →
     size C' ≠ 1) →
  holds i j (mkCell (Some v) (Some system)) (nakedSingles s)
  ∧ hasChanges (nakedSingles s) = true.
Proof.
  intros Hwf Hi Hj He HC Hsize Hv Hbefore. rewrite nakedSingles_steps.
  assert (Hin : (i, j) ∈ rowMajor) by by apply elem_of_rowMajor.
  apply list_elem_of_split in Hin as (l1 & l2 & Hsplit). rewrite Hsplit.
  rewrite foldl_app. cbn [foldl].
  rewrite (foldl_fixed nakedStep l1 s).
  - assert (Hfire : nakedStep s (i, j) = updateCell i j v s).
    { unfold nakedStep. rewrite He, HC. rewrite bool_decide_eq_true_2 by exact Hsize.
      destruct (elements C !! 0) as [t|] eqn:Ht.
      - assert (Heq : v = t); [|by rewrite Heq].
        apply (size_singleton_inv C); [exact Hsize|exact Hv|].
        apply elem_of_elements. by eapply list_elem_of_lookup_2.
      - apply lookup_ge_None in Ht. unfold size, set_size in Hsize. simpl in Hsize. lia. }
    rewrite Hfire.
    apply (foldl_inv (λ s', holds i j (mkCell (Some v) (Some system)) s'
                            ∧ hasChanges s' = true)).
    + intros s' p _ Hs'. by apply nakedStep_keeps.
    + split; [|apply hasChanges_updateCell].
      unfold holds. rewrite newBoard_updateCell. by apply getSourceCell_set_eq.
  - intros [i' j'] Hq. destruct (rowMajor_before _ _ _ _ Hsplit Hq) as (Hi' & Hj' & Hb).
    cbn [fst snd] in Hi', Hj'. unfold nakedStep.
    destruct (getValue (newBoard s) i' j') eqn:He'; [done|].
    destruct (candidates s !! key i' j') as [C'|] eqn:HC'; [|done].
    rewrite bool_decide_eq_false_2; [done|]. by apply (Hbefore i' j' C').
Qed.

Lemma mainLoop_step n s :
  iterationChanges s = true → mainLoop (S n) s = mainLoop n (iteration s).
Proof. intros H. cbn [mainLoop]. rewrite H. reflexivity. Qed.

Lemma size_valid this i j :
  size (list_to_set (C := gset string) (getValidNumbers this i j))
  = length (getValidNumbers this i j).
Proof.
  apply size_list_to_set. unfold getValidNumbers. apply NoDup_filter.
  apply (bool_decide_unpack _). by vm_compute.
Qed.

Lemma first_single_round s i j v C :
  wf_sboard (newBoard s) → i < 9 → j < 9 →
  getValue (newBoard s) i j = None →
  candidates s !! key i j = Some C → size C = 1 → v ∈ C →
  (∀ i' j' C', i' < 9 → j' < 9 → before (i', j') (i, j) →
     getValue (newBoard s) i' j' = None → candidates s !! key i' j' = Some C' →
     size C' ≠ 1) →
  holds i j (mkCell (Some v) (Some system)) (round s) ∧ hasChanges (round s) = true.
Proof.
  intros Hwf Hi Hj He HC Hsize Hv Hbefore.
  destruct (nakedSingles_first s i j v C Hwf Hi Hj He HC Hsize Hv Hbefore) as [Hh Hc].
  unfold round. split.
  - apply holds_iteration_rest; [discriminate|exact Hh].
  - apply sticky_boxLineReduction, sticky_hiddenSquares, sticky_hiddenCols,
      sticky_hiddenRows. exact Hc.
Qed.

Lemma first_single_state g i j v :
  wf_sboard g → i < 9 → j < 9 → getValue g i j = None →
  getValidNumbers (newSolver (boardWithSourceToSimple g)) i j = [v] →
  (∀ i' j', i' < 9 → j' < 9 → before (i', j') (i, j) → getValue g i' j' = None →
     length (getValidNumbers (newSolver (boardWithSourceToSimple g)) i' j') ≠ 1) →
  holds i j (mkCell (Some v) (Some system)) (mainLoop maxIterations0 (initialState g)).2
  ∧ hasChanges (mainLoop maxIterations0 (initialState g)).2 = true.
Proof.
  intros Hwf Hi Hj He Hone Hbefore.
  unfold maxIterations0. rewrite (mainLoop_step 9 (initialState g)) by reflexivity.
  assert (Hit : holds i j (mkCell (Some v) (Some system)) (iteration (initialState g))
                ∧ hasChanges (iteration (initialState g)) = true).
  { unfold iteration.
    apply (first_single_round _ i j v
             (list_to_set (getValidNumbers (newSolver (boardWithSourceToSimple g)) i j)));
      cbn [newBoard candidates solver hasChanges iterationChanges];
      rewrite ?newBoard_initialState, ?candidates_initialState.
    - exact Hwf.
    - exact Hi.
    - exact Hj.
    - exact He.
    - apply initializeCandidates_empty; [exact Hi|exact Hj|exact He].
    - rewrite size_valid, Hone. reflexivity.
    - rewrite Hone. apply elem_of_list_to_set, list_elem_of_singleton. reflexivity.
    - intros i' j' C' Hi' Hj' Hb He' HC'.
      rewrite (initializeCandidates_empty _ g i' j' Hi' Hj' He') in HC'.
      apply (inj Some) in HC'. rewrite <- HC', size_valid.
      exact (Hbefore i' j' Hi' Hj' Hb He'). }
  destruct Hit as [Hh Hc]. split.
  - apply holds_mainLoop; [discriminate|exact Hh].
  - apply sticky_mainLoop. exact Hc.
Qed.

Lemma first_single_filled g i j v :
  wf_sboard g → isValidBoard (boardWithSourceToSimple g) = true →
  i < 9 → j < 9 → getValue g i j = None →
  getValidNumbers (newSolver (boardWithSourceToSimple g)) i j = [v] →
  (∀ i' j', i' < 9 → j' < 9 → before (i', j') (i, j) → getValue g i' j' = None →
     length (getValidNumbers (newSolver (boardWithSourceToSimple g)) i' j') ≠ 1) →
  getSourceCell (autoSolveCells g) i j = Some (mkCell (Some v) (Some system)).
Proof.
  intros Hwf Hvalid Hi Hj He Hone Hbefore.
  destruct (first_single_state g i j v Hwf Hi Hj He Hone Hbefore) as [Hh Hc].
  unfold autoSolveCells. rewrite Hvalid. cbn [negb]. cbv zeta.
  rewrite Hc. exact Hh.
Qed.

(** ** The propagator against the search and against other completions *)

Lemma solveWith_agrees fuel g sol :
  wf_sboard g → unique (boardWithSourceToSimple g) →
  digitsOnly (boardWithSourceToSimple g) →
  solveWith fuel (boardWithSourceToSimple g) = Some (Some sol) →
  extends (boardWithSourceToSimple (autoSolveCells g)) sol.
Proof.
  intros Hwf Hu Hd Hs.
  destruct (solveWith_solution fuel _ sol (wf_simple g Hwf) Hu Hs)
    as (_ & Hfull & Hus & Hext & Hnew).
  apply (autoSolveCells_agrees sol Hfull Hus); [|exact Hwf|exact Hext].
  intros i j x Hi Hj Hx.
  destruct (getCell (boardWithSourceToSimple g) i j) as [y|] eqn:Hy.
  - pose proof (Hext i j y Hi Hj Hy) as Hxy. rewrite Hx in Hxy. inversion Hxy; subst y.
    by apply (Hd i j x).
  - by apply (Hnew i j x).
Qed.

Lemma autoSolveCells_only_completion g sol :
  wf_sboard g → full (boardWithSourceToSimple (autoSolveCells g)) →
  wf_board sol → full sol → unique sol → digitsOnly sol →
  extends (boardWithSourceToSimple g) sol →
  sol = boardWithSourceToSimple (autoSolveCells g).
Proof.
  intros Hwf Hdone Hwfs Hfull Hu Hd Hext.
  pose proof (autoSolveCells_agrees sol Hfull Hu Hd g Hwf Hext) as Hagree.
  symmetry. apply board_ext; [by apply wf_simple, wf_autoSolveCells|exact Hwfs|].
  intros i j Hi Hj.
  destruct (getCell (boardWithSourceToSimple (autoSolveCells g)) i j) as [x|] eqn:Hx.
  - symmetry. by apply Hagree.
  - by destruct (Hdone i j Hi Hj).
Qed.

End Progress.

(** * A second call on the result of a call that reached a fixed point *)

Section FixedPoint.

(** ** What a round that changes nothing says about its state *)

Lemma quiet_foldl_steps {A} (f : AutoState → A → AutoState) (l : list A) :
  (∀ s x, quiet s (f s x)) → ∀ s,
  iterationChanges (foldl f s l) = false → ∀ x, x ∈ l → f s x = s.
Proof.
  intros Hq. induction l as [|y l IH]; intros s Hflag x Hx; [by apply elem_of_nil in Hx|].
  cbn [foldl] in Hflag.
  destruct (quiet_foldl f l Hq (f s y)) as [_ Hsame]. specialize (Hsame Hflag).
  rewrite Hsame in Hflag. destruct (Hq s y) as [_ Hy]. specialize (Hy Hflag).
  apply elem_of_cons in Hx as [->|Hx]; [exact Hy|].
  rewrite Hy in Hsame, Hflag. apply IH; [|exact Hx]. rewrite Hsame. exact Hflag.
Qed.

Lemma hiddenRows_steps s :
  hiddenRows s = foldl (λ s r, foldl (hiddenRowStep r) s digits) s (seq 0 9).
Proof. reflexivity. Qed.

Lemma hiddenCols_steps s :
  hiddenCols s = foldl (λ s c, foldl (hiddenColStep c) s digits) s (seq 0 9).
Proof. reflexivity. Qed.

Lemma hiddenSquares_steps s :
  hiddenSquares s = foldl (λ s k, foldl (hiddenSquareStep k) s digits) s (seq 0 9).
Proof. reflexivity. Qed.

Lemma boxLineReduction_steps s :
  boxLineReduction s = foldl (λ s k, foldl (boxStep k) s digits) s (seq 0 9).
Proof. reflexivity. Qed.

Lemma quiet_nakedStep s p : quiet s (nakedStep s p).
Proof.
  destruct p as [i j]. unfold nakedStep.
  destruct (getValue _ _ _); [apply quiet_refl|].
  destruct (candidates s !! _); [|apply quiet_refl].
  case_bool_decide; [|apply quiet_refl].
  destruct (elements _ !! 0); [apply quiet_updateCell|apply quiet_refl].
Qed.

Lemma quiet_hiddenRowStep r s num : quiet s (hiddenRowStep r s num).
Proof.
  unfold hiddenRowStep. case_bool_decide; [apply quiet_refl|]. cbv zeta.
  destruct (length _ =? 1); [|apply quiet_refl].
  destruct (filter _ _ !! 0); [apply quiet_updateCell|apply quiet_refl].
Qed.

Lemma quiet_hiddenColStep c s num : quiet s (hiddenColStep c s num).
Proof.
  unfold hiddenColStep. case_bool_decide; [apply quiet_refl|]. cbv zeta.
  destruct (length _ =? 1); [|apply quiet_refl].
  destruct (filter _ _ !! 0); [apply quiet_updateCell|apply quiet_refl].
Qed.

Lemma quiet_hiddenSquareStep k s num : quiet s (hiddenSquareStep k s num).
Proof.
  unfold hiddenSquareStep. cbv zeta. case_bool_decide; [apply quiet_refl|].
  destruct (length _ =? 1); [|apply quiet_refl].
  destruct (filter _ _ !! 0) as [[]|]; [apply quiet_updateCell|apply quiet_refl].
Qed.

Lemma quiet_boxStep k s num : quiet s (boxStep k s num).
Proof.
  unfold boxStep. case_bool_decide; [apply quiet_refl|].
  eapply quiet_trans; [apply quiet_reduceRow|apply quiet_reduceCol].
Qed.

Lemma round_unfold s :
  round s = boxLineReduction (hiddenSquares (hiddenCols (hiddenRows (nakedSingles s)))).
Proof. reflexivity. Qed.

(** In a round that leaves the flag down, every pass returns its input. *)
Lemma fixed_passes s :
  iterationChanges s = false → round s = s →
  nakedSingles s = s ∧ hiddenRows s = s ∧ hiddenCols s = s ∧ hiddenSquares s = s
  ∧ boxLineReduction s = s.
Proof.
  intros Hflag Hround. rewrite round_unfold in Hround.
  remember (nakedSingles s) as x1 eqn:E1.
  remember (hiddenRows x1) as x2 eqn:E2.
  remember (hiddenCols x2) as x3 eqn:E3.
  remember (hiddenSquares x3) as x4 eqn:E4.
  assert (H4 : x4 = s).
  { destruct (quiet_boxLineReduction x4) as [_ H]. rewrite Hround in H.
    symmetry. exact (H Hflag). }
  assert (H3 : x3 = s).
  { destruct (quiet_hiddenSquares x3) as [_ H]. rewrite <- E4, H4 in H.
    symmetry. exact (H Hflag). }
  assert (H2 : x2 = s).
  { destruct (quiet_hiddenCols x2) as [_ H]. rewrite <- E3, H3 in H.
    symmetry. exact (H Hflag). }
  assert (H1 : x1 = s).
  { destruct (quiet_hiddenRows x1) as [_ H]. rewrite <- E2, H2 in H.
    symmetry. exact (H Hflag). }
  rewrite H4 in Hround. rewrite H3 in E4. rewrite H2 in E3. rewrite H1 in E2.
  split_and!; congruence.
Qed.

Lemma updateCell_not_fixed r c v s :
  iterationChanges s = false → updateCell r c v s ≠ s.
Proof.
  intros Hflag Heq. pose proof (iterationChanges_updateCell r c v s) as Hup.
  rewrite Heq in Hup. congruence.
Qed.

Lemma fixed_naked s i j C :
  iterationChanges s = false → nakedSingles s = s → i < 9 → j < 9 →
  getValue (newBoard s) i j = None → candidates s !! key i j = Some C → size C ≠ 1.
Proof.
  intros Hflag Hfix Hi Hj He HC Hsize. rewrite nakedSingles_steps in Hfix.
  assert (Hstep : nakedStep s (i, j) = s).
  { apply (quiet_foldl_steps nakedStep rowMajor quiet_nakedStep);
      [by rewrite Hfix|by apply elem_of_rowMajor]. }
  unfold nakedStep in Hstep. rewrite He, HC in Hstep.
  rewrite bool_decide_eq_true_2 in Hstep by exact Hsize.
  destruct (elements C !! 0) as [v|] eqn:Hv.
  - by apply updateCell_not_fixed in Hstep.
  - apply lookup_ge_None in Hv. unfold size, set_size in Hsize. simpl in Hsize. lia.
Qed.

Lemma fixed_hiddenRow s r num :
  iterationChanges s = false → hiddenRows s = s → r < 9 → num ∈ digits →
  num ∉ setAt (_rows (solver s)) r →
  length (filter (λ c, hasCandidate s num (r, c)) (seq 0 9)) ≠ 1.
Proof.
  intros Hflag Hfix Hr Hnum Hrow Hlen. rewrite hiddenRows_steps in Hfix.
  assert (Hrow_fix : foldl (hiddenRowStep r) s digits = s).
  { apply (quiet_foldl_steps (λ s r, foldl (hiddenRowStep r) s digits) (seq 0 9));
      [|by rewrite Hfix|apply elem_of_seq; lia].
    intros s' r'. apply quiet_foldl. intros s'' num'. apply quiet_hiddenRowStep. }
  assert (Hstep : hiddenRowStep r s num = s).
  { apply (quiet_foldl_steps (hiddenRowStep r) digits);
      [intros; apply quiet_hiddenRowStep|by rewrite Hrow_fix|exact Hnum]. }
  unfold hiddenRowStep in Hstep. rewrite bool_decide_eq_false_2 in Hstep by exact Hrow.
  cbv zeta in Hstep. rewrite Hlen in Hstep. cbn [Nat.eqb] in Hstep.
  destruct (filter _ _ !! 0) as [c|] eqn:Hc.
  - by apply updateCell_not_fixed in Hstep.
  - apply lookup_ge_None in Hc. lia.
Qed.

Lemma fixed_hiddenCol s c num :
  iterationChanges s = false → hiddenCols s = s → c < 9 → num ∈ digits →
  num ∉ setAt (_cols (solver s)) c →
  length (filter (λ r, hasCandidate s num (r, c)) (seq 0 9)) ≠ 1.
Proof.
  intros Hflag Hfix Hc Hnum Hcol Hlen. rewrite hiddenCols_steps in Hfix.
  assert (Hcol_fix : foldl (hiddenColStep c) s digits = s).
  { apply (quiet_foldl_steps (λ s c, foldl (hiddenColStep c) s digits) (seq 0 9));
      [|by rewrite Hfix|apply elem_of_seq; lia].
    intros s' c'. apply quiet_foldl. intros s'' num'. apply quiet_hiddenColStep. }
  assert (Hstep : hiddenColStep c s num = s).
  { apply (quiet_foldl_steps (hiddenColStep c) digits);
      [intros; apply quiet_hiddenColStep|by rewrite Hcol_fix|exact Hnum]. }
  unfold hiddenColStep in Hstep. rewrite bool_decide_eq_false_2 in Hstep by exact Hcol.
  cbv zeta in Hstep. rewrite Hlen in Hstep. cbn [Nat.eqb] in Hstep.
  destruct (filter _ _ !! 0) as [r|] eqn:Hr.
  - by apply updateCell_not_fixed in Hstep.
  - apply lookup_ge_None in Hr. lia.
Qed.

Lemma fixed_hiddenSquare s k num :
  iterationChanges s = false → hiddenSquares s = s → k < 9 → num ∈ digits →
  num ∉ setAt (_squares (solver s)) k →
  length (filter (hasCandidate s num) (squareCells (k / 3 * 3) (k `mod` 3 * 3))) ≠ 1.
Proof.
  intros Hflag Hfix Hk Hnum Hsq Hlen. rewrite hiddenSquares_steps in Hfix.
  assert (Hsq_fix : foldl (hiddenSquareStep k) s digits = s).
  { apply (quiet_foldl_steps (λ s k, foldl (hiddenSquareStep k) s digits) (seq 0 9));
      [|by rewrite Hfix|apply elem_of_seq; lia].
    intros s' k'. apply quiet_foldl. intros s'' num'. apply quiet_hiddenSquareStep. }
  assert (Hstep : hiddenSquareStep k s num = s).
  { apply (quiet_foldl_steps (hiddenSquareStep k) digits);
      [intros; apply quiet_hiddenSquareStep|by rewrite Hsq_fix|exact Hnum]. }
  unfold hiddenSquareStep in Hstep. cbv zeta in Hstep.
  rewrite bool_decide_eq_false_2 in Hstep by exact Hsq.
  rewrite Hlen in Hstep. cbn [Nat.eqb] in Hstep.
  destruct (filter _ _ !! 0) as [[r c]|] eqn:Hrc.
  - by apply updateCell_not_fixed in Hstep.
  - apply lookup_ge_None in Hrc. lia.
Qed.

Lemma fixed_boxStep s k num :
  iterationChanges s = false → boxLineReduction s = s → k < 9 → num ∈ digits →
  num ∉ setAt (_squares (solver s)) k →
  reduceRow k num s = s ∧ reduceCol k num s = s.
Proof.
  intros Hflag Hfix Hk Hnum Hsq. rewrite boxLineReduction_steps in Hfix.
  assert (Hk_fix : foldl (boxStep k) s digits = s).
  { apply (quiet_foldl_steps (λ s k, foldl (boxStep k) s digits) (seq 0 9));
      [|by rewrite Hfix|apply elem_of_seq; lia].
    intros s' k'. apply quiet_foldl. intros s'' num'. apply quiet_boxStep. }
  assert (Hstep : boxStep k s num = s).
  { apply (quiet_foldl_steps (boxStep k) digits);
      [intros; apply quiet_boxStep|by rewrite Hk_fix|exact Hnum]. }
  unfold boxStep in Hstep. rewrite bool_decide_eq_false_2 in Hstep by exact Hsq.
  destruct (quiet_reduceCol k num (reduceRow k num s)) as [_ Hc].
  rewrite Hstep in Hc. specialize (Hc Hflag).
  assert (Hrow : reduceRow k num s = s) by (symmetry; exact Hc).
  split; [exact Hrow|]. rewrite Hrow in Hstep. exact Hstep.
Qed.

Lemma prune_fixed r c num s :
  iterationChanges s = false → pruneCandidate r c num s = s → ¬ hasCandidate s num (r, c).
Proof.
  intros Hflag Hfix Hhas. apply hasCandidate_true in Hhas as (He & C & HC & Hin).
  unfold pruneCandidate in Hfix. rewrite He in Hfix.
  unfold removeCandidate in Hfix. rewrite HC in Hfix.
  rewrite bool_decide_eq_true_2 in Hfix by exact Hin.
  apply (f_equal iterationChanges) in Hfix. cbn in Hfix. congruence.
Qed.

Lemma fixed_pruneRow s k num R c :
  iterationChanges s = false → reduceRow k num s = s →
  size (rowsWith k num s) = 1 → elements (rowsWith k num s) !! 0 = Some R →
  c < 9 → ¬ (k `mod` 3 * 3 ≤ c < k `mod` 3 * 3 + 3) →
  ¬ hasCandidate s num (R, c).
Proof.
  intros Hflag Hfix Hsize HR Hc Hout. unfold reduceRow in Hfix. cbv zeta in Hfix.
  fold (rowsWith k num s) in Hfix.
  rewrite bool_decide_eq_true_2 in Hfix by exact Hsize. rewrite HR in Hfix.
  lazymatch type of Hfix with
  | foldl ?f s (seq 0 9) = s =>
      assert (Hstep : f s c = s);
        [apply (quiet_foldl_steps f (seq 0 9));
           [intros s' c'; cbv beta; destruct (_ && _);
              [apply quiet_refl|apply quiet_pruneCandidate]
           |by rewrite Hfix|apply elem_of_seq; lia]|]
  end.
  cbv beta in Hstep.
  destruct (bool_decide (k `mod` 3 * 3 ≤ c) && bool_decide (c < k `mod` 3 * 3 + 3)) eqn:Hin.
  - apply andb_true_iff in Hin as [H1 H2].
    apply bool_decide_eq_true in H1. apply bool_decide_eq_true in H2. lia.
  - by apply prune_fixed.
Qed.

Lemma fixed_pruneCol s k num Cc r :
  iterationChanges s = false → reduceCol k num s = s →
  size (colsWith k num s) = 1 → elements (colsWith k num s) !! 0 = Some Cc →
  r < 9 → ¬ (k / 3 * 3 ≤ r < k / 3 * 3 + 3) →
  ¬ hasCandidate s num (r, Cc).
Proof.
  intros Hflag Hfix Hsize HC Hr Hout. unfold reduceCol in Hfix. cbv zeta in Hfix.
  fold (colsWith k num s) in Hfix.
  rewrite bool_decide_eq_true_2 in Hfix by exact Hsize. rewrite HC in Hfix.
  lazymatch type of Hfix with
  | foldl ?f s (seq 0 9) = s =>
      assert (Hstep : f s r = s);
        [apply (quiet_foldl_steps f (seq 0 9));
           [intros s' c'; cbv beta; destruct (_ && _);
              [apply quiet_refl|apply quiet_pruneCandidate]
           |by rewrite Hfix|apply elem_of_seq; lia]|]
  end.
  cbv beta in Hstep.
  destruct (bool_decide (k / 3 * 3 ≤ r) && bool_decide (r < k / 3 * 3 + 3)) eqn:Hin.
  - apply andb_true_iff in Hin as [H1 H2].
    apply bool_decide_eq_true in H1. apply bool_decide_eq_true in H2. lia.
  - by apply prune_fixed.
Qed.

(** The loop ends on a fixed point whenever it ends with the flag down. *)
Lemma mainLoop_settled n : ∀ s,
  (iterationChanges s = false → iteration s = s) →
  iterationChanges (mainLoop n s).2 = false →
  iteration (mainLoop n s).2 = (mainLoop n s).2.
Proof.
  induction n as [|n IH]; intros s Hs Hflag; cbn [mainLoop] in *; [by apply Hs|].
  destruct (iterationChanges s) eqn:Hit.
  - apply IH; [apply iteration_fixed|exact Hflag].
  - by apply Hs.
Qed.

(** A loop that stops with budget left stopped on a lowered flag. *)
Lemma mainLoop_budget_left n : ∀ s,
  (mainLoop n s).1 ≠ 0 → iterationChanges (mainLoop n s).2 = false.
Proof.
  induction n as [|n IH]; intros s Hleft; cbn [mainLoop] in *; [by destruct Hleft|].
  destruct (iterationChanges s) eqn:Hit; [by apply IH|exact Hit].
Qed.

Lemma iteration_round s : iterationChanges s = false → iteration s = round s.
Proof.
  intros Hflag. unfold iteration. destruct s as [sv nb cs hc ic].
  cbn [iterationChanges] in Hflag. subst ic. reflexivity.
Qed.

End FixedPoint.

(** ** A run started on the board of a fixed point never fills a cell *)

Section SecondCall.

Lemma hasCandidate_intro t num i j C :
  getValue (newBoard t) i j = None → candidates t !! key i j = Some C → num ∈ C →
  hasCandidate t num (i, j).
Proof.
  intros He HC Hin. unfold hasCandidate. cbn [fst snd]. rewrite He, HC.
  by apply bool_decide_pack.
Qed.

Lemma length_filter_mono {A} (P Q : A → Prop) `{∀ x, Decision (P x)} `{∀ x, Decision (Q x)}
    (l : list A) :
  (∀ y, y ∈ l → P y → Q y) → length (filter P l) ≤ length (filter Q l).
Proof.
  induction l as [|a l IH]; intros HPQ; [done|].
  rewrite !filter_cons.
  assert (IH' : length (filter P l) ≤ length (filter Q l)).
  { apply IH. intros y Hy. apply HPQ. apply elem_of_cons; by right. }
  destruct (decide (P a)) as [HP|HP]; destruct (decide (Q a)) as [HQ|HQ]; cbn [length]; try lia.
  destruct HQ. apply HPQ; [apply elem_of_cons; by left|exact HP].
Qed.

Lemma filter_not_single {A} (P Q : A → Prop) `{∀ x, Decision (P x)} `{∀ x, Decision (Q x)}
    (l : list A) x :
  x ∈ l → P x → length (filter P l) ≠ 1 → (∀ y, y ∈ l → P y → Q y) →
  length (filter Q l) ≠ 1.
Proof.
  intros Hx HP Hne HPQ. pose proof (length_filter_mono P Q l HPQ) as Hle.
  assert (Hin : x ∈ filter P l) by by apply list_elem_of_filter.
  destruct (filter P l) as [|a l']; [by apply elem_of_nil in Hin|]. cbn [length] in *. lia.
Qed.

Lemma used_recorded this other b i j x :
  recorded this b → covers other b → i < 9 → j < 9 →
  x ∈ usedAt this i j → x ∈ usedAt other i j.
Proof.
  intros (HR & HCc & HS) Hcov Hi Hj Hused. unfold usedAt in Hused |- *.
  apply elem_of_union in Hused as [Hused|Hused];
    [apply elem_of_union in Hused as [Hused|Hused]|].
  - destruct (HR i x Hused) as (j' & _ & Hj' & Hcell).
    apply elem_of_union; left. apply elem_of_union; left.
    by destruct (Hcov i j' x Hi Hj' Hcell) as (? & _).
  - destruct (HCc j x Hused) as (i' & Hi' & _ & Hcell).
    apply elem_of_union; left. apply elem_of_union; right.
    by destruct (Hcov i' j x Hi' Hj Hcell) as (_ & ? & _).
  - destruct (HS _ x Hused) as (i' & j' & Hi' & Hj' & Hk & Hcell).
    apply elem_of_union; right.
    destruct (Hcov i' j' x Hi' Hj' Hcell) as (_ & _ & Hin). by rewrite Hk in Hin.
Qed.

Variable sol : SudokuBoard.
Hypothesis sol_full : full sol.
Hypothesis sol_unique : unique sol.
Hypothesis sol_digits : digitsOnly sol.

Variable g : SudokuBoardWithSource.
Variable s : AutoState.
Hypothesis s_inv : propInv g s.
Hypothesis s_agrees : agrees sol s.
Hypothesis s_digits : ∀ k C x, candidates s !! k = Some C → x ∈ C → x ∈ digits.
Hypothesis s_flag : iterationChanges s = false.
Hypothesis s_round : round s = s.

Lemma above_hasCandidate t num i j :
  above s t → i < 9 → j < 9 → hasCandidate s num (i, j) → hasCandidate t num (i, j).
Proof.
  intros (Hnb & _ & Hc) Hi Hj Hhas.
  apply hasCandidate_true in Hhas as (He & C & HC & Hin).
  destruct (Hc i j C Hi Hj He HC) as (C' & HC' & Hsub).
  apply (hasCandidate_intro t num i j C'); [by rewrite Hnb|exact HC'|].
  eapply elem_of_weaken; [exact Hin|exact Hsub].
Qed.

Lemma sol_empty_candidate i j num :
  i < 9 → j < 9 → getCell sol i j = Some num → getValue (newBoard s) i j = None →
  hasCandidate s num (i, j) ∧ num ∉ usedAt (solver s) i j.
Proof.
  intros Hi Hj Hsol He. destruct s_agrees as [_ Hc].
  destruct (Hc i j Hi Hj He) as (C & x & HC & Hx & Hin).
  assert (x = num) by congruence. subst x.
  split; [by apply (hasCandidate_intro s num i j C)|].
  destruct s_inv as [_ _ _ _ _ _ Hsound _]. by apply (Hsound i j C num).
Qed.

Lemma fresh_covers t i j num :
  above s t → i < 9 → j < 9 → getValue (newBoard s) i j = Some num →
  num ∈ setAt (_rows (solver t)) i ∧ num ∈ setAt (_cols (solver t)) j
  ∧ num ∈ setAt (_squares (solver t)) (getSquareIndex i j).
Proof.
  intros (_ & Hsv & _) Hi Hj Hv. rewrite Hsv.
  apply (covers_newSolver (boardWithSourceToSimple (newBoard s)));
    [apply wf_simple; by destruct s_inv|exact Hi|exact Hj|by rewrite getCell_simple].
Qed.

Lemma board_below_sol i j y :
  i < 9 → j < 9 → getValue (newBoard s) i j = Some y → getCell sol i j = Some y.
Proof.
  intros Hi Hj Hv. destruct s_agrees as [Hext _]. apply Hext; [exact Hi|exact Hj|].
  by rewrite getCell_simple.
Qed.

(** A number missing from a set of the fresh solver is, in the completed
    board, in a cell that is empty and has it as a candidate at the fixed
    point. *)
Lemma sol_cell_candidate t i j num :
  above s t → i < 9 → j < 9 → getCell sol i j = Some num →
  (num ∉ setAt (_rows (solver t)) i) ∨ (num ∉ setAt (_cols (solver t)) j)
  ∨ (num ∉ setAt (_squares (solver t)) (getSquareIndex i j)) →
  hasCandidate s num (i, j) ∧ num ∉ usedAt (solver s) i j.
Proof.
  intros Hab Hi Hj Hsol Hout.
  destruct (getValue (newBoard s) i j) as [y|] eqn:He.
  - pose proof (board_below_sol i j y Hi Hj He) as Hy.
    assert (y = num) by congruence. subst y.
    destruct (fresh_covers t i j num Hab Hi Hj He) as (H1 & H2 & H3).
    destruct Hout as [Hout|[Hout|Hout]]; contradiction.
  - by apply sol_empty_candidate.
Qed.

Lemma not_used_sets this i j num :
  num ∉ usedAt this i j →
  (num ∉ setAt (_rows this) i) ∧ (num ∉ setAt (_cols this) j)
  ∧ (num ∉ setAt (_squares this) (getSquareIndex i j)).
Proof.
  intros Hused. unfold usedAt in Hused. split_and!; intros Hin; apply Hused.
  - apply elem_of_union; left. apply elem_of_union; left. exact Hin.
  - apply elem_of_union; left. apply elem_of_union; right. exact Hin.
  - apply elem_of_union; right. exact Hin.
Qed.

Lemma above_nakedStep t p : above s t → p.1 < 9 → p.2 < 9 → nakedStep t p = t.
Proof.
  intros Hab Hi Hj. destruct p as [i j]. cbn [fst snd] in *. unfold nakedStep.
  destruct Hab as (Hnb & Hsv & Hc).
  destruct (getValue (newBoard t) i j) eqn:He; [reflexivity|]. rewrite Hnb in He.
  destruct (candidates t !! key i j) as [C2|] eqn:HC2; [|reflexivity].
  case_bool_decide as Hsize; [|reflexivity]. exfalso.
  destruct s_agrees as [_ Hag]. destruct (Hag i j Hi Hj He) as (C & x & HC & _ & Hx).
  destruct (Hc i j C Hi Hj He HC) as (C' & HC' & Hsub).
  assert (C' = C2) by congruence. subst C'.
  destruct (fixed_passes s s_flag s_round) as (Hn & _).
  pose proof (fixed_naked s i j C s_flag Hn Hi Hj He HC) as Hne.
  pose proof (subseteq_size _ _ Hsub) as Hle.
  assert (Hpos : size C ≠ 0).
  { intros H0. apply size_empty_inv in H0. apply (not_elem_of_empty (C:=gset string) x).
    by rewrite <- H0. }
  lia.
Qed.

Lemma above_hiddenRowStep t r num :
  above s t → r < 9 → num ∈ digits → hiddenRowStep r t num = t.
Proof.
  intros Hab Hr Hnum. unfold hiddenRowStep. case_bool_decide as Hrow; [reflexivity|].
  cbv zeta.
  destruct (row_has sol sol_full sol_unique sol_digits r num Hr Hnum) as (c & Hc & Hsol).
  destruct (sol_cell_candidate t r c num Hab Hr Hc Hsol) as [Hhas Hused]; [by left|].
  apply not_used_sets in Hused as (Hrow_s & _ & _).
  destruct (fixed_passes s s_flag s_round) as (_ & Hh & _).
  pose proof (fixed_hiddenRow s r num s_flag Hh Hr Hnum Hrow_s) as Hne.
  assert (Hne' : length (filter (λ c, hasCandidate t num (r, c)) (seq 0 9)) ≠ 1).
  { apply (filter_not_single (λ c, hasCandidate s num (r, c)) _ (seq 0 9) c);
      [apply elem_of_seq; lia|exact Hhas|exact Hne|].
    intros y Hy%elem_of_seq Hy'. apply above_hasCandidate; [exact Hab|exact Hr|lia|exact Hy']. }
  apply Nat.eqb_neq in Hne'. rewrite Hne'. reflexivity.
Qed.

Lemma above_hiddenColStep t c num :
  above s t → c < 9 → num ∈ digits → hiddenColStep c t num = t.
Proof.
  intros Hab Hc Hnum. unfold hiddenColStep. case_bool_decide as Hcol; [reflexivity|].
  cbv zeta.
  destruct (col_has sol sol_full sol_unique sol_digits c num Hc Hnum) as (r & Hr & Hsol).
  destruct (sol_cell_candidate t r c num Hab Hr Hc Hsol) as [Hhas Hused];
    [right; by left|].
  apply not_used_sets in Hused as (_ & Hcol_s & _).
  destruct (fixed_passes s s_flag s_round) as (_ & _ & Hh & _).
  pose proof (fixed_hiddenCol s c num s_flag Hh Hc Hnum Hcol_s) as Hne.
  assert (Hne' : length (filter (λ r, hasCandidate t num (r, c)) (seq 0 9)) ≠ 1).
  { apply (filter_not_single (λ r, hasCandidate s num (r, c)) _ (seq 0 9) r);
      [apply elem_of_seq; lia|exact Hhas|exact Hne|].
    intros y Hy%elem_of_seq Hy'. apply above_hasCandidate; [exact Hab|lia|exact Hc|exact Hy']. }
  apply Nat.eqb_neq in Hne'. rewrite Hne'. reflexivity.
Qed.

(** The cell of square [k] that holds [num] in the completed board. *)
Lemma sol_square_candidate t k num :
  above s t → k < 9 → num ∈ digits → num ∉ setAt (_squares (solver t)) k →
  ∃ r c, (r, c) ∈ squareCells (k / 3 * 3) (k `mod` 3 * 3) ∧ r < 9 ∧ c < 9
         ∧ hasCandidate s num (r, c) ∧ num ∉ setAt (_squares (solver s)) k.
Proof.
  intros Hab Hk Hnum Hsq.
  destruct (square_has sol sol_full sol_unique sol_digits k num Hk Hnum)
    as (r & c & Hin & Hsol).
  destruct (squareCells_range k r c Hk Hin) as (Hr & Hc & Hkk).
  destruct (sol_cell_candidate t r c num Hab Hr Hc Hsol) as [Hhas Hused];
    [right; right; by rewrite Hkk|].
  apply not_used_sets in Hused as (_ & _ & Hsq_s). rewrite Hkk in Hsq_s.
  exists r, c. split_and!; [exact Hin|exact Hr|exact Hc|exact Hhas|exact Hsq_s].
Qed.

Lemma above_hiddenSquareStep t k num :
  above s t → k < 9 → num ∈ digits → hiddenSquareStep k t num = t.
Proof.
  intros Hab Hk Hnum. unfold hiddenSquareStep. cbv zeta.
  case_bool_decide as Hsq; [reflexivity|].
  destruct (sol_square_candidate t k num Hab Hk Hnum Hsq)
    as (r & c & Hin & Hr & Hc & Hhas & Hsq_s).
  destruct (fixed_passes s s_flag s_round) as (_ & _ & _ & Hh & _).
  pose proof (fixed_hiddenSquare s k num s_flag Hh Hk Hnum Hsq_s) as Hne.
  assert (Hne' : length (filter (hasCandidate t num)
                           (squareCells (k / 3 * 3) (k `mod` 3 * 3))) ≠ 1).
  { apply (filter_not_single (hasCandidate s num) _ _ (r, c));
      [exact Hin|exact Hhas|exact Hne|].
    intros [r' c'] Hin' Hy'. destruct (squareCells_range k r' c' Hk Hin') as (Hr' & Hc' & _).
    by apply above_hasCandidate. }
  apply Nat.eqb_neq in Hne'. rewrite Hne'. reflexivity.
Qed.

Lemma above_pruneCandidate t r c num :
  above s t → r < 9 → c < 9 → ¬ hasCandidate s num (r, c) →
  above s (pruneCandidate r c num t).
Proof.
  intros (Hnb & Hsv & Hc) Hr Hcc Hno.
  destruct (pruned_pruneCandidate r c num t) as (Hnb' & Hsv' & _).
  split_and!; [by rewrite Hnb'|by rewrite Hsv'|].
  intros i j C Hi Hj He HC. destruct (Hc i j C Hi Hj He HC) as (C' & HC' & Hsub).
  unfold pruneCandidate. destruct (getValue (newBoard t) r c) eqn:Het; [by exists C'|].
  pose proof (removeCandidate_lookup r c num t (key i j)) as Hlk.
  destruct (removeCandidate r c num t) as [removed t'] eqn:Hrem. cbn [snd] in Hlk.
  assert (Hcand : candidates (if removed then markChanged t' else t') = candidates t')
    by (by destruct removed).
  rewrite Hcand, Hlk. destruct (decide (key i j = key r c)) as [Hk|Hk].
  - apply key_inj in Hk; [|exact Hi|exact Hj|exact Hr|exact Hcc]. inversion Hk; subst i j.
    rewrite HC'. exists (C' ∖ {[num]}). split; [reflexivity|].
    intros x Hx. apply elem_of_difference. split; [eapply elem_of_weaken; [exact Hx|exact Hsub]|].
    intros Hs%elem_of_singleton. subst x. apply Hno.
    by apply (hasCandidate_intro s num r c C).
  - by exists C'.
Qed.

Lemma rowsWith_mono t k num : above s t → k < 9 → rowsWith k num s ⊆ rowsWith k num t.
Proof.
  intros Hab Hk x Hx. unfold rowsWith in *.
  apply elem_of_list_to_set, list_elem_of_fmap in Hx as ([r c] & -> & Hin).
  apply list_elem_of_filter in Hin as [Hhas Hin].
  apply elem_of_list_to_set, list_elem_of_fmap. exists (r, c). split; [reflexivity|].
  apply list_elem_of_filter. split; [|exact Hin].
  destruct (squareCells_range k r c Hk Hin) as (Hr & Hc & _). by apply above_hasCandidate.
Qed.

Lemma colsWith_mono t k num : above s t → k < 9 → colsWith k num s ⊆ colsWith k num t.
Proof.
  intros Hab Hk x Hx. unfold colsWith in *.
  apply elem_of_list_to_set, list_elem_of_fmap in Hx as ([r c] & -> & Hin).
  apply list_elem_of_filter in Hin as [Hhas Hin].
  apply elem_of_list_to_set, list_elem_of_fmap. exists (r, c). split; [reflexivity|].
  apply list_elem_of_filter. split; [|exact Hin].
  destruct (squareCells_range k r c Hk Hin) as (Hr & Hc & _). by apply above_hasCandidate.
Qed.

Lemma above_reduceRow t k num :
  above s t → k < 9 → num ∈ digits → num ∉ setAt (_squares (solver t)) k →
  above s (reduceRow k num t).
Proof.
  intros Hab Hk Hnum Hsq. unfold reduceRow. cbv zeta. fold (rowsWith k num t).
  case_bool_decide as Hsize; [|exact Hab].
  destruct (elements (rowsWith k num t) !! 0) as [R|] eqn:HR; [|exact Hab].
  destruct (sol_square_candidate t k num Hab Hk Hnum Hsq)
    as (r0 & c0 & Hin0 & Hr0 & Hc0 & Hhas0 & Hsq_s).
  assert (HRin : R ∈ rowsWith k num t)
    by (apply elem_of_elements; by eapply list_elem_of_lookup_2).
  assert (Hr0s : r0 ∈ rowsWith k num s).
  { unfold rowsWith. apply elem_of_list_to_set, list_elem_of_fmap. exists (r0, c0).
    split; [reflexivity|]. by apply list_elem_of_filter. }
  assert (Heq : rowsWith k num s = rowsWith k num t).
  { apply set_eq. intros y. split; [apply rowsWith_mono; [exact Hab|exact Hk]|]. intros Hy.
    assert (y = r0); [|by subst].
    apply (size_singleton_inv (rowsWith k num t)); [exact Hsize|exact Hy|].
    by apply (rowsWith_mono t k num Hab Hk). }
  assert (HRlt : R < 9).
  { unfold rowsWith in HRin.
    apply elem_of_list_to_set, list_elem_of_fmap in HRin as ([r c] & -> & Hin).
    apply list_elem_of_filter in Hin as [_ Hin]. by destruct (squareCells_range k r c Hk Hin). }
  destruct (fixed_passes s s_flag s_round) as (_ & _ & _ & _ & Hb).
  destruct (fixed_boxStep s k num s_flag Hb Hk Hnum Hsq_s) as [Hrow_fix _].
  apply (foldl_inv (above s)); [|exact Hab]. intros t' c Hc%elem_of_seq Hab'.
  destruct (bool_decide _ && bool_decide _) eqn:Hin; [exact Hab'|].
  apply above_pruneCandidate; [exact Hab'|exact HRlt|lia|].
  apply (fixed_pruneRow s k num R c s_flag Hrow_fix); [by rewrite Heq|by rewrite Heq|lia|].
  intros Hrange. apply andb_false_iff in Hin as [Hin|Hin];
    apply bool_decide_eq_false in Hin; lia.
Qed.

Lemma above_reduceCol t k num :
  above s t → k < 9 → num ∈ digits → num ∉ setAt (_squares (solver t)) k →
  above s (reduceCol k num t).
Proof.
  intros Hab Hk Hnum Hsq. unfold reduceCol. cbv zeta. fold (colsWith k num t).
  case_bool_decide as Hsize; [|exact Hab].
  destruct (elements (colsWith k num t) !! 0) as [Cc|] eqn:HC; [|exact Hab].
  destruct (sol_square_candidate t k num Hab Hk Hnum Hsq)
    as (r0 & c0 & Hin0 & Hr0 & Hc0 & Hhas0 & Hsq_s).
  assert (HCin : Cc ∈ colsWith k num t)
    by (apply elem_of_elements; by eapply list_elem_of_lookup_2).
  assert (Hc0s : c0 ∈ colsWith k num s).
  { unfold colsWith. apply elem_of_list_to_set, list_elem_of_fmap. exists (r0, c0).
    split; [reflexivity|]. by apply list_elem_of_filter. }
  assert (Heq : colsWith k num s = colsWith k num t).
  { apply set_eq. intros y. split; [apply colsWith_mono; [exact Hab|exact Hk]|]. intros Hy.
    assert (y = c0); [|by subst].
    apply (size_singleton_inv (colsWith k num t)); [exact Hsize|exact Hy|].
    by apply (colsWith_mono t k num Hab Hk). }
  assert (HClt : Cc < 9).
  { unfold colsWith in HCin.
    apply elem_of_list_to_set, list_elem_of_fmap in HCin as ([r c] & -> & Hin).
    apply list_elem_of_filter in Hin as [_ Hin]. by destruct (squareCells_range k r c Hk Hin) as (_ & ? & _). }
  destruct (fixed_passes s s_flag s_round) as (_ & _ & _ & _ & Hb).
  destruct (fixed_boxStep s k num s_flag Hb Hk Hnum Hsq_s) as [_ Hcol_fix].
  apply (foldl_inv (above s)); [|exact Hab]. intros t' r Hr%elem_of_seq Hab'.
  destruct (bool_decide _ && bool_decide _) eqn:Hin; [exact Hab'|].
  apply above_pruneCandidate; [exact Hab'|lia|exact HClt|].
  apply (fixed_pruneCol s k num Cc r s_flag Hcol_fix); [by rewrite Heq|by rewrite Heq|lia|].
  intros Hrange. apply andb_false_iff in Hin as [Hin|Hin];
    apply bool_decide_eq_false in Hin; lia.
Qed.

Lemma above_boxLineReduction t : above s t → above s (boxLineReduction t).
Proof.
  rewrite boxLineReduction_steps. apply (foldl_inv (above s)). clear t.
  intros t k Hk%elem_of_seq. apply (foldl_inv (above s)). clear t. intros t num Hnum Hab.
  unfold boxStep. case_bool_decide as Hsq; [exact Hab|].
  apply above_reduceCol; [apply above_reduceRow; [exact Hab|lia|exact Hnum|exact Hsq]
                         |lia|exact Hnum|].
  destruct (pruned_reduceRow k num t) as (_ & Hsv & _). by rewrite Hsv.
Qed.

Lemma above_round t : above s t → above s (round t).
Proof.
  intros Hab. rewrite round_unfold.
  assert (H1 : nakedSingles t = t).
  { rewrite nakedSingles_steps. apply foldl_fixed. intros [i j] Hin%elem_of_rowMajor.
    apply above_nakedStep; [exact Hab|cbn; lia|cbn; lia]. }
  assert (H2 : hiddenRows t = t).
  { rewrite hiddenRows_steps. apply foldl_fixed. intros r Hr%elem_of_seq.
    apply foldl_fixed. intros num Hnum. apply above_hiddenRowStep; [exact Hab|lia|exact Hnum]. }
  assert (H3 : hiddenCols t = t).
  { rewrite hiddenCols_steps. apply foldl_fixed. intros c Hc%elem_of_seq.
    apply foldl_fixed. intros num Hnum. apply above_hiddenColStep; [exact Hab|lia|exact Hnum]. }
  assert (H4 : hiddenSquares t = t).
  { rewrite hiddenSquares_steps. apply foldl_fixed. intros k Hk%elem_of_seq.
    apply foldl_fixed. intros num Hnum.
    apply above_hiddenSquareStep; [exact Hab|lia|exact Hnum]. }
  rewrite H1, H2, H3, H4. by apply above_boxLineReduction.
Qed.

Lemma above_iteration t : above s t → above s (iteration t).
Proof.
  intros (Hnb & Hsv & Hc). unfold iteration. apply above_round.
  split_and!; [exact Hnb|exact Hsv|exact Hc].
Qed.

Lemma above_mainLoop n : ∀ t, above s t → above s (mainLoop n t).2.
Proof.
  induction n as [|n IH]; intros t Hab; cbn [mainLoop]; [exact Hab|].
  destruct (iterationChanges t); [|exact Hab]. apply IH. by apply above_iteration.
Qed.

Lemma above_initialState : above s (initialState (newBoard s)).
Proof.
  split_and!; [apply newBoard_initialState|apply solver_initialState|].
  intros i j C Hi Hj He HC. rewrite candidates_initialState.
  exists (list_to_set (getValidNumbers
                         (newSolver (boardWithSourceToSimple (newBoard s))) i j)).
  split; [by apply initializeCandidates_empty|].
  intros x Hx. apply elem_of_list_to_set, elem_of_getValidNumbers.
  split; [exact (s_digits (key i j) C x HC Hx)|].
  destruct s_inv as [Hwf _ _ _ _ Hcov Hsound _].
  intros Hused. apply (Hsound i j C x Hi Hj HC Hx).
  exact (used_recorded _ (solver s) _ i j x (recorded_newSolver _ (wf_simple _ Hwf))
           Hcov Hi Hj Hused).
Qed.

Lemma autoSolveCells_settled : autoSolveCells (newBoard s) = newBoard s.
Proof.
  destruct (autoSolveCells_state (newBoard s)) as [H|[_ H]]; [exact H|]. rewrite H.
  by destruct (above_mainLoop maxIterations0 _ above_initialState) as [? _].
Qed.

End SecondCall.

Lemma autoSolveCells_idempotent g sol :
  wf_sboard g → full sol → unique sol → digitsOnly sol →
  extends (boardWithSourceToSimple g) sol →
  iterationChanges (mainLoop maxIterations0 (initialState g)).2 = false →
  autoSolveCells (autoSolveCells g) = autoSolveCells g.
Proof.
  intros Hwf Hfull Hu Hd Hext Hflag.
  destruct (autoSolveCells_state g) as [Heq|[Hvalid Heq]].
  - rewrite Heq. exact Heq.
  - rewrite Heq.
    destruct (compatible_mainLoop sol Hfull Hu Hd g maxIterations0 (initialState g))
      as [Hinv Hag].
    { split; [by apply propInv_initialState|by apply agrees_initialState]. }
    destruct (digitsInv_mainLoop g maxIterations0) as [Hdig _].
    apply (autoSolveCells_settled sol Hfull Hu Hd g _ Hinv Hag Hdig Hflag).
    rewrite <- (iteration_round _ Hflag). apply mainLoop_settled; [|exact Hflag].
    intros H. discriminate H.
Qed.

(** * Claim C3, amended *)

Section SecondCallClaim.

(** The hypothesis on the end of the loop cannot be dropped.  [capBoard]
    has the completion [capSolved]; the first call uses its ten rounds and
    the tenth still changes the state; cell (6,0) is empty after the first
    call and holds ["1"] after the second. *)
Lemma capBoard_second_call_fills :
  wf_board capBoard ∧ full capSolved ∧ unique capSolved ∧ digitsOnly capSolved
  ∧ extends capBoard capSolved
  ∧ (mainLoop maxIterations0 (initialState (fromUser capBoard))).1 = 0
  ∧ iterationChanges (mainLoop maxIterations0 (initialState (fromUser capBoard))).2 = true
  ∧ getValue (autoSolveCells (fromUser capBoard)) 6 0 = None
  ∧ getValue (autoSolveCells (autoSolveCells (fromUser capBoard))) 6 0 = Some "1".
Proof.
  split_and!.
  - apply wf_board_check. vm_compute. reflexivity.
  - apply full_check. vm_compute. reflexivity.
  - apply isValidBoard_true. vm_compute. reflexivity.
  - apply digitsOnly_check. vm_compute. reflexivity.
  - apply extends_check. vm_compute. reflexivity.
  - vm_compute. reflexivity.
  - vm_compute. reflexivity.
  - vm_compute. reflexivity.
  - vm_compute. reflexivity.
Qed.

(** The hypothesis on the completion cannot be dropped either, and it is
    what sets [stallBoard] aside: there the loop ends with the flag down,
    and no full board of digits without duplicate keeps its symbols. *)
Lemma stallBoard_no_completion :
  iterationChanges (mainLoop maxIterations0 (initialState (fromUser stallBoard))).2 = false
  ∧ ¬ ∃ sol, full sol ∧ unique sol ∧ digitsOnly sol ∧ extends stallBoard sol.
Proof.
  assert (Hflag : iterationChanges
                    (mainLoop maxIterations0 (initialState (fromUser stallBoard))).2 = false).
  { vm_compute. reflexivity. }
  split; [exact Hflag|]. intros (sol & Hfull & Hu & Hd & Hext).
  assert (Hsimple : boardWithSourceToSimple (fromUser stallBoard) = stallBoard).
  { vm_compute. reflexivity. }
  assert (Hidem : autoSolveCells (autoSolveCells (fromUser stallBoard))
                  = autoSolveCells (fromUser stallBoard)).
  { apply (autoSolveCells_idempotent (fromUser stallBoard) sol);
      [apply wf_sboard_check; vm_compute; reflexivity|exact Hfull|exact Hu|exact Hd
      |by rewrite Hsimple|exact Hflag]. }
  apply (f_equal (λ b, getValue b 0 3)) in Hidem. vm_compute in Hidem. discriminate Hidem.
Qed.

(** C3, amended.  [autoSolveCells] is idempotent on every 9 by 9 grid that
    has a completion (a full board of digits from 1 to 9 without duplicate
    that keeps every symbol of the grid) and on which the loop of the first
    call ends with [iterationChanges] down: the loop stopped because a round
    changed nothing, not because the budget of 10 rounds ran out while
    rounds were still making changes.  This is the case whenever the loop
    stops with some of its budget left ([mainLoop_budget_left]).  Neither
    hypothesis can be dropped: [stallBoard] reaches such a fixed point but
    has no completion ([stallBoard_no_completion]), and [capBoard] has a
    completion but runs out of rounds ([capBoard_second_call_fills]). *)
Theorem C3_idempotent_at_fixed_point (g : SudokuBoardWithSource) (sol : SudokuBoard) :
  wf_sboard g → full sol → unique sol → digitsOnly sol →
  extends (boardWithSourceToSimple g) sol →
  iterationChanges (mainLoop maxIterations0 (initialState g)).2 = false →
  autoSolveCells (autoSolveCells g) = autoSolveCells g.
Proof. apply autoSolveCells_idempotent. Qed.

Lemma C3_fixed_point_witness :
  autoSolveCells (autoSolveCells (fromUser partialBoard))
  = autoSolveCells (fromUser partialBoard).
Proof.
  apply (C3_idempotent_at_fixed_point (fromUser partialBoard) partialSolved).
  - apply wf_sboard_check. vm_compute. reflexivity.
  - apply full_check. vm_compute. reflexivity.
  - apply isValidBoard_true. vm_compute. reflexivity.
  - apply digitsOnly_check. vm_compute. reflexivity.
  - apply extends_check. vm_compute. reflexivity.
  - vm_compute. reflexivity.
Defined.

End SecondCallClaim.

Section Extras.

(** X1. The block loops and [getSquareIndex] agree.  For a cell (r, c) of
    the grid, the nine cells enumerated from the corner
    [(floor(r/3)*3, floor(c/3)*3)] (the loop of [isValidMove]) and the nine
    cells enumerated from the corner [(floor(k/3)*3, (k%3)*3)] for
    [k = getSquareIndex(r, c)] (the loop of [updateCell]) are both exactly
    the cells of the grid whose [getSquareIndex] is that of (r, c). *)
Theorem X1_block_cells (i j r c : nat) :
  r < 9 → c < 9 →
  ((i, j) ∈ squareCells (r / 3 * 3) (c / 3 * 3)
   ↔ i < 9 ∧ j < 9 ∧ getSquareIndex i j = getSquareIndex r c)
  ∧ ((i, j) ∈ squareCells (getSquareIndex r c / 3 * 3) (getSquareIndex r c `mod` 3 * 3)
     ↔ i < 9 ∧ j < 9 ∧ getSquareIndex i j = getSquareIndex r c).
Proof.
  intros Hr Hc. split; [by apply squareCells_of_cell|]. split.
  - intros Hin. apply squareCells_range in Hin; [exact Hin|by apply getSquareIndex_lt].
  - intros (Hi & Hj & Heq). by apply squareCells_spec.
Qed.

Lemma X1_witness : (4, 5) ∈ squareCells (3 / 3 * 3) (3 / 3 * 3).
Proof.
  destruct (X1_block_cells 4 5 3 3) as [[_ H] _].
  - lia.
  - lia.
  - apply H. split; [lia|]. split; [lia|]. reflexivity.
Defined.

(** X2. After the constructor, the constraint sets are exact: the set of
    row [k] holds a symbol exactly when some cell of row [k] of the board
    holds it, and likewise for the set of column [k] and the set of block
    [k]. *)
Theorem X2_constraints_exact (b : SudokuBoard) (k : nat) (s : string) :
  wf_board b → k < 9 →
  (s ∈ setAt (_rows (newSolver b)) k ↔ ∃ j, j < 9 ∧ getCell b k j = Some s)
  ∧ (s ∈ setAt (_cols (newSolver b)) k ↔ ∃ i, i < 9 ∧ getCell b i k = Some s)
  ∧ (s ∈ setAt (_squares (newSolver b)) k ↔
       ∃ i j, i < 9 ∧ j < 9 ∧ getSquareIndex i j = k ∧ getCell b i j = Some s).
Proof.
  intros Hwf Hk. pose proof (covers_newSolver b Hwf) as Hcov.
  destruct (recorded_newSolver b Hwf) as (HR & HC & HS). split_and!; split.
  - intros Hin. destruct (HR k s Hin) as (j & _ & Hj & Hcell). by exists j.
  - intros (j & Hj & Hcell). by destruct (Hcov k j s Hk Hj Hcell) as (? & _ & _).
  - intros Hin. destruct (HC k s Hin) as (i & Hi & _ & Hcell). by exists i.
  - intros (i & Hi & Hcell). by destruct (Hcov i k s Hi Hk Hcell) as (_ & ? & _).
  - intros Hin. destruct (HS k s Hin) as (i & j & Hi & Hj & Hsq & Hcell). by exists i, j.
  - intros (i & j & Hi & Hj & Hsq & Hcell).
    destruct (Hcov i j s Hi Hj Hcell) as (_ & _ & Hin). by rewrite Hsq in Hin.
Qed.

Lemma X2_witness : "2" ∈ setAt (_rows (newSolver puzzleBoard)) 0.
Proof.
  destruct (X2_constraints_exact puzzleBoard 0 "2") as [[_ H] _].
  - apply wf_board_check. vm_compute. reflexivity.
  - lia.
  - apply H. exists 1. split; [lia|]. vm_compute. reflexivity.
Defined.

(** X3. On a solver just built from a 9 by 9 board, [getValidNumbers(r, c)]
    holds exactly the digits from 1 to 9 that no cell of row [r], of column
    [c] or of the block of (r, c) holds on the board. *)
Theorem X3_getValidNumbers_fresh (b : SudokuBoard) (r c : nat) (num : string) :
  wf_board b → r < 9 → c < 9 →
  num ∈ getValidNumbers (newSolver b) r c ↔
  num ∈ digits
  ∧ ∀ i j, i < 9 → j < 9 → peers (i, j) (r, c) → getCell b i j ≠ Some num.
Proof.
  intros Hwf Hr Hc.
  rewrite (getValidNumbers_spec (newSolver b) b r c num
             (covers_newSolver b Hwf) (recorded_newSolver b Hwf) Hr Hc).
  unfold peers. cbn [fst snd]. split; intros [Hd H]; (split; [exact Hd|]).
  - intros i j Hi Hj Hp Hcell. destruct (H i j Hi Hj Hcell) as (? & ? & ?).
    destruct Hp as [?|[?|?]]; done.
  - intros i j Hi Hj Hcell. split_and!; intros Heq; apply (H i j Hi Hj); auto.
Qed.

Lemma X3_witness :
  "1" ∈ getValidNumbers (newSolver puzzleBoard) 0 0 ↔
  "1" ∈ digits
  ∧ ∀ i j, i < 9 → j < 9 → peers (i, j) (0, 0) → getCell puzzleBoard i j ≠ Some "1".
Proof.
  apply (X3_getValidNumbers_fresh puzzleBoard 0 0 "1").
  - apply wf_board_check. vm_compute. reflexivity.
  - lia.
  - lia.
Defined.

(** X4. The undo step of [backtrack] is exact: on an empty cell (r, c) of
    the grid and for a number that none of the three constraint sets of the
    cell holds, placing the number and undoing the placement gives back the
    solver as it was, board and sets. *)
Theorem X4_undo_restores (this : SudokuSolver) (r c : nat) (num : string) :
  wf_solver this → r < 9 → c < 9 → getCell (board this) r c = None →
  num ∉ usedAt this r c →
  unplace (place this r c num) r c num = this.
Proof. apply unplace_place. Qed.

Lemma X4_witness :
  unplace (place (newSolver emptyBoard) 0 0 "1") 0 0 "1" = newSolver emptyBoard.
Proof.
  apply (X4_undo_restores (newSolver emptyBoard) 0 0 "1").
  - apply wf_newSolver, wf_board_check. vm_compute. reflexivity.
  - lia.
  - lia.
  - vm_compute. reflexivity.
  - apply (bool_decide_unpack _). vm_compute. reflexivity.
Defined.

(** X5. A call of [backtrack] that returns [false] leaves the solver as it
    found it: the board and the three arrays of constraint sets are those
    of the call's start. *)
Theorem X5_backtrack_failure_restores (fuel : nat) (this this' : SudokuSolver) :
  wf_solver this → backtrack fuel this = Some (false, this') → this' = this.
Proof. apply backtrack_false. Qed.

Lemma X5_witness :
  ∃ this', backtrack 82 (newSolver singleThenDeadBoard) = Some (false, this')
           ∧ this' = newSolver singleThenDeadBoard.
Proof.
  assert (H : fst <$> backtrack 82 (newSolver singleThenDeadBoard) = Some false).
  { vm_compute. reflexivity. }
  destruct (backtrack 82 (newSolver singleThenDeadBoard)) as [[[] this']|] eqn:Hb;
    [discriminate H| |discriminate H].
  exists this'. split; [reflexivity|].
  apply (X5_backtrack_failure_restores 82 (newSolver singleThenDeadBoard)).
  - apply wf_newSolver, wf_board_check. vm_compute. reflexivity.
  - exact Hb.
Defined.

(** X6. [backtrack] terminates: each nested call fills one more cell, so a
    call on a solver whose board has [n] empty cells returns within [n + 1]
    nested calls. *)
Theorem X6_backtrack_terminates (fuel : nat) (this : SudokuSolver) :
  wf_solver this → countEmpty (board this) < fuel →
  ∃ res, backtrack fuel this = Some res.
Proof. apply backtrack_total. Qed.

Lemma X6_witness : ∃ res, backtrack 7 (newSolver puzzleBoard) = Some res.
Proof.
  apply (X6_backtrack_terminates 7 (newSolver puzzleBoard)).
  - apply wf_newSolver, wf_board_check. vm_compute. reflexivity.
  - apply Nat.ltb_lt. vm_compute. reflexivity.
Defined.

(** X7. [solve] returns a 9 by 9 board without empty cell as it is, whether
    or not the board has duplicates: nothing is checked on the way. *)
Theorem X7_solve_full (b : SudokuBoard) :
  wf_board b → full b → solve b = Some (Some b).
Proof. intros Hwf Hfull. apply (solveWith_full 81 b Hwf Hfull). Qed.

Lemma X7_witness : solve solvedBoard = Some (Some solvedBoard).
Proof.
  apply (X7_solve_full solvedBoard).
  - apply wf_board_check. vm_compute. reflexivity.
  - apply full_check. vm_compute. reflexivity.
Defined.

(** X8. [solve] decides solvability.  On a 9 by 9 board without duplicate,
    a grid that [solve] returns is a completion of the board (full, without
    duplicate, keeping the symbols of the board, with a digit from 1 to 9 in
    every cell the board left empty), and [solve] returns [null] exactly
    when the board has no completion. *)
Theorem X8_solve_decides (b : SudokuBoard) :
  wf_board b → unique b →
  (∀ g', solve b = Some (Some g') → solutionOf b g')
  ∧ (solve b = Some None ↔ ¬ ∃ sol, solutionOf b sol).
Proof.
  intros Hwf Hu. pose proof (solve_total b Hwf) as Htot. revert Htot.
  unfold solve. apply (solveWith_decides 82 b Hwf Hu).
Qed.

Lemma X8_witness : ¬ ∃ sol, solutionOf singleThenDeadBoard sol.
Proof.
  destruct (X8_solve_decides singleThenDeadBoard) as [_ [H _]].
  - apply wf_board_check. vm_compute. reflexivity.
  - apply isValidBoard_true. vm_compute. reflexivity.
  - apply H. vm_compute. reflexivity.
Defined.

(** X9. Round trip of [applySolutionToBoard] and [boardWithSourceToSimple]:
    when the solution keeps every symbol of the original board, stripping
    the tags of the board with the solution applied gives the solution. *)
Theorem X9_apply_then_strip (original : SudokuBoardWithSource) (solution : SudokuBoard) :
  wf_sboard original → wf_board solution →
  extends (boardWithSourceToSimple original) solution →
  boardWithSourceToSimple (applySolutionToBoard original solution) = solution.
Proof. apply simple_applySolution. Qed.

Lemma X9_witness :
  boardWithSourceToSimple (applySolutionToBoard (fromUser puzzleBoard) solvedBoard)
  = solvedBoard.
Proof.
  apply (X9_apply_then_strip (fromUser puzzleBoard) solvedBoard).
  - apply wf_sboard_check. vm_compute. reflexivity.
  - apply wf_board_check. vm_compute. reflexivity.
  - apply extends_check. vm_compute. reflexivity.
Defined.

(** X10. [applySolutionToBoard] is idempotent, and applying to a board its
    own symbols changes nothing. *)
Theorem X10_apply_idempotent (original : SudokuBoardWithSource) (solution : SudokuBoard) :
  wf_sboard original →
  applySolutionToBoard (applySolutionToBoard original solution) solution
  = applySolutionToBoard original solution
  ∧ applySolutionToBoard original (boardWithSourceToSimple original) = original.
Proof.
  intros Hwf. split; [by apply applySolution_twice|by apply applySolution_own].
Qed.

Lemma X10_witness :
  applySolutionToBoard (applySolutionToBoard (fromUser puzzleBoard) solvedBoard) solvedBoard
  = applySolutionToBoard (fromUser puzzleBoard) solvedBoard.
Proof.
  destruct (X10_apply_idempotent (fromUser puzzleBoard) solvedBoard) as [H _].
  - apply wf_sboard_check. vm_compute. reflexivity.
  - exact H.
Defined.

(** X11. [removeCandidate(r, c, num)] on cells of the grid: it returns
    [true] exactly when [num] was a candidate of (r, c); afterwards the
    candidates of (r, c) are the former ones without [num], the candidates
    of every other cell are untouched (the keys [r-c] of two cells never
    collide), and neither the board nor the solver changed. *)
Theorem X11_removeCandidate_effect (r c : nat) (num : string) (s : AutoState) (i j : nat) :
  r < 9 → c < 9 → i < 9 → j < 9 →
  ((removeCandidate r c num s).1 = true
   ↔ ∃ C, candidates s !! key r c = Some C ∧ num ∈ C)
  ∧ candidates (removeCandidate r c num s).2 !! key i j
    = (if decide ((i, j) = (r, c))
       then (λ C, C ∖ {[num]}) <$> candidates s !! key i j
       else candidates s !! key i j)
  ∧ newBoard (removeCandidate r c num s).2 = newBoard s
  ∧ solver (removeCandidate r c num s).2 = solver s.
Proof.
  intros Hr Hc Hi Hj. destruct (removeCandidate_rest r c num s) as (Hnb & Hsv & _).
  split_and!; [apply removeCandidate_flag| |exact Hnb|exact Hsv].
  rewrite removeCandidate_lookup.
  destruct (decide ((i, j) = (r, c))) as [[= -> ->]|Hne].
  - by rewrite decide_True.
  - rewrite decide_False; [done|]. intros Hk. by apply key_inj in Hk.
Qed.

Lemma X11_witness :
  newBoard (removeCandidate 0 0 "1" (initialState (fromUser puzzleBoard))).2
  = fromUser puzzleBoard.
Proof.
  destruct (X11_removeCandidate_effect 0 0 "1" (initialState (fromUser puzzleBoard)) 0 0)
    as (_ & _ & H & _).
  - lia.
  - lia.
  - lia.
  - lia.
  - exact H.
Defined.

(** X12. What [updateCell(r, c, v)] does, seen from a cell (i, j) of the
    grid.  The cell (r, c) of the new board holds [v] with the tag
    [system] and has no candidate entry any more; every other cell of the
    board is untouched; a cell that shares the row, the column or the block
    of (r, c) loses the candidate [v] and gets [v] in its constraint sets;
    the candidates and the constraint sets of all other cells are
    untouched; both change flags are raised. *)
Theorem X12_updateCell_effect (r c : nat) (v : string) (s : AutoState) (i j : nat) :
  wf_sboard (newBoard s) →
  wf_sets (_rows (solver s)) → wf_sets (_cols (solver s)) → wf_sets (_squares (solver s)) →
  r < 9 → c < 9 → i < 9 → j < 9 →
  getSourceCell (newBoard (updateCell r c v s)) i j
  = (if decide ((i, j) = (r, c)) then Some (mkCell (Some v) (Some system))
     else getSourceCell (newBoard s) i j)
  ∧ candidates (updateCell r c v s) !! key i j
    = (if decide ((i, j) = (r, c)) then None
       else if decide (peers (i, j) (r, c))
            then (λ C, C ∖ {[v]}) <$> candidates s !! key i j
            else candidates s !! key i j)
  ∧ (∀ x, x ∈ usedAt (solver (updateCell r c v s)) i j
          ↔ x ∈ usedAt (solver s) i j ∨ (x = v ∧ peers (i, j) (r, c)))
  ∧ hasChanges (updateCell r c v s) = true
  ∧ iterationChanges (updateCell r c v s) = true.
Proof.
  intros Hwf HR HC HS Hr Hc Hi Hj.
  split_and!; [| | |apply hasChanges_updateCell|apply iterationChanges_updateCell].
  - rewrite updateCell_unfold.
    lazymatch goal with
    | |- context [removeList v (peerCells r c) ?s0] =>
        destruct (pruned_removeList v (peerCells r c) s0) as (Hnb & _ & _)
    end.
    rewrite Hnb. cbn [newBoard].
    destruct (decide ((i, j) = (r, c))) as [[= -> ->]|Hne].
    + by apply getSourceCell_set_eq.
    + apply getSourceCell_set_ne. congruence.
  - rewrite updateCell_unfold, removeList_lookup. cbn [candidates].
    destruct (decide ((i, j) = (r, c))) as [[= -> ->]|Hne].
    + rewrite lookup_delete_eq. by case_decide.
    + rewrite lookup_delete_ne; [|intros Hk; apply key_inj in Hk; congruence].
      pose proof (key_peerCells i j r c Hi Hj Hr Hc) as Hkp.
      destruct (decide (peers (i, j) (r, c))) as [Hp|Hp].
      * rewrite decide_True; [done|]. by apply Hkp.
      * rewrite decide_False; [done|]. intros Hin. by apply Hkp in Hin.
  - intros x. rewrite updateCell_unfold.
    lazymatch goal with
    | |- context [removeList v (peerCells r c) ?s0] =>
        destruct (pruned_removeList v (peerCells r c) s0) as (_ & Hsv & _)
    end.
    rewrite Hsv. cbn [solver]. by apply usedAt_updated.
Qed.

Lemma X12_witness :
  hasChanges (updateCell 0 0 "1" (initialState (fromUser puzzleBoard))) = true.
Proof.
  destruct (X12_updateCell_effect 0 0 "1" (initialState (fromUser puzzleBoard)) 0 0)
    as (_ & _ & _ & H & _).
  - apply wf_sboard_check. vm_compute. reflexivity.
  - vm_compute. reflexivity.
  - vm_compute. reflexivity.
  - vm_compute. reflexivity.
  - lia.
  - lia.
  - lia.
  - lia.
  - exact H.
Defined.

(** X13. Every symbol that [autoSolveCells] writes into a 9 by 9 board is a
    valid number of its cell on the board given: a digit from 1 to 9 that
    [getValidNumbers] returns for the cell on a solver built from the
    input. *)
Theorem X13_autoSolve_writes_valid (g : SudokuBoardWithSource) (i j : nat) (v : string) :
  wf_sboard g → i < 9 → j < 9 → getValue g i j = None →
  getValue (autoSolveCells g) i j = Some v →
  v ∈ digits ∧ v ∈ getValidNumbers (newSolver (boardWithSourceToSimple g)) i j.
Proof.
  intros Hwf Hi Hj He Hv.
  pose proof (autoSolveCells_valid g i j v Hwf Hi Hj He Hv) as Hin.
  split; [|exact Hin]. by apply elem_of_getValidNumbers in Hin as [? _].
Qed.

Lemma X13_witness :
  "1" ∈ digits
  ∧ "1" ∈ getValidNumbers (newSolver (boardWithSourceToSimple (fromUser puzzleBoard))) 0 0.
Proof.
  apply (X13_autoSolve_writes_valid (fromUser puzzleBoard) 0 0 "1").
  - apply wf_sboard_check. vm_compute. reflexivity.
  - lia.
  - lia.
  - vm_compute. reflexivity.
  - vm_compute. reflexivity.
Defined.

(** X14. [autoSolveCells] only writes forced symbols: whenever a full board
    of digits without duplicate keeps every symbol of the 9 by 9 board
    given, it also keeps every symbol of the board [autoSolveCells]
    returns.  So each cell the function fills has the same symbol in every
    completion of the input. *)
Theorem X14_autoSolve_forced (g : SudokuBoardWithSource) (sol : SudokuBoard) :
  wf_sboard g → full sol → unique sol → digitsOnly sol →
  extends (boardWithSourceToSimple g) sol →
  extends (boardWithSourceToSimple (autoSolveCells g)) sol.
Proof.
  intros Hwf Hfull Hu Hd Hext. by apply (autoSolveCells_agrees sol Hfull Hu Hd g).
Qed.

Lemma X14_witness :
  extends (boardWithSourceToSimple (autoSolveCells (fromUser puzzleBoard))) solvedBoard.
Proof.
  apply (X14_autoSolve_forced (fromUser puzzleBoard) solvedBoard).
  - apply wf_sboard_check. vm_compute. reflexivity.
  - apply full_check. vm_compute. reflexivity.
  - apply isValidBoard_true. vm_compute. reflexivity.
  - apply digitsOnly_check. vm_compute. reflexivity.
  - apply extends_check. vm_compute. reflexivity.
Defined.

(** X15. When the loop of [autoSolveCells], entered on a 9 by 9 board that
    [isValidBoard] accepts, stops with some of its budget of 10 left, it
    stopped at a fixed point: the last iteration changed
    nothing, and one more iteration would leave the whole state (board,
    solver, candidates and flags) as it is. *)
Theorem X15_loop_exit_fixed_point (b : SudokuBoardWithSource) (m : nat) (s' : AutoState) :
  wf_sboard b → isValidBoard (boardWithSourceToSimple b) = true →
  mainLoop maxIterations0 (initialState b) = (S m, s') →
  iterationChanges s' = false ∧ iteration s' = s'.
Proof.
  intros _ _ Hloop. apply (mainLoop_fixed maxIterations0 (initialState b) m s'); [|exact Hloop].
  intros Hflag. discriminate Hflag.
Qed.

Lemma X15_witness :
  iterationChanges (mainLoop maxIterations0 (initialState (fromUser puzzleBoard))).2 = false.
Proof.
  destruct (X15_loop_exit_fixed_point (fromUser puzzleBoard) 7
              (mainLoop maxIterations0 (initialState (fromUser puzzleBoard))).2) as [H _].
  - apply wf_sboard_check. vm_compute. reflexivity.
  - vm_compute. reflexivity.
  - vm_compute. reflexivity.
  - exact H.
Defined.

(** X16. What [isValidMove] checks.  On a 9 by 9 board, for a digit [v]
    from 1 to 9 and a cell (r, c) of the grid, [isValidMove(board, r, c, v)] is [true] exactly when
    no other cell of row [r], of column [c] or of the block of (r, c) holds
    [v].  ([parseInt] is a parameter: all that is used of it is that it maps
    each of the nine digits to a number from 1 to 9.) *)
Theorem X16_isValidMove_spec (parseInt : string → option Z)
    (b : SudokuBoardWithSource) (r c : nat) (v : string) :
  (∀ d, d ∈ digits → ∃ n, parseInt d = Some n ∧ (1 ≤ n ≤ 9)%Z) →
  wf_sboard b → r < 9 → c < 9 → v ∈ digits →
  isValidMove parseInt b r c v = true ↔
  ∀ i j, i < 9 → j < 9 → (i, j) ≠ (r, c) → peers (i, j) (r, c) →
    getValue b i j ≠ Some v.
Proof. intros Hp _. apply (isValidMove_spec parseInt Hp). Qed.

Lemma X16_witness :
  isValidMove parseDigit (fromUser puzzleBoard) 0 0 "1" = true ↔
  ∀ i j, i < 9 → j < 9 → (i, j) ≠ (0, 0) → peers (i, j) (0, 0) →
    getValue (fromUser puzzleBoard) i j ≠ Some "1".
Proof.
  apply (X16_isValidMove_spec parseDigit (fromUser puzzleBoard) 0 0 "1").
  - exact parseDigit_digit.
  - apply wf_sboard_check. vm_compute. reflexivity.
  - lia.
  - lia.
  - apply (bool_decide_unpack _). vm_compute. reflexivity.
Defined.

(** X17. The check of the component and the check of the solver agree.  On
    a 9 by 9 board without duplicate, typing a digit into a cell that is
    not tagged [system] stores it whatever [isValidMove] says, and
    [isValidMove] is [true] exactly when [isValidBoard] accepts the board
    that [handleCellChange] stores. *)
Theorem X17_isValidMove_isValidBoard (parseInt : string → option Z)
    (b : SudokuBoardWithSource) (r c : nat) (v : string) (cell : SudokuCell) :
  (∀ d, d ∈ digits → ∃ n, parseInt d = Some n ∧ (1 ≤ n ≤ 9)%Z) →
  wf_sboard b → unique (boardWithSourceToSimple b) → r < 9 → c < 9 → v ∈ digits →
  getSourceCell b r c = Some cell → source cell ≠ Some system →
  getSourceCell (handleCellChange r c v b) r c = Some (mkCell (Some v) (Some user))
  ∧ isValidMove parseInt b r c v
    = isValidBoard (boardWithSourceToSimple (handleCellChange r c v b)).
Proof.
  intros Hp Hwf Hu Hr Hc Hv Hcell Hsrc.
  rewrite (handleCellChange_digit r c v b cell Hcell Hsrc Hv). split.
  - by apply getSourceCell_set_eq.
  - by apply isValidMove_isValidBoard.
Qed.

Lemma X17_witness :
  getSourceCell (handleCellChange 0 0 "2" (fromUser puzzleBoard)) 0 0
  = Some (mkCell (Some "2") (Some user))
  ∧ isValidMove parseDigit (fromUser puzzleBoard) 0 0 "2"
    = isValidBoard (boardWithSourceToSimple (handleCellChange 0 0 "2" (fromUser puzzleBoard))).
Proof.
  apply (X17_isValidMove_isValidBoard parseDigit (fromUser puzzleBoard) 0 0 "2"
           (mkCell None None)).
  - exact parseDigit_digit.
  - apply wf_sboard_check. vm_compute. reflexivity.
  - apply isValidBoard_true. vm_compute. reflexivity.
  - lia.
  - lia.
  - apply (bool_decide_unpack _). vm_compute. reflexivity.
  - vm_compute. reflexivity.
  - simpl. discriminate.
Defined.

(** X18. A conflicting edit stalls the propagator.  When [isValidMove]
    rejects a digit typed into a cell that is not tagged [system] of a
    9 by 9 board without duplicate, the next [autoSolveStep] returns the
    edited board as it is. *)
Theorem X18_conflict_stalls (parseInt : string → option Z)
    (b : SudokuBoardWithSource) (r c : nat) (v : string) (cell : SudokuCell) :
  (∀ d, d ∈ digits → ∃ n, parseInt d = Some n ∧ (1 ≤ n ≤ 9)%Z) →
  wf_sboard b → unique (boardWithSourceToSimple b) → r < 9 → c < 9 → v ∈ digits →
  getSourceCell b r c = Some cell → source cell ≠ Some system →
  isValidMove parseInt b r c v = false →
  autoSolveCells (handleCellChange r c v b) = handleCellChange r c v b.
Proof.
  intros Hp Hwf Hu Hr Hc Hv Hcell Hsrc Hmove.
  rewrite (handleCellChange_digit r c v b cell Hcell Hsrc Hv).
  rewrite (isValidMove_isValidBoard parseInt Hp b r c v Hwf Hu Hr Hc Hv) in Hmove.
  unfold autoSolveCells. rewrite Hmove. reflexivity.
Qed.

Lemma X18_witness :
  autoSolveCells (handleCellChange 0 0 "2" (fromUser puzzleBoard))
  = handleCellChange 0 0 "2" (fromUser puzzleBoard).
Proof.
  apply (X18_conflict_stalls parseDigit (fromUser puzzleBoard) 0 0 "2" (mkCell None None)).
  - exact parseDigit_digit.
  - apply wf_sboard_check. vm_compute. reflexivity.
  - apply isValidBoard_true. vm_compute. reflexivity.
  - lia.
  - lia.
  - apply (bool_decide_unpack _). vm_compute. reflexivity.
  - vm_compute. reflexivity.
  - simpl. discriminate.
  - vm_compute. reflexivity.
Defined.

(** X19. On a 9 by 9 board, [handleCellChange(r, c, v)] for a cell (r, c)
    of the grid changes at most that cell, and never a cell tagged
    [system]: every other cell, and every [system] cell, comes out as it
    was, value and tag, whatever was typed. *)
Theorem X19_handleCellChange_frame (r c : nat) (v : string)
    (prev : SudokuBoardWithSource) (i j : nat) (cell : SudokuCell) :
  wf_sboard prev → r < 9 → c < 9 →
  getSourceCell prev i j = Some cell →
  (i, j) ≠ (r, c) ∨ source cell = Some system →
  getSourceCell (handleCellChange r c v prev) i j = Some cell.
Proof. intros _ _ _. apply handleCellChange_frame. Qed.

Lemma X19_witness :
  getSourceCell (handleCellChange 0 0 "5" (autoSolveCells (fromUser puzzleBoard))) 0 0
  = Some (mkCell (Some "1") (Some system)).
Proof.
  apply (X19_handleCellChange_frame 0 0 "5" (autoSolveCells (fromUser puzzleBoard)) 0 0).
  - apply wf_autoSolveCells, wf_sboard_check. vm_compute. reflexivity.
  - lia.
  - lia.
  - vm_compute. reflexivity.
  - right. reflexivity.
Defined.

(** X20. Invariant of the component's board.  Whatever sequence of edits
    of cells of the grid, auto-solve steps and clearings happens from the
    initial board, the board is 9 by 9 and each of its cells is either
    empty without tag or holds a digit from 1 to 9 with a tag. *)
Theorem X20_host_invariant (es : list HostEvent) :
  Forall inGrid es → boardOK (hostRun initializeBoard es).
Proof. intros _. apply boardOK_hostRun, boardOK_initializeBoard. Qed.

Lemma X20_witness :
  boardOK (hostRun initializeBoard [CellChange 0 0 "5"; AutoSolveStep; ClearBoard]).
Proof.
  apply (X20_host_invariant [CellChange 0 0 "5"; AutoSolveStep; ClearBoard]).
  repeat constructor; simpl; lia.
Defined.

(** X21. A filled cell tagged [system] of a 9 by 9 board keeps its value
    and its tag through every sequence of edits of cells of the grid and
    auto-solve steps; only [clearBoard] removes it. *)
Theorem X21_system_cell_kept (es : list HostEvent) (b : SudokuBoardWithSource)
    (i j : nat) (cell : SudokuCell) :
  wf_sboard b → i < 9 → j < 9 → Forall inGrid es → ClearBoard ∉ es →
  getSourceCell b i j = Some cell → source cell = Some system → value cell ≠ None →
  getSourceCell (hostRun b es) i j = Some cell.
Proof. intros Hwf Hi Hj _. by apply system_cell_kept. Qed.

Lemma X21_witness :
  getSourceCell
    (hostRun (autoSolveCells (fromUser puzzleBoard)) [CellChange 0 0 "5"; AutoSolveStep]) 0 0
  = Some (mkCell (Some "1") (Some system)).
Proof.
  apply (X21_system_cell_kept [CellChange 0 0 "5"; AutoSolveStep]
           (autoSolveCells (fromUser puzzleBoard)) 0 0).
  - apply wf_autoSolveCells, wf_sboard_check. vm_compute. reflexivity.
  - lia.
  - lia.
  - repeat constructor; simpl; lia.
  - intros H. apply elem_of_cons in H as [H|H]; [discriminate H|].
    apply elem_of_cons in H as [H|H]; [discriminate H|]. by apply elem_of_nil in H.
  - vm_compute. reflexivity.
  - reflexivity.
  - simpl. discriminate.
Defined.

(** X22. Arrow keys move the focus inside the grid and wrap around: from a
    cell of the grid, the cell that [handleKeyDown] focuses is a cell of
    the grid, and the opposite arrow leads back. *)
Theorem X22_arrow_keys (k : string) (r c r' c' : nat) :
  r < 9 → c < 9 → handleKeyDown k r c = Some (r', c') →
  r' < 9 ∧ c' < 9
  ∧ (k = "ArrowUp" → handleKeyDown "ArrowDown" r' c' = Some (r, c))
  ∧ (k = "ArrowDown" → handleKeyDown "ArrowUp" r' c' = Some (r, c))
  ∧ (k = "ArrowLeft" → handleKeyDown "ArrowRight" r' c' = Some (r, c))
  ∧ (k = "ArrowRight" → handleKeyDown "ArrowLeft" r' c' = Some (r, c)).
Proof.
  intros Hr Hc Hk. destruct (handleKeyDown_range k r c r' c' Hr Hc Hk) as [Hr' Hc'].
  destruct (handleKeyDown_opposite r c Hr Hc) as (Hu & Hd & Hl & Hrt).
  split_and!; [exact Hr'|exact Hc'| | | |]; intros ->.
  - apply (Hu (r', c') Hk).
  - apply (Hd (r', c') Hk).
  - apply (Hl (r', c') Hk).
  - apply (Hrt (r', c') Hk).
Qed.

Lemma X22_witness : handleKeyDown "ArrowDown" 8 4 = Some (0, 4).
Proof.
  destruct (X22_arrow_keys "ArrowUp" 0 4 8 4) as (_ & _ & H & _).
  - lia.
  - lia.
  - reflexivity.
  - apply H. reflexivity.
Defined.

(** X23. The hints of [calculateCandidates].  On a 9 by 9 board and for a
    cell (i, j) of the grid, the map handed to [setCellCandidates] has an entry under the key
    [i-j] exactly when [isValidBoard] accepts the board and the cell is
    empty, and the entry is then what [getValidNumbers(i, j)] returns on a
    solver built from the board. *)
Theorem X23_calculateCandidates_lookup (b : SudokuBoardWithSource) (i j : nat) :
  wf_sboard b → i < 9 → j < 9 →
  calculateCandidates b !! key i j
  = if isValidBoard (boardWithSourceToSimple b) then
      match getValue b i j with
      | None => Some (getValidNumbers (newSolver (boardWithSourceToSimple b)) i j)
      | Some _ => None
      end
    else None.
Proof. intros _. apply calculateCandidates_lookup. Qed.

Lemma X23_witness : calculateCandidates (fromUser puzzleBoard) !! key 0 0 = Some ["1"].
Proof.
  rewrite (X23_calculateCandidates_lookup (fromUser puzzleBoard) 0 0).
  - vm_compute. reflexivity.
  - apply wf_sboard_check. vm_compute. reflexivity.
  - lia.
  - lia.
Defined.

(** X24. [setBoardCell] is guarded: with a row or a column outside the
    9 by 9 board it changes nothing; inside, it writes the cell and leaves
    every other cell alone.  It never touches the constraint sets, so
    [getValidNumbers] answers after it as before. *)
Theorem X24_setBoardCell_guard (this : SudokuSolver) (r c : nat) (v : option string) :
  wf_board (board this) →
  (9 ≤ r ∨ 9 ≤ c → setBoardCell this r c v = this)
  ∧ (r < 9 → c < 9 → getCell (board (setBoardCell this r c v)) r c = v)
  ∧ (∀ i j, (i, j) ≠ (r, c) →
       getCell (board (setBoardCell this r c v)) i j = getCell (board this) i j)
  ∧ (∀ i j, getValidNumbers (setBoardCell this r c v) i j = getValidNumbers this i j).
Proof.
  intros Hwf. split_and!.
  - by apply setBoardCell_outside.
  - intros Hr Hc. by apply getCell_setCell_eq.
  - intros i j Hne. apply getCell_setCell_ne. congruence.
  - reflexivity.
Qed.

Lemma X24_witness : setBoardCell (newSolver puzzleBoard) 9 0 (Some "1") = newSolver puzzleBoard.
Proof.
  destruct (X24_setBoardCell_guard (newSolver puzzleBoard) 9 0 (Some "1")) as [H _].
  - apply wf_board_check. vm_compute. reflexivity.
  - apply H. left. lia.
Defined.

(** X25. Progress of technique 1.  On a 9 by 9 board that [isValidBoard]
    accepts, take the first empty cell in reading order that has exactly
    one valid number (no empty cell before it has exactly one):
    [autoSolveCells] returns a board on which this cell holds that number
    with the tag [system]. *)
Theorem X25_first_naked_single_filled (g : SudokuBoardWithSource) (i j : nat) (v : string) :
  wf_sboard g → isValidBoard (boardWithSourceToSimple g) = true →
  i < 9 → j < 9 → getValue g i j = None →
  getValidNumbers (newSolver (boardWithSourceToSimple g)) i j = [v] →
  (∀ i' j', i' < 9 → j' < 9 → before (i', j') (i, j) → getValue g i' j' = None →
     length (getValidNumbers (newSolver (boardWithSourceToSimple g)) i' j') ≠ 1) →
  getSourceCell (autoSolveCells g) i j = Some (mkCell (Some v) (Some system)).
Proof. apply first_single_filled. Qed.

Lemma X25_witness :
  getSourceCell (autoSolveCells (fromUser puzzleBoard)) 0 0
  = Some (mkCell (Some "1") (Some system)).
Proof.
  apply (X25_first_naked_single_filled (fromUser puzzleBoard) 0 0 "1").
  - apply wf_sboard_check. vm_compute. reflexivity.
  - vm_compute. reflexivity.
  - lia.
  - lia.
  - vm_compute. reflexivity.
  - vm_compute. reflexivity.
  - intros i' j' _ _ Hb. unfold before in Hb. simpl in Hb. lia.
Defined.

(** X26. The propagator and the search agree.  On a 9 by 9 board of digits
    without duplicate, every symbol of the board [autoSolveCells] returns
    is the symbol of the same cell in the grid [solve] returns for that
    board. *)
Theorem X26_propagator_agrees_with_solve (g : SudokuBoardWithSource) (sol : SudokuBoard) :
  wf_sboard g → unique (boardWithSourceToSimple g) →
  digitsOnly (boardWithSourceToSimple g) →
  solve (boardWithSourceToSimple g) = Some (Some sol) →
  extends (boardWithSourceToSimple (autoSolveCells g)) sol.
Proof. intros Hwf Hu Hd. unfold solve. by apply solveWith_agrees. Qed.

Lemma X26_witness :
  extends (boardWithSourceToSimple (autoSolveCells (fromUser puzzleBoard))) solvedBoard.
Proof.
  apply (X26_propagator_agrees_with_solve (fromUser puzzleBoard) solvedBoard).
  - apply wf_sboard_check. vm_compute. reflexivity.
  - apply isValidBoard_true. vm_compute. reflexivity.
  - apply digitsOnly_check. vm_compute. reflexivity.
  - vm_compute. reflexivity.
Defined.

(** X27. When [autoSolveCells] fills a 9 by 9 board completely, the puzzle
    has no other completion: every full board of digits without duplicate
    that keeps the symbols of the input is the board returned. *)
Theorem X27_full_result_is_only_completion (g : SudokuBoardWithSource) (sol : SudokuBoard) :
  wf_sboard g → full (boardWithSourceToSimple (autoSolveCells g)) →
  wf_board sol → full sol → unique sol → digitsOnly sol →
  extends (boardWithSourceToSimple g) sol →
  sol = boardWithSourceToSimple (autoSolveCells g).
Proof. apply autoSolveCells_only_completion. Qed.

Lemma X27_witness :
  solvedBoard = boardWithSourceToSimple (autoSolveCells (fromUser puzzleBoard)).
Proof.
  apply (X27_full_result_is_only_completion (fromUser puzzleBoard) solvedBoard).
  - apply wf_sboard_check. vm_compute. reflexivity.
  - apply full_check. vm_compute. reflexivity.
  - apply wf_board_check. vm_compute. reflexivity.
  - apply full_check. vm_compute. reflexivity.
  - apply isValidBoard_true. vm_compute. reflexivity.
  - apply digitsOnly_check. vm_compute. reflexivity.
  - apply extends_check. vm_compute. reflexivity.
Defined.

End Extras.
